(** * fms-sdg generators: caching dispatcher and vLLM batching

    A shallow embedding of [fms_sdg/generators/llm.py] and
    [fms_sdg/generators/vllm.py], and the properties of the cache key, the
    caching dispatcher, stop-sequence truncation, keyword merging,
    log-likelihood truncation and the distribute/undistribute pair.

    Conventions of the embedding:
    - a Python [str] is a [string] whose characters are code points 0..255;
    - a Python [dict] is an association list in insertion order with unique
      keys ([Dict.set] replaces in place or appends, as CPython does);
    - [None] is the value [VNone]; an exception is the [Raise] outcome. *)

From Stdlib Require Import ZArith List String Ascii Bool Arith Lia.
Import ListNotations.
Local Open Scope string_scope.
Local Open Scope Z_scope.
Set Warnings "-register-all".

(* ================================================================== *)
(** * Python data *)

(** JSON-serialisable Python values, as requests carry them in [args] and
    [kwargs] and as the cache stores them.  A float is carried by its
    [repr], the text [json.dumps] prints for a finite float. *)
Inductive value : Type :=
| VNone
| VBool (b : bool)
| VInt (z : Z)
| VFloat (repr : string)
| VStr (s : string)
| VList (l : list value)
| VDict (d : list (string * value)).

Definition is_none (v : value) : bool :=
  match v with VNone => true | _ => false end.

(** The exceptions the modelled code can raise. *)
Inductive exn : Type :=
| AssertionError
| IndexError
| ValueError
| TypeError
| AttributeError.

Inductive outcome (A : Type) : Type :=
| Ok (a : A)
| Raise (e : exn).
Arguments Ok {A} a.
Arguments Raise {A} e.

Definition bind {A B} (m : outcome A) (k : A -> outcome B) : outcome B :=
  match m with
  | Ok a => k a
  | Raise e => Raise e
  end.

Notation "x <- m ;; k" := (bind m (fun x => k))
  (at level 61, m at next level, right associativity).
Notation "' p <- m ;; k" := (bind m (fun x => let p := x in k))
  (at level 61, p pattern, m at next level, right associativity).

(** [l[i:]] with Python's treatment of negative and out-of-range indices. *)
Definition slice_from {A} (i : Z) (l : list A) : list A :=
  let n := Z.of_nat (List.length l) in
  let start := if i <? 0 then Z.max 0 (n + i) else Z.min i n in
  skipn (Z.to_nat start) l.

(** Insertion-ordered dictionaries with string keys. *)
Module Dict.

Definition t (V : Type) : Type := list (string * V).

Fixpoint get {V} (d : t V) (k : string) : option V :=
  match d with
  | [] => None
  | (k', v) :: tl => if String.eqb k' k then Some v else get tl k
  end.

Definition contains {V} (d : t V) (k : string) : bool :=
  match get d k with Some _ => true | None => false end.

(** [d[k] = v]: an existing key keeps its position, a new key goes last. *)
Fixpoint set {V} (d : t V) (k : string) (v : V) : t V :=
  match d with
  | [] => [(k, v)]
  | (k', v') :: tl =>
      if String.eqb k' k then (k', v) :: tl else (k', v') :: set tl k v
  end.

(** [d.pop(k, None)], the dictionary that remains (keys are unique, so at
    most one entry goes). *)
Fixpoint remove {V} (d : t V) (k : string) : t V :=
  match d with
  | [] => []
  | (k', v') :: tl =>
      if String.eqb k' k then remove tl k else (k', v') :: remove tl k
  end.

(** [{**d, **e}]. *)
Definition update {V} (d e : t V) : t V :=
  fold_left (fun acc kv => set acc (fst kv) (snd kv)) e d.

(** Keys are unique. *)
Definition wf {V} (d : t V) : Prop := NoDup (map fst d).


End Dict.

(* ================================================================== *)
(** * [json.dumps] with its defaults ([ensure_ascii=True], no [sort_keys]) *)

Module Json.

Definition hex_digit (n : Z) : ascii :=
  ascii_of_nat (Z.to_nat (if n <? 10 then 48 + n else 87 + n)).

Definition code (c : ascii) : Z := Z.of_nat (nat_of_ascii c).

(** [py_encode_basestring_ascii] on one character: the short escapes of
    [ESCAPE_DCT], printable ASCII as it is, anything else as [\u00xx]. *)
Definition escape_char (c : ascii) : string :=
  let n := code c in
  if n =? 92 then "\\"
  else if n =? 34 then String "\" (String (ascii_of_nat 34) EmptyString)
  else if n =? 8 then "\b"
  else if n =? 12 then "\f"
  else if n =? 10 then "\n"
  else if n =? 13 then "\r"
  else if n =? 9 then "\t"
  else if (32 <=? n) && (n <=? 126) then String c EmptyString
  else String "\" (String "u" (String "0" (String "0"
         (String (hex_digit (n / 16)) (String (hex_digit (n mod 16)) EmptyString))))).

Fixpoint escape (s : string) : string :=
  match s with
  | EmptyString => EmptyString
  | String c tl => escape_char c ++ escape tl
  end.

Definition quote : string := String (ascii_of_nat 34) EmptyString.

Definition dumps_str (s : string) : string := quote ++ escape s ++ quote.

(** Decimal text of an integer. *)
Fixpoint pos_digits (fuel : nat) (n : Z) (acc : string) : string :=
  match fuel with
  | O => acc
  | S fuel' =>
      let acc' := String (hex_digit (n mod 10)) acc in
      if n <? 10 then acc' else pos_digits fuel' (n / 10) acc'
  end.

Definition dumps_int (z : Z) : string :=
  let mag := Z.abs z in
  let ds := pos_digits (S (Z.to_nat (Z.log2 mag))) mag EmptyString in
  if z <? 0 then "-" ++ ds else ds.

Fixpoint join (sep : string) (l : list string) : string :=
  match l with
  | [] => EmptyString
  | [x] => x
  | x :: tl => x ++ sep ++ join sep tl
  end.

Fixpoint dumps (v : value) : string :=
  match v with
  | VNone => "null"
  | VBool true => "true"
  | VBool false => "false"
  | VInt z => dumps_int z
  | VFloat r => r
  | VStr s => dumps_str s
  | VList l => "[" ++ join ", " (map dumps l) ++ "]"
  | VDict d =>
      "{" ++ join ", "
        (map (fun kv => match kv with
                        | (k, x) => dumps_str k ++ ": " ++ dumps x
                        end) d) ++ "}"
  end.

(** One step of a reader of escaped text: the character that the escape
    at the head of the input stands for, and the rest of the input.  A bare
    quote (the end of the string literal) is not the head of any escape. *)
Definition hex_value (c : ascii) : option Z :=
  let n := code c in
  if (48 <=? n) && (n <=? 57) then Some (n - 48)
  else if (97 <=? n) && (n <=? 102) then Some (n - 87)
  else None.

Definition unescape_head (s : string) : option (ascii * string) :=
  match s with
  | EmptyString => None
  | String c tl =>
      if code c =? 34 then None
      else if code c =? 92 then
        match tl with
        | String e tl' =>
            if code e =? 92 then Some (e, tl')
            else if code e =? 34 then Some (e, tl')
            else if code e =? 98 then Some (ascii_of_nat 8, tl')
            else if code e =? 102 then Some (ascii_of_nat 12, tl')
            else if code e =? 110 then Some (ascii_of_nat 10, tl')
            else if code e =? 114 then Some (ascii_of_nat 13, tl')
            else if code e =? 116 then Some (ascii_of_nat 9, tl')
            else
              match tl' with
              | String _ (String _ (String h (String l rest))) =>
                  match hex_value h, hex_value l with
                  | Some a, Some b =>
                      Some (ascii_of_nat (Z.to_nat (16 * a + b)), rest)
                  | _, _ => None
                  end
              | _ => None
              end
        | EmptyString => None
        end
      else Some (c, tl)
  end.

End Json.

(* ================================================================== *)
(** * SHA-256 (FIPS 180-4), as [hashlib.sha256(...).hexdigest()] *)

Module Sha256.

Definition modulus : Z := 4294967296.

Definition add32 (x y : Z) : Z := (x + y) mod modulus.

Definition rotr (n x : Z) : Z :=
  Z.lor (Z.shiftr x n) (Z.shiftl x (32 - n) mod modulus).

Definition not32 (x : Z) : Z := modulus - 1 - x.

Definition ch (x y z : Z) : Z :=
  Z.lxor (Z.land x y) (Z.land (not32 x) z).

Definition maj (x y z : Z) : Z :=
  Z.lxor (Z.lxor (Z.land x y) (Z.land x z)) (Z.land y z).

Definition bsig0 (x : Z) : Z :=
  Z.lxor (Z.lxor (rotr 2 x) (rotr 13 x)) (rotr 22 x).

Definition bsig1 (x : Z) : Z :=
  Z.lxor (Z.lxor (rotr 6 x) (rotr 11 x)) (rotr 25 x).

Definition ssig0 (x : Z) : Z :=
  Z.lxor (Z.lxor (rotr 7 x) (rotr 18 x)) (Z.shiftr x 3).

Definition ssig1 (x : Z) : Z :=
  Z.lxor (Z.lxor (rotr 17 x) (rotr 19 x)) (Z.shiftr x 10).

(** Words written as eight hexadecimal digits each. *)
Definition nibble (c : ascii) : Z :=
  let n := Z.of_nat (nat_of_ascii c) in
  if n <? 58 then n - 48 else n - 87.

Fixpoint hex_words (s : string) (count : nat) (acc : Z) : list Z :=
  match s with
  | EmptyString => []
  | String c tl =>
      let acc' := 16 * acc + nibble c in
      match count with
      | O => acc' :: hex_words tl 7 0
      | S count' => hex_words tl count' acc'
      end
  end.

Definition round_constants : list Z :=
  hex_words
    ("428a2f9871374491b5c0fbcfe9b5dba53956c25b59f111f1923f82a4ab1c5ed5" ++
     "d807aa9812835b01243185be550c7dc372be5d7480deb1fe9bdc06a7c19bf174" ++
     "e49b69c1efbe47860fc19dc6240ca1cc2de92c6f4a7484aa5cb0a9dc76f988da" ++
     "983e5152a831c66db00327c8bf597fc7c6e00bf3d5a7914706ca635114292967" ++
     "27b70a852e1b21384d2c6dfc53380d13650a7354766a0abb81c2c92e92722c85" ++
     "a2bfe8a1a81a664bc24b8b70c76c51a3d192e819d6990624f40e3585106aa070" ++
     "19a4c1161e376c082748774c34b0bcb5391c0cb34ed8aa4a5b9cca4f682e6ff3" ++
     "748f82ee78a5636f84c878148cc7020890befffaa4506cebbef9a3f7c67178f2")
    7 0.

Definition initial_hash : list Z :=
  hex_words
    "6a09e667bb67ae853c6ef372a54ff53a510e527f9b05688c1f83d9ab5be0cd19"
    7 0.

(** Padding: a 1 bit, zeros up to 56 mod 64, the bit length on 8 bytes. *)
Definition be_bytes (count : nat) (x : Z) : list Z :=
  map (fun i => Z.shiftr x (8 * Z.of_nat i) mod 256) (rev (seq 0 count)).

Definition pad (msg : list Z) : list Z :=
  let len := Z.of_nat (List.length msg) in
  msg ++ [128] ++ repeat 0 (Z.to_nat ((55 - len) mod 64))
      ++ be_bytes 8 (8 * len).

Fixpoint be_words (bytes : list Z) : list Z :=
  match bytes with
  | a :: b :: c :: d :: tl =>
      (((a * 256 + b) * 256 + c) * 256 + d) :: be_words tl
  | _ => []
  end.

(** The message schedule, most recent word first. *)
Fixpoint schedule (count : nat) (w : list Z) : list Z :=
  match count with
  | O => w
  | S count' =>
      let x := add32 (add32 (ssig1 (nth 1 w 0)) (nth 6 w 0))
                     (add32 (ssig0 (nth 14 w 0)) (nth 15 w 0)) in
      schedule count' (x :: w)
  end.

Definition state : Type := (Z * Z * Z * Z * Z * Z * Z * Z)%type.

Definition round (st : state) (kw : Z * Z) : state :=
  let '(a, b, c, d, e, f, g, h) := st in
  let t1 := add32 (add32 (add32 h (bsig1 e)) (add32 (ch e f g) (fst kw)))
                  (snd kw) in
  let t2 := add32 (bsig0 a) (maj a b c) in
  (add32 t1 t2, a, b, c, add32 d t1, e, f, g).

Definition compress (st : state) (block : list Z) : state :=
  let w := rev (schedule 48 (rev block)) in
  let '(a, b, c, d, e, f, g, h) := st in
  let '(a', b', c', d', e', f', g', h') :=
    fold_left round (combine round_constants w) st in
  (add32 a a', add32 b b', add32 c c', add32 d d',
   add32 e e', add32 f f', add32 g g', add32 h h').

Fixpoint blocks (count : nat) (words : list Z) : list (list Z) :=
  match count with
  | O => []
  | S count' => firstn 16 words :: blocks count' (skipn 16 words)
  end.

Definition state_of (l : list Z) : state :=
  match l with
  | [a; b; c; d; e; f; g; h] => (a, b, c, d, e, f, g, h)
  | _ => (0, 0, 0, 0, 0, 0, 0, 0)
  end.

Definition digest (msg : list Z) : list Z :=
  let words := be_words (pad msg) in
  let '(a, b, c, d, e, f, g, h) :=
    fold_left compress (blocks (List.length words / 16) words)
              (state_of initial_hash) in
  [a; b; c; d; e; f; g; h].

Definition hex_of_word (x : Z) : string :=
  string_of_list_ascii
    (map (fun i => Json.hex_digit (Z.shiftr x (4 * Z.of_nat i) mod 16))
         (rev (seq 0 8))).

(** [str.encode("utf-8")] on code points below 256. *)
Definition utf8 (s : string) : list Z :=
  flat_map (fun c => let n := Json.code c in
                     if n <? 128 then [n]
                     else [192 + n / 64; 128 + n mod 64])
           (list_ascii_of_string s).

Definition hexdigest (s : string) : string :=
  String.concat EmptyString (map hex_of_word (digest (utf8 s))).

End Sha256.

(* ================================================================== *)
(** * Requests and the cache key ([llm.py]) *)

(** A request object: [args], [kwargs] and the mutable [result] slot,
    [None] until a generator or the dispatcher fills it. *)
Record Instance : Type := {
  args : list value;
  kwargs : Dict.t value;
  result : value
}.

Definition set_result (r : Instance) (v : value) : Instance :=
  {| args := args r; kwargs := kwargs r; result := v |}.

(** [LMGenerator.__init__]: [_base_kwargs] is the default
    [{"decoding_method": "sample"}] overridden by the generation parameters
    found in the configuration. *)
Definition default_kwargs : Dict.t value :=
  [("decoding_method", VStr "sample")].

Definition init_base_kwargs (cfg_kwargs : Dict.t value) : Dict.t value :=
  Dict.update default_kwargs cfg_kwargs.

(** [hash_args(attr, request)]:
    [sha256(json.dumps([attr] + [request.args, request.kwargs]))]. *)
Definition hash_input (attr : string) (request : Instance) : string :=
  Json.dumps (VList [VStr attr; VList (args request); VDict (kwargs request)]).

Definition hash_args (attr : string) (request : Instance) : string :=
  Sha256.hexdigest (hash_input attr request).

(** The calls made to the inference engine: the prompts and the sampling
    parameters ([SamplingParams(stop=stop, **kwargs)] for generation). *)
Record engine_call : Type := {
  prompt_token_ids : list (list Z);
  stop : list string;
  sampling_kwargs : Dict.t value
}.

(** What a dispatch call can read and change: the cache store
    ([CachingLM.dbdict], shared with the generator's cache hook), the
    generator's [_base_kwargs] and the log of engine invocations. *)
Record world : Type := {
  dbdict : Dict.t value;
  base_kwargs : Dict.t value;
  engine_log : list engine_call
}.

Definition set_dbdict (w : world) (db : Dict.t value) : world :=
  {| dbdict := db; base_kwargs := base_kwargs w; engine_log := engine_log w |}.

Definition set_base_kwargs (w : world) (b : Dict.t value) : world :=
  {| dbdict := dbdict w; base_kwargs := b; engine_log := engine_log w |}.

Definition log_call (w : world) (c : engine_call) : world :=
  {| dbdict := dbdict w; base_kwargs := base_kwargs w;
     engine_log := engine_log w ++ [c] |}.

(** [CacheHook.add_partial]: nothing when the hook has no store. *)
Definition add_partial (hooked : bool) (attr : string) (req : Instance)
    (res : value) (w : world) : world :=
  if hooked then set_dbdict w (Dict.set (dbdict w) (hash_args attr req) res)
  else w.

(* ------------------------------------------------------------------ *)
(** ** [LMGenerator.update_instance_with_result] *)

Fixpoint starts_with (term text : string) : bool :=
  match term, text with
  | EmptyString, _ => true
  | String a term', String b text' => Ascii.eqb a b && starts_with term' text'
  | String _ _, EmptyString => false
  end.

(** [text.split(term)[0]] for a non-empty [term]: the text before the
    first place where [term] starts, the whole text when there is none. *)
Fixpoint split_head (term text : string) : string :=
  match text with
  | EmptyString => EmptyString
  | String c tl =>
      if starts_with term text then EmptyString
      else String c (split_head term tl)
  end.

(** [str.split] raises [ValueError] on an empty separator. *)
Definition py_split_head (term text : string) : outcome string :=
  match term with
  | EmptyString => Raise ValueError
  | String _ _ => Ok (split_head term text)
  end.

(** The loop [for term in until: if len(term) > 0: text = text.split(term)[0]]. *)
Fixpoint truncate (until : list string) (text : string) : outcome string :=
  match until with
  | [] => Ok text
  | term :: tl =>
      if (0 <? String.length term)%nat then
        text' <- py_split_head term text ;;
        truncate tl text'
      else truncate tl text
  end.

Definition update_instance_with_result (hooked : bool) (text : string)
    (instance : Instance) (until : option (list string)) (w : world)
    : outcome (Instance * world) :=
  text' <- match until with
           | Some terms => truncate terms text
           | None => Ok text
           end ;;
  let instance' := set_result instance (VStr text') in
  Ok (instance', add_partial hooked "generate_batch" instance' (VStr text') w).

(* ------------------------------------------------------------------ *)
(** ** [CachingLM.__getattr__], the dispatcher [fn] *)

(** The bound method [getattr(self.lm, attr)]: called on the queued request
    objects, it leaves a result on each of them (given here position by
    position) and may change the world.  The requests of a call are
    distinct objects, so a list of records stands for them. *)
Definition lm_method : Type :=
  list Instance -> world -> outcome (list value * world).

(** The request objects after an in-place update of their [result]. *)
Fixpoint write_results (reqs : list Instance) (vals : list value)
    : list Instance :=
  match reqs, vals with
  | r :: rs, v :: vs => set_result r v :: write_results rs vs
  | rs, [] => rs
  | [], _ => []
  end.

(** The exemption test of the first loop. *)
Definition exempt (attr : string) (req : Instance) : bool :=
  String.eqb attr "generate_batch" &&
  match Dict.get (kwargs req) "decoding_method" with
  | Some (VStr m) => String.eqb m "sample"
  | _ => false
  end.

(** First loop: [res] gets the stored value or [None], [remaining_reqs]
    the requests to run. *)
Fixpoint check_cached (attr : string) (db : Dict.t value)
    (requests : list Instance) (res : list value)
    (remaining_reqs : list Instance)
    : outcome (list value * list Instance) :=
  match requests with
  | [] => Ok (res, remaining_reqs)
  | req :: tl =>
      let hsh := hash_args attr req in
      if exempt attr req then
        check_cached attr db tl (res ++ [VNone]) (remaining_reqs ++ [req])
      else
        match Dict.get db hsh with
        | Some ob =>
            if is_none ob then Raise AssertionError
            else check_cached attr db tl (res ++ [ob]) remaining_reqs
        | None =>
            check_cached attr db tl (res ++ [VNone]) (remaining_reqs ++ [req])
        end
  end.

(** [while res[resptr] is not None: resptr += 1], run on the part of [res]
    from [resptr] on; running off the end is an [IndexError]. *)
Fixpoint next_unset (rest : list value) (resptr : nat) : outcome nat :=
  match rest with
  | [] => Raise IndexError
  | v :: tl => if is_none v then Ok resptr else next_unset tl (S resptr)
  end.

Fixpoint set_nth {A} (l : list A) (i : nat) (x : A) : list A :=
  match l, i with
  | [], _ => []
  | _ :: tl, O => x :: tl
  | y :: tl, S i' => y :: set_nth tl i' x
  end.

(** Second loop: the new results go back into [res] and into the store. *)
Fixpoint store_new (attr : string) (remaining_reqs : list Instance)
    (res : list value) (resptr : nat) (db : Dict.t value)
    : outcome (list value * Dict.t value) :=
  match remaining_reqs with
  | [] => Ok (res, db)
  | req :: tl =>
      resptr' <- next_unset (skipn resptr res) resptr ;;
      let res' := set_nth res resptr' (result req) in
      let hsh := hash_args attr req in
      store_new attr tl res' resptr' (Dict.set db hsh (result req))
  end.

Definition fn (lm_attr : lm_method) (attr : string)
    (requests : list Instance) (w : world)
    : outcome (list Instance * world) :=
  '(res, remaining_reqs) <- check_cached attr (dbdict w) requests [] [] ;;
  '(vals, w1) <- lm_attr remaining_reqs w ;;
  let remaining_reqs' := write_results remaining_reqs vals in
  '(res', db') <- store_new attr remaining_reqs' res 0 (dbdict w1) ;;
  Ok (write_results requests res', set_dbdict w1 db').

(* ================================================================== *)
(** * The vLLM generator ([vllm.py]) *)

(* ------------------------------------------------------------------ *)
(** ** Parallel workers: [distribute] and [undistribute] *)

(** [itertools.islice(it, index, None, n)]: skip [countdown] elements, keep
    one, then keep one every [n]. *)
Fixpoint islice {A} (l : list A) (countdown n : nat) : list A :=
  match l with
  | [] => []
  | x :: tl =>
      match countdown with
      | O => x :: islice tl (n - 1) n
      | S c => islice tl c n
      end
  end.

(** [more_itertools.distribute(n, iterable)], each child made a list as
    [_model_generate] does: child [index] is [islice(it, index, None, n)];
    [n < 1] is a [ValueError]. *)
Definition distribute {A} (n : Z) (items : list A) : outcome (list (list A)) :=
  if n <? 1 then Raise ValueError
  else Ok (map (fun index => islice items index (Z.to_nat n))
               (seq 0 (Z.to_nat n))).

(** Modelled from the spec: [undistribute] of [fms_sdg/generators/utils.py],
    which is not among the sources.  The spec (4.4) has it reassemble, from
    the per-partition result lists, the single sequence in the original
    order: round after round, one element from each list that still has
    one. *)
Definition pick {A} (l : list A) (i : nat) : list A :=
  match nth_error l i with Some x => [x] | None => [] end.

Definition undistribute {A} (lists : list (list A)) : list A :=
  flat_map (fun round => flat_map (fun l => pick l round) lists)
           (seq 0 (list_max (map (@List.length A) lists))).

(* ------------------------------------------------------------------ *)
(** ** Grouping and chunking helpers *)

(** Structural equality of values: two [kwargs] have the same [str(...)]
    exactly when they are equal entry by entry, in the same order. *)
Fixpoint value_eqb (a b : value) : bool :=
  match a, b with
  | VNone, VNone => true
  | VBool x, VBool y => Bool.eqb x y
  | VInt x, VInt y => Z.eqb x y
  | VFloat x, VFloat y => String.eqb x y
  | VStr x, VStr y => String.eqb x y
  | VList x, VList y =>
      (fix go (x y : list value) : bool :=
         match x, y with
         | [], [] => true
         | a' :: x', b' :: y' => value_eqb a' b' && go x' y'
         | _, _ => false
         end) x y
  | VDict x, VDict y =>
      (fix go (x y : list (string * value)) : bool :=
         match x, y with
         | [], [] => true
         | (k, a') :: x', (k', b') :: y' =>
             String.eqb k k' && value_eqb a' b' && go x' y'
         | _, _ => false
         end) x y
  | _, _ => false
  end.

(** A request on its way through [generate_batch]: its position in the
    call's list, its context, the context's tokens and the object. *)
Record item : Type := {
  position : nat;
  context : string;
  context_encoding : list Z;
  instance : Instance
}.

(** Modelled from the spec: [Grouper] of [fms_sdg/generators/utils.py], which
    is not among the sources.  The spec (4.1) has it map each key to the
    items sharing it, in their order; [generate_batch] keys by
    [str(kwargs)].  Groups stand in the order of their first item. *)
Fixpoint add_to_group (x : item) (groups : list (Dict.t value * list item))
    : list (Dict.t value * list item) :=
  match groups with
  | [] => [(kwargs (instance x), [x])]
  | (k, xs) :: tl =>
      if value_eqb (VDict k) (VDict (kwargs (instance x)))
      then (k, (xs ++ [x])%list) :: tl
      else (k, xs) :: add_to_group x tl
  end.

Definition get_grouped (request_list : list item)
    : list (Dict.t value * list item) :=
  fold_left (fun groups x => add_to_group x groups) request_list [].

(** Modelled from the spec: [chunks] of [fms_sdg/generators/utils.py], which
    is not among the sources.  The spec (4.3) has it cut the sequence into
    chunks of size [n], in order, or make one chunk of everything if
    [n <= 0]. *)
Fixpoint chunks_of {A} (fuel n : nat) (l : list A) : list (list A) :=
  match fuel, l with
  | O, _ => []
  | _, [] => []
  | S fuel', _ => firstn n l :: chunks_of fuel' n (skipn n l)
  end.

Definition chunks {A} (l : list A) (n : Z) : list (list A) :=
  if n <=? 0 then [l] else chunks_of (List.length l) (Z.to_nat n) l.

(* ------------------------------------------------------------------ *)
(** ** The generator *)

(** The generator object.  The tokenizer and the engine are outside the
    repository: [tokenize] is [tokenizer(text, add_special_tokens=False)],
    [eos] is [tokenizer.decode(eot_token_id)], and [llm_generate] gives the
    texts [output.outputs[0].text] of one [generate] call, which may depend
    on the calls made before (sampling). *)
Record vLLMGenerator : Type := {
  cache_hook_set : bool;
  max_gen_toks : Z;
  max_length : Z;
  batch_size : option Z;
  data_parallel_size : Z;
  tokenize : string -> list Z;
  eos : string;
  llm_generate : list engine_call -> engine_call -> list string
}.

Definition get_default (d : Dict.t value) (k : string) (default : value)
    : value :=
  match Dict.get d k with Some v => v | None => default end.

(** [vLLMGenerator.modify_gen_kwargs]. *)
Definition modify_gen_kwargs (kwargs : Dict.t value) : Dict.t value :=
  let do_sample := get_default kwargs "do_sample" VNone in
  let kwargs := Dict.remove kwargs "do_sample" in
  let kwargs :=
    if value_eqb do_sample (VBool false)
       || negb (Dict.contains kwargs "temperature")
    then Dict.set kwargs "temperature" (VFloat "0.0")
    else kwargs in
  let kwargs :=
    Dict.set kwargs "skip_special_tokens"
             (get_default kwargs "skip_special_tokens" (VBool false)) in
  Dict.set kwargs "spaces_between_special_tokens"
           (get_default kwargs "spaces_between_special_tokens" (VBool false)).

(** [_model_generate(requests, generate=True, stop=stop, **kwargs)]: one
    engine call, or one per worker on the interleaved partitions. *)
Definition _model_generate (g : vLLMGenerator) (requests : list (list Z))
    (stop_ : list string) (kwargs_ : Dict.t value) (w : world)
    : outcome (list string * world) :=
  let kwargs_ := modify_gen_kwargs kwargs_ in
  let call reqs := {| prompt_token_ids := reqs; stop := stop_;
                      sampling_kwargs := kwargs_ |} in
  if 1 <? data_parallel_size g then
    parts <- distribute (data_parallel_size g) requests ;;
    let '(results, w') :=
      fold_left (fun '(acc, w0) part =>
                   ((acc ++ [llm_generate g (engine_log w0) (call part)])%list,
                    log_call w0 (call part)))
                parts ([], w) in
    Ok (undistribute results, w')
  else
    Ok (llm_generate g (engine_log w) (call requests),
        log_call w (call requests)).

(** The stop sequences of [kwargs["stop_sequences"]]: a string or a list
    (of strings, [List[str]]); anything else is the [ValueError] of the
    source. *)
Fixpoint strings_of (l : list value) : outcome (list string) :=
  match l with
  | [] => Ok []
  | VStr s :: tl => rest <- strings_of tl ;; Ok (s :: rest)
  | _ :: _ => Raise TypeError
  end.

Definition stop_list (u : value) : outcome (list string) :=
  match u with
  | VStr s => Ok [s]
  | VList l => strings_of l
  | _ => Raise ValueError
  end.

(** [if old in kwargs: kwargs[new] = f(kwargs.pop(old))]. *)
Definition move_key (d : Dict.t value) (old new : string)
    (f : value -> value) : Dict.t value :=
  match Dict.get d old with
  | Some v => Dict.set (Dict.remove d old) new (f v)
  | None => d
  end.

(** The unpacking of the keyword arguments of a chunk, from the merge with
    [_base_kwargs] to the [do_sample] flag: the stop sequences found, and
    the keyword arguments for [_model_generate]. *)
Definition unpack_kwargs (max_gen_toks_ : Z) (base gen_kwargs : Dict.t value)
    : outcome (option (list string) * Dict.t value) :=
  let kwargs := Dict.update base gen_kwargs in
  '(until, kwargs) <-
     match Dict.get kwargs "stop_sequences" with
     | Some u =>
         l <- stop_list u ;;
         Ok (Some l, Dict.remove kwargs "stop_sequences")
     | None => Ok (None, kwargs)
     end ;;
  let kwargs := Dict.set kwargs "max_tokens" (VInt max_gen_toks_) in
  let kwargs := move_key kwargs "max_new_tokens" "max_tokens" (fun v => v) in
  let kwargs := move_key kwargs "min_new_tokens" "min_tokens" (fun v => v) in
  let kwargs :=
    move_key kwargs "decoding_method" "do_sample"
             (fun v => VBool (value_eqb v (VStr "sample"))) in
  Ok (until, kwargs).

(** [if not until: until = [eos] else: until.append(eos)]. *)
Definition add_eos (until : option (list string)) (eos_ : string)
    : list string :=
  match until with
  | None => [eos_]
  | Some [] => [eos_]
  | Some l => l ++ [eos_]
  end.

(** [until.append(eos)] changes the list in place.  A list taken from the
    request's own [kwargs] is a deep copy; one that came from
    [_base_kwargs] is the generator's own list, which grows. *)
Definition append_eos_in_place (base gen_kwargs : Dict.t value)
    (eos_ : string) : Dict.t value :=
  if Dict.contains gen_kwargs "stop_sequences" then base
  else
    match Dict.get base "stop_sequences" with
    | Some (VList (x :: l)) =>
        Dict.set base "stop_sequences"
                 (VList ((x :: l) ++ [VStr eos_])%list)
    | _ => base
    end.

Fixpoint foldM {A S} (f : A -> S -> outcome S) (l : list A) (s : S)
    : outcome S :=
  match l with
  | [] => Ok s
  | x :: tl => s' <- f x s ;; foldM f tl s'
  end.

(** A Python [int] in arithmetic and in a slice: [bool] is a subclass of
    [int], [True] counts as 1 and [False] as 0; a float is no slice
    index. *)
Definition int_of (v : value) : option Z :=
  match v with
  | VInt n => Some n
  | VBool true => Some 1
  | VBool false => Some 0
  | _ => None
  end.

(** The parameters of [_model_generate] that the call in [generate_batch]
    gives by name or by binding, [**kwargs] aside: a keyword argument of
    one of these names is a second value for the parameter, a
    [TypeError] of the call. *)
Definition own_parameters : list string :=
  ["self"; "requests"; "generate"; "stop"].

(** The body of the loop over chunks in [generate_batch]. *)
Definition run_chunk (g : vLLMGenerator) (chunk : list item)
    (st : list Instance * world) : outcome (list Instance * world) :=
  let '(reqs, w) := st in
  match chunk with
  | [] => Raise ValueError
  | first :: _ =>
      let gen_kwargs := kwargs (instance first) in
      '(until, kwargs_) <-
         unpack_kwargs (max_gen_toks g) (base_kwargs w) gen_kwargs ;;
      let until' := add_eos until (eos g) in
      let w := set_base_kwargs w
                 (append_eos_in_place (base_kwargs w) gen_kwargs (eos g)) in
      max_tokens <- match Dict.get kwargs_ "max_tokens" with
                    | Some v =>
                        match int_of v with
                        | Some n => Ok n
                        | None => Raise TypeError
                        end
                    | None => Raise TypeError
                    end ;;
      let max_ctx_len := max_length g - max_tokens in
      let encodings :=
        map (fun x => slice_from (- max_ctx_len) (context_encoding x))
            chunk in
      _ <- (if existsb (Dict.contains kwargs_) own_parameters
            then Raise TypeError else Ok tt) ;;
      '(cont, w) <- _model_generate g encodings until' kwargs_ w ;;
      foldM (fun '(s, x) '(reqs0, w0) =>
               '(inst, w1) <-
                  update_instance_with_result (cache_hook_set g) s
                    (instance x) (Some until') w0 ;;
               Ok (set_nth reqs0 (position x) inst, w1))
            (combine cont chunk) (reqs, w)
  end.

(** [req.args[0]] of every request, a string for the tokenizer. *)
Fixpoint contexts (requests : list Instance) : outcome (list string) :=
  match requests with
  | [] => Ok []
  | req :: tl =>
      match args req with
      | [] => Raise IndexError
      | VStr c :: _ => rest <- contexts tl ;; Ok (c :: rest)
      | _ :: _ => Raise TypeError
      end
  end.

Fixpoint items_of (g : vLLMGenerator) (pos : nat) (cs : list string)
    (requests : list Instance) : list item :=
  match cs, requests with
  | c :: cs', r :: rs =>
      {| position := pos; context := c; context_encoding := tokenize g c;
         instance := r |} :: items_of g (S pos) cs' rs
  | _, _ => []
  end.

(** [vLLMGenerator.generate_batch]: the request objects after the call. *)
Definition generate_batch (g : vLLMGenerator) (requests : list Instance)
    (w : world) : outcome (list Instance * world) :=
  cs <- contexts requests ;;
  let request_list := items_of g 0 cs requests in
  let n := match batch_size g with Some b => b | None => 0 end in
  foldM (fun '(_, c_ce_reqs) st =>
           foldM (run_chunk g) (chunks c_ce_reqs n) st)
        (get_grouped request_list) (requests, w).

(** [generate_batch] as the method the dispatcher calls. *)
Definition generate_batch_method (g : vLLMGenerator) : lm_method :=
  fun requests w =>
    '(reqs, w') <- generate_batch g requests w ;;
    Ok (map result reqs, w').

(* ------------------------------------------------------------------ *)
(** ** Log-likelihood scoring *)

(** The per-request lines of [_loglikelihood_tokens]: the scored input
    [(context_enc + continuation_enc)[-(self.max_length):]] and the
    continuation boundary [ctxlen]. *)
Definition loglikelihood_inp (max_length_ : Z)
    (context_enc continuation_enc : list Z) : list Z :=
  slice_from (- max_length_) (context_enc ++ continuation_enc).

Definition loglikelihood_ctxlen (max_length_ : Z)
    (context_enc continuation_enc : list Z) : Z :=
  Z.of_nat (List.length context_enc)
  - Z.max 0 (Z.of_nat (List.length context_enc)
             + Z.of_nat (List.length continuation_enc) - max_length_).

(** The tokens whose log-probabilities [_parse_logprobs] sums:
    [tokens[ctxlen:]]. *)
Definition scored_tokens (max_length_ : Z)
    (context_enc continuation_enc : list Z) : list Z :=
  slice_from (loglikelihood_ctxlen max_length_ context_enc continuation_enc)
             (loglikelihood_inp max_length_ context_enc continuation_enc).

Section Scoring.

(** Log-probabilities are floats; only their sum is taken, so the number
    type is left open. *)
Variable num : Type.
Variable zero : num.
Variable add : num -> num -> num.

(** One entry of [prompt_logprobs]: token id to log-probability. *)
Definition logprob_dict : Type := list (Z * num).

Fixpoint logprob_get (d : logprob_dict) (token : Z) : option num :=
  match d with
  | [] => None
  | (t, x) :: tl => if Z.eqb t token then Some x else logprob_get tl token
  end.

(** [sum(logprob_dict.get(token) for token, logprob_dict in zip(...))]: an
    entry that is [None] has no [get] ([AttributeError]); a token missing
    from its entry adds [None] ([TypeError]). *)
Fixpoint sum_logprobs (pairs : list (Z * option logprob_dict)) (acc : num)
    : outcome num :=
  match pairs with
  | [] => Ok acc
  | (_, None) :: _ => Raise AttributeError
  | (token, Some d) :: tl =>
      match logprob_get d token with
      | Some x => sum_logprobs tl (add acc x)
      | None => Raise TypeError
      end
  end.

(** [vLLMGenerator._parse_logprobs(tokens, outputs, ctxlen)], on
    [outputs.prompt_logprobs]. *)
Definition _parse_logprobs (tokens : list Z)
    (prompt_logprobs : list (option logprob_dict)) (ctxlen : Z)
    : outcome num :=
  sum_logprobs
    (combine (slice_from ctxlen tokens) (slice_from ctxlen prompt_logprobs))
    zero.

(** One request of [_loglikelihood_tokens]: truncate, score, parse. *)
Definition loglikelihood_one (max_length_ : Z)
    (engine_logprobs : list Z -> list (option logprob_dict))
    (context_enc continuation_enc : list Z) : outcome num :=
  let inp := loglikelihood_inp max_length_ context_enc continuation_enc in
  let ctxlen :=
    loglikelihood_ctxlen max_length_ context_enc continuation_enc in
  _parse_logprobs inp (engine_logprobs inp) ctxlen.

End Scoring.

(* ================================================================== *)
(** * The properties, as the specification words them *)

(** What the first loop of the dispatcher finds for a request: the stored
    value, when the request is looked up and its key is in the store. *)
Definition cached (attr : string) (db : Dict.t value) (req : Instance)
    : option value :=
  if exempt attr req then None else Dict.get db (hash_args attr req).

Definition queued (attr : string) (db : Dict.t value) (req : Instance)
    : bool :=
  match cached attr db req with Some _ => false | None => true end.

(** The merge of spec 4.7 step 7: in the original order, the stored value
    of a resolved request, and the next executed result otherwise. *)
Fixpoint merge_by_index (attr : string) (db : Dict.t value)
    (requests : list Instance) (executed : list value) : list value :=
  match requests with
  | [] => []
  | req :: tl =>
      match cached attr db req with
      | Some ob => ob :: merge_by_index attr db tl executed
      | None =>
          match executed with
          | v :: executed' => v :: merge_by_index attr db tl executed'
          | [] => VNone :: merge_by_index attr db tl []
          end
      end
  end.

(** [term] occurs in [text] as a substring. *)
Fixpoint occurs (term text : string) : bool :=
  starts_with term text ||
  match text with
  | EmptyString => false
  | String _ tl => occurs term tl
  end.

(** The result of spec 4.8: the text strictly before the first place where
    any of the stop sequences starts. *)
Fixpoint first_stop_prefix (until : list string) (text : string) : string :=
  match text with
  | EmptyString => EmptyString
  | String c tl =>
      if existsb (fun term => starts_with term text) until then EmptyString
      else String c (first_stop_prefix until tl)
  end.

Definition nonempty (s : string) : bool := (0 <? String.length s)%nat.

(** Whether [a] is a prefix of [b]. *)
Definition prefix_of (a b : string) : Prop := exists rest, b = a ++ rest.

(** The engine decodes greedily when the temperature is zero. *)
Definition greedy_decoding (params : Dict.t value) : bool :=
  match Dict.get params "temperature" with
  | Some (VFloat r) => String.eqb r "0.0"
  | Some (VInt z) => z =? 0
  | _ => false
  end.

(** The keyword arguments that reach [SamplingParams] for a chunk. *)
Definition engine_kwargs (max_gen_toks_ : Z) (base gen_kwargs : Dict.t value)
    : outcome (Dict.t value) :=
  '(_, kwargs_) <- unpack_kwargs max_gen_toks_ base gen_kwargs ;;
  Ok (modify_gen_kwargs kwargs_).

(** The tokens of the continuation that the left truncation keeps. *)
Definition remaining_continuation (max_length_ : Z)
    (context_enc continuation_enc : list Z) : list Z :=
  let dropped := Z.max 0 (Z.of_nat (List.length context_enc)
                          + Z.of_nat (List.length continuation_enc)
                          - max_length_) in
  skipn (Z.to_nat (dropped - Z.of_nat (List.length context_enc)))
        continuation_enc.

(** A stored value is well formed when it is not [None]. *)
Definition well_formed (attr : string) (db : Dict.t value) (req : Instance)
    : Prop :=
  cached attr db req <> Some VNone.

(** The entry of [res] that the first loop makes for a request. *)
Definition slot (attr : string) (db : Dict.t value) (req : Instance) : value :=
  match cached attr db req with Some ob => ob | None => VNone end.

(** [res] with its unset entries taken, in order, from [new]. *)
Fixpoint fill (res new : list value) : list value :=
  match res with
  | [] => []
  | v :: tl =>
      if is_none v then
        match new with
        | n :: new' => n :: fill tl new'
        | [] => v :: tl
        end
      else v :: fill tl new
  end.

Definition count_none (l : list value) : nat := List.length (filter is_none l).

(** The store after the writes of the second loop. *)
Definition store_all (attr : string) (reqs : list Instance)
    (db : Dict.t value) : Dict.t value :=
  fold_left (fun d r => Dict.set d (hash_args attr r) (result r)) reqs db.















(* ================================================================== *)
(** * A worked example *)

(** A generator whose engine answers every prompt with the same text. *)
Definition demo_generator (hooked : bool) : vLLMGenerator :=
  {| cache_hook_set := hooked;
     max_gen_toks := 256;
     max_length := 2048;
     batch_size := None;
     data_parallel_size := 1;
     tokenize := fun s => map Json.code (list_ascii_of_string s);
     eos := "</s>";
     llm_generate := fun _ call =>
       map (fun _ => "A reply.</s> and more") (prompt_token_ids call) |}.

Definition request (prompt : string) (kw : Dict.t value) : Instance :=
  {| args := [VStr prompt]; kwargs := kw; result := VNone |}.

Definition demo_world (db : Dict.t value) : world :=
  {| dbdict := db;
     base_kwargs := init_base_kwargs [];
     engine_log := [] |}.

Definition greedy : Dict.t value := [("decoding_method", VStr "greedy")].

Definition sampled : Dict.t value := [("decoding_method", VStr "sample")].

Definition demo_requests : list Instance :=
  [ request "Hello" greedy; request "Name a colour" greedy;
    request "Tell a story" sampled; request "Hello" greedy ].

Definition demo_store : Dict.t value :=
  [(hash_args "generate_batch" (request "Hello" greedy), VStr "Hi!")].

Definition demo_outcome : outcome (list value * world) :=
  Eval vm_compute in
    generate_batch_method (demo_generator true)
      (filter (queued "generate_batch" demo_store) demo_requests)
      (demo_world demo_store).

Definition demo_batch : list Instance :=
  [ request "Hello" greedy;
    request "Bye" [("decoding_method", VStr "greedy");
                   ("stop_sequences", VList [VStr "."])] ].


(* ================================================================== *)
(** * Encoding of log-likelihood requests ([llm.py], [vllm.py]) *)

(** [str.isspace] on a code point below 256. *)
Definition is_space (c : ascii) : bool :=
  let n := Json.code c in
  ((9 <=? n) && (n <=? 13)) || ((28 <=? n) && (n <=? 32))
  || (n =? 133) || (n =? 160).

(** [s.rstrip()]. *)
Fixpoint rstrip (s : string) : string :=
  match s with
  | EmptyString => EmptyString
  | String c tl =>
      match rstrip tl with
      | EmptyString =>
          if is_space c then EmptyString else String c EmptyString
      | String _ _ as r => String c r
      end
  end.

(** [s[:-n]] and [s[-n:]] for [n > 0]. *)
Definition drop_last (n : nat) (s : string) : string :=
  substring 0 (String.length s - n) s.

Definition take_last (n : nat) (s : string) : string :=
  substring (String.length s - n) n s.

(** What the scoring path reads of a generator: its flags, the token ids
    of the tokenizer and [tokenizer.encode(string, add_special_tokens,
    truncation)].  [seq2seq] is [AUTO_MODEL_CLASS ==
    transformers.AutoModelForSeq2SeqLM] (the vLLM generator has no such
    attribute). *)
Record LMScorer : Type := {
  add_bos_token : bool;
  custom_prefix_token_id : option Z;
  bos_token_id : option Z;
  eot_token_id : Z;
  seq2seq : bool;
  encode : string -> bool -> bool -> list Z
}.

(** [vLLMGenerator.prefix_token_id]. *)
Definition prefix_token_id (s : LMScorer) : Z :=
  match custom_prefix_token_id s with
  | Some p => p
  | None =>
      match bos_token_id s with
      | Some b => b
      | None => eot_token_id s
      end
  end.

(** [vLLMGenerator.tok_encode]. *)
Definition tok_encode (s : LMScorer) (string_ : string)
    (left_truncate_len : option Z) (add_special_tokens : option bool)
    (truncation : bool) : list Z :=
  let add_special_tokens :=
    match add_special_tokens with
    | Some true => true
    | _ => false || add_bos_token s
    end in
  let encoding := encode s string_ add_special_tokens truncation in
  match left_truncate_len with
  | Some n => if n =? 0 then encoding else slice_from (- n) encoding
  | None => encoding
  end.

(** The first lines of [_encode_pair]: the trailing whitespace of the
    context goes to the front of the continuation. *)
Definition move_trailing_spaces (context_ continuation : string)
    : string * string :=
  let n_spaces :=
    (String.length context_ - String.length (rstrip context_))%nat in
  if (0 <? n_spaces)%nat then
    (drop_last n_spaces context_, take_last n_spaces context_ ++ continuation)
  else (context_, continuation).

(** [LMGenerator._encode_pair]. *)
Definition _encode_pair (s : LMScorer) (context_ continuation : string)
    : list Z * list Z :=
  let '(context_, continuation) :=
    move_trailing_spaces context_ continuation in
  if seq2seq s then
    (tok_encode s context_ None None false,
     tok_encode s continuation None (Some false) false)
  else
    let whole_enc := tok_encode s (context_ ++ continuation) None None false in
    let context_enc := tok_encode s context_ None None false in
    let context_enc_len := Z.of_nat (List.length context_enc) in
    (context_enc, slice_from context_enc_len whole_enc).

(** The loop of [LMGenerator.loglikelihood] that builds [new_reqs]; the
    arguments of a request are its context and its continuation, two
    strings. *)
Definition encode_request (s : LMScorer) (req : Instance)
    : outcome (list Z * list Z * Instance) :=
  match args req with
  | [VStr context_; VStr continuation] =>
      match context_ with
      | EmptyString =>
          Ok ([prefix_token_id s],
              tok_encode s continuation None None false, req)
      | String _ _ =>
          let '(context_enc, continuation_enc) :=
            _encode_pair s context_ continuation in
          Ok (context_enc, continuation_enc, req)
      end
  | [_; _] => Raise TypeError
  | _ => Raise ValueError
  end.

Fixpoint new_reqs (s : LMScorer) (requests : list Instance)
    : outcome (list (list Z * list Z * Instance)) :=
  match requests with
  | [] => Ok []
  | req :: tl =>
      x <- encode_request s req ;;
      rest <- new_reqs s tl ;;
      Ok (x :: rest)
  end.

(* ================================================================== *)
(** * Whole runs: what is assumed of the engine and what is kept *)

(** The engine answers every prompt of a call: [generate] returns one
    output per prompt. *)
Definition engine_answers (g : vLLMGenerator) : Prop :=
  forall log call,
    List.length (llm_generate g log call)
    = List.length (prompt_token_ids call).

(** The engine answers each prompt by itself: the text for a prompt is
    [f] of the prompt, whatever else is in the call and whatever was
    called before. *)
Definition engine_pointwise (g : vLLMGenerator) (f : list Z -> string) : Prop :=
  forall log call, llm_generate g log call = map f (prompt_token_ids call).

(** The engine call that [_model_generate] makes for the prompts [reqs]. *)
Definition call_of (stops : list string) (kw : Dict.t value)
    (reqs : list (list Z)) : engine_call :=
  {| prompt_token_ids := reqs; stop := stops;
     sampling_kwargs := modify_gen_kwargs kw |}.

(** The result of a request is a text. *)
Definition has_text (r : Instance) : Prop := exists t, result r = VStr t.

(** The items of all groups. *)
Definition all_items (groups : list (Dict.t value * list item)) : list item :=
  List.concat (map snd groups).

(** An item stands for the request at its position. *)
Definition item_ok (requests : list Instance) (x : item) : Prop :=
  nth_error requests (position x) = Some (instance x).

(** What [generate_batch] leaves as it was: the arguments of the requests,
    the store away from the keys of the requests (all of it without a
    cache hook) and the generator's defaults but for the stop list. *)
Definition frame_inv (g : vLLMGenerator) (requests : list Instance)
    (w : world) (st : list Instance * world) : Prop :=
  map args (fst st) = map args requests /\
  map kwargs (fst st) = map kwargs requests /\
  (forall k, (forall r, In r requests -> hash_args "generate_batch" r <> k) ->
             Dict.get (dbdict (snd st)) k = Dict.get (dbdict w) k) /\
  (cache_hook_set g = false -> dbdict (snd st) = dbdict w) /\
  (forall k, String.eqb "stop_sequences" k = false ->
             Dict.get (base_kwargs (snd st)) k = Dict.get (base_kwargs w) k).

(** The request object at [p] holds a text. *)
Definition has_text_at (reqs : list Instance) (p : nat) : Prop :=
  exists r t, nth_error reqs p = Some r /\ result r = VStr t.

(** The store holds a text under [k]. *)
Definition text_stored (db : Dict.t value) (k : string) : Prop :=
  exists t, Dict.get db k = Some (VStr t).

(** Texts written are not taken back, and stored values that are not
    [None] stay so. *)
Definition grows (st st' : list Instance * world) : Prop :=
  List.length (fst st') = List.length (fst st) /\
  (forall p, has_text_at (fst st) p -> has_text_at (fst st') p) /\
  (forall k, text_stored (dbdict (snd st)) k ->
             text_stored (dbdict (snd st')) k) /\
  (forall k v, Dict.get (dbdict (snd st)) k = Some v -> v <> VNone ->
     exists v', Dict.get (dbdict (snd st')) k = Some v' /\ v' <> VNone).

(** The item has been served: its request holds a text and, with a cache
    hook, so does the store under its key. *)
Definition served (g : vLLMGenerator) (x : item)
    (st : list Instance * world) : Prop :=
  ((position x < List.length (fst st))%nat ->
   has_text_at (fst st) (position x)) /\
  (cache_hook_set g = true ->
   text_stored (dbdict (snd st)) (hash_args "generate_batch" (instance x))).

(** An engine call of a chunk: its [max_tokens], an integer [n], and its
    prompts, each the encoding of an item cut to the room that
    [max_tokens] leaves. *)
Definition call_of_items (g : vLLMGenerator) (ok : item -> Prop)
    (c : engine_call) : Prop :=
  exists v n,
    Dict.get (sampling_kwargs c) "max_tokens" = Some v /\
    int_of v = Some n /\
    Forall (fun p => exists x, ok x /\
                       p = slice_from (- (max_length g - n))
                                      (context_encoding x))
           (prompt_token_ids c).

(** The engine log since [w] holds calls of the items only. *)
Definition calls_inv (g : vLLMGenerator) (ok : item -> Prop) (w : world)
    (st : list Instance * world) : Prop :=
  exists calls, engine_log (snd st) = (engine_log w ++ calls)%list /\
                Forall (call_of_items g ok) calls.

(** A string of whitespace only. *)
Fixpoint all_space (s : string) : bool :=
  match s with
  | EmptyString => true
  | String c tl => is_space c && all_space tl
  end.

(** Keyword arguments that a chunk accepts: stop sequences that are a
    string or a list of strings, an integer [max_new_tokens], and no key
    that is a parameter of [_model_generate] itself. *)
Definition kwargs_ok (d : Dict.t value) : Prop :=
  (forall u, Dict.get d "stop_sequences" = Some u ->
             exists l, stop_list u = Ok l) /\
  (forall v, Dict.get d "max_new_tokens" = Some v ->
             exists n, int_of v = Some n) /\
  (forall k, In k own_parameters -> Dict.get d k = None).

(** A request that [generate_batch] can serve. *)
Definition servable (r : Instance) : Prop :=
  (exists c rest, args r = VStr c :: rest) /\
  Dict.wf (kwargs r) /\ kwargs_ok (kwargs r).

(* ================================================================== *)
(** * More worked examples *)

(** A generator with data-parallel workers and a small window, whose
    engine answers every prompt with the text of its tokens. *)
Definition detokenize (tokens : list Z) : string :=
  string_of_list_ascii (map (fun t => ascii_of_nat (Z.to_nat t)) tokens).

Definition echo_generator (workers : Z) : vLLMGenerator :=
  {| cache_hook_set := false;
     max_gen_toks := 4;
     max_length := 8;
     batch_size := Some 2;
     data_parallel_size := workers;
     tokenize := fun s => map Json.code (list_ascii_of_string s);
     eos := "</s>";
     llm_generate := fun _ call => map detokenize (prompt_token_ids call) |}.

Definition echo_batch : list Instance :=
  [ request "abcdefgh" greedy; request "xy" greedy; request "hello" greedy ].

Definition echo_outcome : outcome (list Instance * world) :=
  Eval vm_compute in generate_batch (echo_generator 2) echo_batch (demo_world []).

Definition demo_hooked_outcome : outcome (list Instance * world) :=
  Eval vm_compute in
    generate_batch (demo_generator true) demo_batch (demo_world []).

Definition demo_dispatch_outcome : outcome (list Instance * world) :=
  Eval vm_compute in
    fn (generate_batch_method (demo_generator true)) "generate_batch"
       demo_requests (demo_world demo_store).

(** A generator whose engine gives no output at all: [generate_batch]
    then returns with nothing written on the requests. *)
Definition silent_generator : vLLMGenerator :=
  {| cache_hook_set := true;
     max_gen_toks := 256;
     max_length := 2048;
     batch_size := None;
     data_parallel_size := 1;
     tokenize := fun s => map Json.code (list_ascii_of_string s);
     eos := "</s>";
     llm_generate := fun _ _ => [] |}.

(** A scorer over the character codes of the text. *)
Definition demo_scorer : LMScorer :=
  {| add_bos_token := false;
     custom_prefix_token_id := None;
     bos_token_id := Some 1;
     eot_token_id := 2;
     seq2seq := false;
     encode := fun s _ _ => map Json.code (list_ascii_of_string s) |}.

(** The world after the silent generator has served one greedy request:
    one engine call in the log, nothing else changed. *)
Definition silent_world : world :=
  Eval vm_compute in
    match generate_batch_method silent_generator
            [request "Hello" greedy] (demo_world []) with
    | Ok (_, w) => w
    | Raise _ => demo_world []
    end.

(* ================================================================== *)
(** * Checks of the embedding against known values *)

Example sha256_abc :
  Sha256.hexdigest "abc"
  = "ba7816bf8f01cfea414140de5dae2223b00361a396177a9cb410ff61f20015ad".
Proof. vm_compute. reflexivity. Qed.

Example sha256_two_blocks :
  Sha256.hexdigest "abcdbcdecdefdefgefghfghighijhijkijkljklmklmnlmnomnopnopq"
  = "248d6a61d20638b8e5c026930c3e6039a33ce45964ff2167f6ecedd419db06c1".
Proof. vm_compute. reflexivity. Qed.

Example dumps_nested :
  Json.dumps (VList [VStr "a"; VInt (-3); VNone; VBool true; VFloat "0.5";
                     VDict [("k", VList [VInt 1; VInt 20])]])
  = String.concat Json.quote
      ["["; "a"; ", -3, null, true, 0.5, {"; "k"; ": [1, 20]}]"].
Proof. vm_compute. reflexivity. Qed.

(* ================================================================== *)
(** * Distribute and undistribute *)

Section Distribute.

Context {A : Type}.

Lemma nth_error_islice (l : list A) :
  forall c n r, (0 < n)%nat ->
    nth_error (islice l c n) r = nth_error l (c + r * n).
Proof.
  induction l as [|x tl IH]; intros c n r Hn.
  - simpl. destruct r; destruct (c + _)%nat; reflexivity.
  - destruct c as [|c]; simpl.
    + destruct r as [|r]; simpl; [reflexivity|].
      rewrite IH by assumption.
      replace (n + r * n)%nat with (S (n - 1 + r * n)) by lia.
      reflexivity.
    + apply IH; assumption.
Qed.

Lemma firstn_succ (l : list A) :
  forall k, firstn (S k) l = (firstn k l ++ pick l k)%list.
Proof.
  induction l as [|x tl IH]; intros k.
  - destruct k; reflexivity.
  - destruct k as [|k]; [reflexivity|].
    change (firstn (S (S k)) (x :: tl)) with (x :: firstn (S k) tl).
    rewrite IH. reflexivity.
Qed.

Lemma picks_firstn (l : list A) :
  forall k, flat_map (pick l) (seq 0 k) = firstn k l.
Proof.
  induction k as [|k IH]; [reflexivity|].
  rewrite seq_S, flat_map_app, IH, firstn_succ. simpl.
  rewrite app_nil_r. reflexivity.
Qed.

Lemma nth_error_skipn_plus (l : list A) :
  forall off i, nth_error (skipn off l) i = nth_error l (i + off).
Proof.
  induction l as [|x tl IH]; intros off i.
  - rewrite skipn_nil. destruct i; destruct (_ + off)%nat; reflexivity.
  - destruct off as [|off].
    + rewrite Nat.add_0_r. reflexivity.
    + rewrite Nat.add_succ_r. simpl. apply IH.
Qed.

Lemma firstn_plus (l : list A) :
  forall a b, firstn (a + b) l = (firstn a l ++ firstn b (skipn a l))%list.
Proof.
  induction l as [|x tl IH]; intros a b.
  - rewrite skipn_nil, !firstn_nil. reflexivity.
  - destruct a as [|a]; [reflexivity|]. simpl. rewrite IH. reflexivity.
Qed.

(** One round over the children of [distribute] is the next window of the
    input. *)
Lemma round_of_children (items : list A) (n round : nat) :
  (0 < n)%nat ->
  flat_map (fun l => pick l round)
           (map (fun index => islice items index n) (seq 0 n))
  = firstn n (skipn (round * n) items).
Proof.
  intros Hn. rewrite flat_map_concat_map, map_map, <- flat_map_concat_map.
  rewrite <- picks_firstn. apply flat_map_ext. intros i.
  unfold pick. rewrite nth_error_islice, nth_error_skipn_plus by assumption.
  reflexivity.
Qed.

Lemma rounds_firstn (items : list A) (n : nat) :
  forall rounds,
    flat_map (fun round => firstn n (skipn (round * n) items)) (seq 0 rounds)
    = firstn (rounds * n) items.
Proof.
  induction rounds as [|r IH]; [reflexivity|].
  rewrite seq_S, flat_map_app, IH. simpl flat_map. rewrite app_nil_r.
  replace (S r * n)%nat with (r * n + n)%nat by lia.
  rewrite firstn_plus. reflexivity.
Qed.

(** Rounds past the longest list add nothing. *)
Lemma round_beyond (lists : list (list A)) (round : nat) :
  Forall (fun l => (List.length l <= round)%nat) lists ->
  flat_map (fun l => pick l round) lists = [].
Proof.
  induction 1 as [|l lists Hl _ IH]; [reflexivity|].
  simpl. rewrite IH, app_nil_r. unfold pick.
  destruct (nth_error l round) eqn:E; [|reflexivity].
  assert (round < List.length l)%nat by (apply nth_error_Some; congruence).
  lia.
Qed.

Lemma rounds_beyond (lists : list (list A)) :
  forall count start,
    (list_max (map (@List.length A) lists) <= start)%nat ->
    flat_map (fun round => flat_map (fun l => pick l round) lists)
             (seq start count) = [].
Proof.
  induction count as [|count IH]; intros start Hmax; [reflexivity|].
  simpl. rewrite IH by lia. rewrite app_nil_r.
  apply round_beyond. apply list_max_le in Hmax.
  rewrite Forall_map in Hmax. exact Hmax.
Qed.

Lemma undistribute_rounds (lists : list (list A)) (rounds : nat) :
  (list_max (map (@List.length A) lists) <= rounds)%nat ->
  undistribute lists
  = flat_map (fun round => flat_map (fun l => pick l round) lists)
             (seq 0 rounds).
Proof.
  intros Hle. unfold undistribute.
  set (m := list_max (map (@List.length A) lists)) in *.
  replace rounds with (m + (rounds - m))%nat by lia.
  rewrite seq_app, flat_map_app. simpl.
  rewrite (rounds_beyond lists (rounds - m) m) by (fold m; lia).
  rewrite app_nil_r. reflexivity.
Qed.

(** Results computed element by element come back in the order of the
    inputs: [undistribute] commutes with a map over the partitions. *)
Lemma pick_map {B : Type} (f : A -> B) (l : list A) (i : nat) :
  pick (map f l) i = map f (pick l i).
Proof.
  unfold pick. rewrite nth_error_map.
  destruct (nth_error l i); reflexivity.
Qed.

Lemma undistribute_map {B : Type} (f : A -> B) (lists : list (list A)) :
  undistribute (map (map f) lists) = map f (undistribute lists).
Proof.
  unfold undistribute.
  replace (map (@List.length B) (map (map f) lists))
    with (map (@List.length A) lists)
    by (rewrite map_map; apply map_ext; intros l; rewrite length_map;
        reflexivity).
  induction (seq 0 (list_max (map (@List.length A) lists))) as [|r rs IH];
    [reflexivity|].
  cbn [flat_map]. rewrite map_app, <- IH. f_equal.
  clear. induction lists as [|l lists IHl]; [reflexivity|].
  cbn [map flat_map]. rewrite map_app, pick_map, IHl. reflexivity.
Qed.

End Distribute.

(** C8. For every [n >= 1] and every list, whatever its length,
    [distribute] succeeds with [n] interleaved partitions and
    [undistribute] gives the original list back from them. *)
Theorem undistribute_distribute {A : Type} (n : Z) (items : list A) :
  1 <= n ->
  exists parts,
    distribute n items = Ok parts /\
    List.length parts = Z.to_nat n /\
    undistribute parts = items.
Proof.
  intros Hn. unfold distribute.
  destruct (n <? 1) eqn:E; [apply Z.ltb_lt in E; lia|].
  eexists. split; [reflexivity|]. split.
  - rewrite length_map, length_seq. reflexivity.
  - set (k := Z.to_nat n). assert (Hk : (0 < k)%nat) by (unfold k; lia).
    set (parts := map (fun index => islice items index k) (seq 0 k)).
    set (rounds := Nat.max (list_max (map (@List.length A) parts))
                           (List.length items)).
    rewrite (undistribute_rounds parts rounds) by (unfold rounds; lia).
    rewrite (flat_map_ext _ (fun round => firstn k (skipn (round * k) items)))
      by (intros r; apply round_of_children; assumption).
    rewrite rounds_firstn. apply firstn_all2.
    unfold rounds. nia.
Qed.

Lemma undistribute_distribute_witness :
  1 <= 3 /\
  exists parts,
    distribute 3 [10; 20; 30; 40; 50; 60; 70] = Ok parts /\
    List.length parts = Z.to_nat 3 /\
    undistribute parts = [10; 20; 30; 40; 50; 60; 70].
Proof.
  split; [lia|]. apply (undistribute_distribute 3); lia.
Defined.

(* ================================================================== *)
(** * Dictionaries *)

Lemma get_set {V} (d : Dict.t V) k v k' :
  Dict.get (Dict.set d k v) k' = if String.eqb k k' then Some v else Dict.get d k'.
Proof.
  induction d as [|[k0 v0] tl IH]; simpl.
  - reflexivity.
  - destruct (String.eqb k0 k) eqn:E; simpl.
    + apply String.eqb_eq in E. subst k0.
      destruct (String.eqb k k'); reflexivity.
    + destruct (String.eqb k0 k') eqn:E2.
      * apply String.eqb_eq in E2. subst k0. rewrite String.eqb_sym, E. reflexivity.
      * exact IH.
Qed.

Lemma get_remove {V} (d : Dict.t V) k k' :
  Dict.get (Dict.remove d k) k' = if String.eqb k k' then None else Dict.get d k'.
Proof.
  induction d as [|[k0 v0] tl IH]; simpl.
  - destruct (String.eqb k k'); reflexivity.
  - destruct (String.eqb k0 k) eqn:E; simpl.
    + apply String.eqb_eq in E. subst k0. rewrite IH.
      destruct (String.eqb k k'); reflexivity.
    + destruct (String.eqb k0 k') eqn:E2.
      * apply String.eqb_eq in E2. subst k0. rewrite String.eqb_sym, E. reflexivity.
      * exact IH.
Qed.

Lemma get_notin {V} (d : Dict.t V) k :
  ~ In k (map fst d) -> Dict.get d k = None.
Proof.
  induction d as [|[k0 v0] tl IH]; simpl; intros Hn; [reflexivity|].
  destruct (String.eqb k0 k) eqn:E.
  - apply String.eqb_eq in E. tauto.
  - apply IH. tauto.
Qed.

Lemma get_update {V} (e : Dict.t V) :
  Dict.wf e -> forall d k,
  Dict.get (Dict.update d e) k
  = match Dict.get e k with Some v => Some v | None => Dict.get d k end.
Proof.
  unfold Dict.update.
  induction e as [|[k0 v0] tl IH]; intros Hwf d k; simpl; [reflexivity|].
  inversion Hwf as [|? ? Hnotin Hwf']; subst.
  rewrite IH by assumption. rewrite get_set.
  destruct (String.eqb k0 k) eqn:E.
  - apply String.eqb_eq in E. subst k0. rewrite get_notin by assumption. reflexivity.
  - reflexivity.
Qed.

Lemma contains_get {V} (d : Dict.t V) k :
  Dict.contains d k = match Dict.get d k with Some _ => true | None => false end.
Proof. reflexivity. Qed.

Lemma get_move_key d old new f k :
  Dict.get (move_key d old new f) k
  = match Dict.get d old with
    | Some v => if String.eqb new k then Some (f v)
                else if String.eqb old k then None else Dict.get d k
    | None => Dict.get d k
    end.
Proof.
  unfold move_key. destruct (Dict.get d old); [|reflexivity].
  rewrite get_set, get_remove. reflexivity.
Qed.

Ltac dict_simpl :=
  repeat (rewrite ?get_move_key, ?get_set, ?get_remove;
          cbn [String.eqb Ascii.eqb Bool.eqb]).

Lemma get_modify_other kw k :
  String.eqb "do_sample" k = false ->
  String.eqb "temperature" k = false ->
  String.eqb "skip_special_tokens" k = false ->
  String.eqb "spaces_between_special_tokens" k = false ->
  Dict.get (modify_gen_kwargs kw) k = Dict.get kw k.
Proof.
  intros H1 H2 H3 H4. unfold modify_gen_kwargs.
  rewrite get_set, H4, get_set, H3.
  destruct (_ || _); rewrite ?get_set, ?H2, get_remove, H1; reflexivity.
Qed.

Lemma get_modify_temperature kw :
  Dict.get (modify_gen_kwargs kw) "temperature"
  = if value_eqb (get_default kw "do_sample" VNone) (VBool false)
       || negb (Dict.contains kw "temperature")
    then Some (VFloat "0.0") else Dict.get kw "temperature".
Proof.
  unfold modify_gen_kwargs, Dict.contains.
  rewrite !get_set. cbn [String.eqb Ascii.eqb Bool.eqb].
  rewrite get_remove. cbn [String.eqb Ascii.eqb Bool.eqb].
  destruct (_ || _); rewrite ?get_set, ?get_remove; reflexivity.
Qed.

Lemma value_eqb_str m s : value_eqb m (VStr s) = true <-> m = VStr s.
Proof.
  split.
  - destruct m; simpl; try discriminate. intros H. apply String.eqb_eq in H.
    congruence.
  - intros ->. simpl. apply String.eqb_refl.
Qed.

(* ================================================================== *)
(** * Keyword arguments of a generation chunk *)

(** C7 (amended). With [merged = {**_base_kwargs, **kwargs}]: a key of the
    request's kwargs overrides the default; ["max_tokens"] is the
    ["max_new_tokens"] option when there is one and [max_gen_toks]
    otherwise; ["min_new_tokens"] becomes ["min_tokens"]; a
    ["decoding_method"] other than ["sample"] gives temperature 0.0
    (greedy); ["sample"] keeps the temperature that was given, and gets
    temperature 0.0 as well when none was.  The unpacking succeeds whenever
    the stop sequences are a string or a list of strings. *)
Theorem kwargs_precedence (max_gen : Z) (base gk : Dict.t value) :
  Dict.wf gk ->
  let merged := Dict.update base gk in
  (forall k v, Dict.get gk k = Some v -> Dict.get merged k = Some v) /\
  ((forall u, Dict.get merged "stop_sequences" = Some u ->
              exists l, stop_list u = Ok l) ->
   exists stops kw, unpack_kwargs max_gen base gk = Ok (stops, kw)) /\
  (forall until kw,
      unpack_kwargs max_gen base gk = Ok (until, kw) ->
      let params := modify_gen_kwargs kw in
      Dict.get params "max_tokens"
        = Some (get_default merged "max_new_tokens" (VInt max_gen)) /\
      (forall v, Dict.get merged "min_new_tokens" = Some v ->
                 Dict.get params "min_tokens" = Some v) /\
      (forall m, Dict.get merged "decoding_method" = Some m ->
                 m <> VStr "sample" ->
                 Dict.get params "temperature" = Some (VFloat "0.0") /\
                 greedy_decoding params = true) /\
      (Dict.get merged "decoding_method" = Some (VStr "sample") ->
       Dict.get params "temperature"
         = Some (get_default merged "temperature" (VFloat "0.0")))).
Proof.
  intros Hwf merged. split; [|split].
  - intros k v Hk. unfold merged. rewrite get_update by assumption.
    rewrite Hk. reflexivity.
  - intros Hstop. unfold unpack_kwargs. fold merged.
    destruct (Dict.get merged "stop_sequences") as [u|].
    + destruct (Hstop u eq_refl) as [l ->]. simpl. eauto.
    + simpl. eauto.
  - intros stops kw Hun params. unfold unpack_kwargs in Hun.
    fold merged in Hun.
    match type of Hun with bind ?m _ = _ =>
      destruct m as [[u1 k1]|e] eqn:Em1; [|discriminate] end.
    cbv beta iota delta [bind] in Hun.
    assert (Hk1 : forall k, String.eqb "stop_sequences" k = false ->
                            Dict.get k1 k = Dict.get merged k).
    { intros k Hk.
      destruct (Dict.get merged "stop_sequences") as [u|].
      - destruct (stop_list u); simpl in Em1; [|discriminate].
        injection Em1 as _ <-. rewrite get_remove, Hk. reflexivity.
      - injection Em1 as _ <-. reflexivity. }
    injection Hun as _ <-.
    assert (Htemp : Dict.get params "temperature"
      = match Dict.get merged "decoding_method" with
        | Some m => if value_eqb m (VStr "sample")
                    then Some (get_default merged "temperature"
                                           (VFloat "0.0"))
                    else Some (VFloat "0.0")
        | None => Dict.get params "temperature"
        end).
    { destruct (Dict.get merged "decoding_method") as [m|] eqn:Edm;
        [|reflexivity].
      unfold params. rewrite get_modify_temperature.
      unfold get_default, Dict.contains. dict_simpl.
      rewrite !Hk1 by reflexivity. rewrite Edm.
      destruct (Dict.get merged "min_new_tokens"),
        (Dict.get merged "max_new_tokens");
        cbn [String.eqb Ascii.eqb Bool.eqb]; rewrite ?Hk1 by reflexivity;
        destruct (value_eqb m (VStr "sample")); cbn;
        destruct (Dict.get merged "temperature"); reflexivity. }
    repeat split.
    + unfold params. rewrite get_modify_other by reflexivity. dict_simpl.
      rewrite !Hk1 by reflexivity. unfold get_default.
      destruct (Dict.get merged "decoding_method"),
        (Dict.get merged "min_new_tokens"),
        (Dict.get merged "max_new_tokens");
        cbn [String.eqb Ascii.eqb Bool.eqb];
        rewrite ?get_set; reflexivity.
    + intros v Hv. unfold params. rewrite get_modify_other by reflexivity.
      dict_simpl.
      rewrite !Hk1 by reflexivity. rewrite Hv.
      destruct (Dict.get merged "decoding_method"),
        (Dict.get merged "max_new_tokens");
        cbn [String.eqb Ascii.eqb Bool.eqb];
        rewrite ?Hk1 by reflexivity; rewrite ?Hv; reflexivity.
    + rewrite Htemp, H.
      destruct (value_eqb m (VStr "sample")) eqn:E; [|reflexivity].
      apply value_eqb_str in E. contradiction.
    + unfold greedy_decoding. rewrite Htemp, H.
      destruct (value_eqb m (VStr "sample")) eqn:E; [|reflexivity].
      apply value_eqb_str in E. contradiction.
    + intros Hs. rewrite Htemp, Hs. reflexivity.
Qed.

Lemma kwargs_precedence_witness :
  let base := [("decoding_method", VStr "sample");
               ("temperature", VFloat "0.7")] in
  let gk := [("decoding_method", VStr "greedy"); ("max_new_tokens", VInt 20);
             ("min_new_tokens", VInt 2)] in
  Dict.wf gk /\
  exists params,
    engine_kwargs 256 base gk = Ok params /\
    Dict.get params "max_tokens" = Some (VInt 20) /\
    Dict.get params "min_tokens" = Some (VInt 2) /\
    Dict.get params "temperature" = Some (VFloat "0.0").
Proof.
  intros base gk.
  assert (Hwf : Dict.wf gk).
  { unfold Dict.wf, gk. simpl.
    repeat (constructor; [simpl; intuition discriminate|]). constructor. }
  split; [exact Hwf|].
  destruct (kwargs_precedence 256 base gk Hwf) as (_ & Htotal & Hrun).
  destruct Htotal as (stops & kw & Hun); [intros u Hu; discriminate|].
  destruct (Hrun stops kw Hun) as (Hmax & Hmin & Hgreedy & _).
  exists (modify_gen_kwargs kw). unfold engine_kwargs. rewrite Hun.
  split; [reflexivity|]. split; [exact Hmax|]. split.
  - apply Hmin. reflexivity.
  - apply (Hgreedy (VStr "greedy")); [reflexivity|discriminate].
Defined.

(** C7, as stated, fails: with the [_base_kwargs] of a generator
    configured with no generation parameter ([decoding_method = "sample"])
    and no temperature in the request, the engine parameters are greedy. *)
Lemma sample_without_temperature_is_greedy :
  let base := init_base_kwargs [] in
  exists params,
    Dict.get (Dict.update base []) "decoding_method" = Some (VStr "sample") /\
    engine_kwargs 256 base [] = Ok params /\
    params = [("max_tokens", VInt 256); ("temperature", VFloat "0.0");
              ("skip_special_tokens", VBool false);
              ("spaces_between_special_tokens", VBool false)] /\
    greedy_decoding params = true.
Proof.
  eexists. split; [reflexivity|]. split; [reflexivity|].
  split; reflexivity.
Qed.

(* ================================================================== *)
(** * Stop-sequence truncation *)

Lemma append_assoc (a b c : string) : (a ++ b) ++ c = a ++ (b ++ c).
Proof. induction a as [|x a IH]; simpl; [reflexivity|]. rewrite IH. reflexivity. Qed.

Lemma append_empty_r (a : string) : a ++ EmptyString = a.
Proof. induction a as [|x a IH]; simpl; [reflexivity|]. rewrite IH. reflexivity. Qed.

Lemma append_cancel_l : forall a x y : string, a ++ x = a ++ y -> x = y.
Proof.
  induction a as [|c a IH]; intros x y H; [exact H|].
  cbn [append] in H. injection H as H. apply IH. exact H.
Qed.

Lemma length_append (a b : string) :
  String.length (a ++ b) = (String.length a + String.length b)%nat.
Proof. induction a as [|c a IH]; simpl; [reflexivity|]. rewrite IH. reflexivity. Qed.

Lemma prefix_of_refl a : prefix_of a a.
Proof. exists EmptyString. symmetry. apply append_empty_r. Qed.

Lemma prefix_of_trans a b c : prefix_of a b -> prefix_of b c -> prefix_of a c.
Proof.
  intros [r1 ->] [r2 ->]. exists (r1 ++ r2). apply append_assoc.
Qed.

Lemma prefix_of_empty a : prefix_of EmptyString a.
Proof. exists a. reflexivity. Qed.

Lemma prefix_of_cons c a b : prefix_of a b -> prefix_of (String c a) (String c b).
Proof. intros [r ->]. exists r. reflexivity. Qed.

(** A term that starts a text starts every extension of it. *)
Lemma starts_with_append term : forall a b,
  starts_with term a = true -> starts_with term (a ++ b) = true.
Proof.
  induction term as [|x term IH]; intros a b H.
  - destruct a; reflexivity.
  - destruct a as [|y a]; [discriminate|]. simpl in *.
    apply andb_true_iff in H as [-> H]. simpl. apply IH. exact H.
Qed.

Lemma occurs_append term : forall a b,
  occurs term a = true -> occurs term (a ++ b) = true.
Proof.
  induction a as [|y a IH]; intros b H.
  - simpl in H. rewrite orb_false_r in H.
    apply (starts_with_append term EmptyString b) in H.
    simpl in H. destruct b; simpl; rewrite H; reflexivity.
  - simpl in H. apply orb_true_iff in H as [H|H].
    + apply (starts_with_append _ _ b) in H. simpl in *. rewrite H. reflexivity.
    + simpl. rewrite (IH b H). apply orb_true_r.
Qed.

Lemma starts_with_empty term :
  nonempty term = true -> starts_with term EmptyString = false.
Proof. destruct term; [discriminate|reflexivity]. Qed.

(** Either nothing is cut, or the term starts right after the cut. *)
Lemma split_head_cut term : forall text,
  split_head term text = text \/
  exists rest, text = split_head term text ++ rest /\
               starts_with term rest = true.
Proof.
  induction text as [|c tl IH]; [left; reflexivity|].
  cbn [split_head]. destruct (starts_with term (String c tl)) eqn:E.
  - right. exists (String c tl). split; [reflexivity|exact E].
  - destruct IH as [IH|(rest & Hr & Hs)].
    + left. rewrite IH. reflexivity.
    + right. exists rest. split; [|exact Hs]. simpl. rewrite <- Hr. reflexivity.
Qed.

Lemma split_head_prefix term text : prefix_of (split_head term text) text.
Proof.
  destruct (split_head_cut term text) as [->|(rest & Hr & _)].
  - apply prefix_of_refl.
  - exists rest. exact Hr.
Qed.

Lemma split_head_free term : forall text,
  nonempty term = true -> occurs term (split_head term text) = false.
Proof.
  intros text Hne. induction text as [|c tl IH].
  - simpl. rewrite starts_with_empty by assumption. reflexivity.
  - cbn [split_head]. destruct (starts_with term (String c tl)) eqn:E.
    + simpl. rewrite starts_with_empty by assumption. reflexivity.
    + cbn [occurs]. rewrite IH, orb_false_r.
      destruct (starts_with term (String c (split_head term tl))) eqn:E2;
        [|reflexivity].
      destruct (split_head_prefix term tl) as [rest Hr].
      apply (starts_with_append _ _ rest) in E2. simpl in E2.
      rewrite <- Hr in E2. simpl in E. congruence.
Qed.

Lemma split_head_same term : forall text,
  occurs term text = false -> split_head term text = text.
Proof.
  induction text as [|c tl IH]; intros H; [reflexivity|].
  cbn [occurs] in H. apply orb_false_iff in H as [H1 H2].
  cbn [split_head]. rewrite H1, IH by assumption. reflexivity.
Qed.

Lemma occurs_prefix_free term a b :
  prefix_of a b -> occurs term b = false -> occurs term a = false.
Proof.
  intros [r ->] H. destruct (occurs term a) eqn:E; [|reflexivity].
  apply (occurs_append _ _ r) in E. congruence.
Qed.

Lemma first_stop_prefix_single term : forall text,
  first_stop_prefix [term] text = split_head term text.
Proof.
  induction text as [|c tl IH]; [reflexivity|].
  cbn [first_stop_prefix split_head existsb]. rewrite orb_false_r, IH.
  reflexivity.
Qed.

(** The claimed prefix ends no later than any place where a stop starts. *)
Lemma first_stop_prefix_before until term : forall a b,
  In term until -> starts_with term b = true ->
  prefix_of (first_stop_prefix until (a ++ b)) a.
Proof.
  intros a b Hin Hs. induction a as [|c a IH].
  - simpl. destruct b as [|c b]; [apply prefix_of_empty|].
    cbn [first_stop_prefix].
    replace (existsb _ until) with true; [apply prefix_of_empty|].
    symmetry. apply existsb_exists. exists term. split; assumption.
  - cbn [append first_stop_prefix]. destruct (existsb _ until).
    + apply prefix_of_empty.
    + apply prefix_of_cons. exact IH.
Qed.

Lemma truncate_step term tl text :
  truncate (term :: tl) text
  = truncate tl (if nonempty term then split_head term text else text).
Proof.
  cbn [truncate]. unfold nonempty. destruct (0 <? String.length term)%nat eqn:E;
    [|reflexivity].
  destruct term; [discriminate|]. reflexivity.
Qed.

Lemma truncate_total : forall until text, exists t, truncate until text = Ok t.
Proof.
  induction until as [|term tl IH]; intros text; [eexists; reflexivity|].
  rewrite truncate_step. apply IH.
Qed.

Lemma truncate_prefix : forall until text t,
  truncate until text = Ok t -> prefix_of t text.
Proof.
  induction until as [|term tl IH]; intros text t H.
  - injection H as <-. apply prefix_of_refl.
  - rewrite truncate_step in H. apply IH in H.
    destruct (nonempty term); [|exact H].
    eapply prefix_of_trans; [exact H|apply split_head_prefix].
Qed.

Lemma truncate_free : forall until text t term,
  truncate until text = Ok t -> In term until -> nonempty term = true ->
  occurs term t = false.
Proof.
  induction until as [|x tl IH]; intros text t term H Hin Hne; [contradiction|].
  rewrite truncate_step in H. destruct Hin as [->|Hin].
  - rewrite Hne in H. apply truncate_prefix in H.
    eapply occurs_prefix_free; [exact H|]. apply split_head_free. exact Hne.
  - eapply IH; eassumption.
Qed.

Lemma truncate_same : forall until text,
  (forall term, In term until -> nonempty term = true ->
                occurs term text = false) ->
  truncate until text = Ok text.
Proof.
  induction until as [|x tl IH]; intros text H; [reflexivity|].
  rewrite truncate_step.
  replace (if nonempty x then split_head x text else text) with text.
  - apply IH. intros term Hin. apply H. right. exact Hin.
  - destruct (nonempty x) eqn:E; [|reflexivity].
    symmetry. apply split_head_same. apply H; [left; reflexivity|exact E].
Qed.

Lemma truncate_not_before stops raw : forall until text t,
  (forall term, In term until -> nonempty term = true -> In term stops) ->
  (exists rest, raw = text ++ rest) ->
  prefix_of (first_stop_prefix stops raw) text ->
  truncate until text = Ok t ->
  prefix_of (first_stop_prefix stops raw) t.
Proof.
  induction until as [|x tl IH]; intros text t Hsub Hraw Hpre H.
  - injection H as <-. exact Hpre.
  - rewrite truncate_step in H.
    assert (Hsub' : forall term, In term tl -> nonempty term = true ->
                                 In term stops)
      by (intros term Hin; apply Hsub; right; exact Hin).
    destruct (nonempty x) eqn:E; [|eapply IH; eassumption].
    destruct Hraw as [rest Hraw].
    destruct (split_head_cut x text) as [Hsame|(s & Hs & Hstart)].
    + rewrite Hsame in H. eapply IH; eauto.
    + remember (split_head x text) as h eqn:Eh. clear Eh Hpre. subst text raw.
      refine (IH _ _ Hsub' _ _ H).
      * exists (s ++ rest). apply append_assoc.
      * rewrite append_assoc.
        apply (first_stop_prefix_before stops x).
        -- apply Hsub; [left; reflexivity|exact E].
        -- apply starts_with_append. exact Hstart.
Qed.

(** C6 (amended). The result written onto the request is the raw text cut,
    for each non-empty stop sequence in list order, strictly before the
    first occurrence of that sequence in the text cut so far; empty stop
    sequences are skipped and the call never fails.  The result is a
    prefix of the raw text in which no non-empty stop sequence occurs; it
    is never shorter than the prefix before the first occurrence of any
    non-empty stop sequence; it is the full text when no stop sequence
    occurs, and exactly the prefix before the first occurrence for a single
    stop sequence.  "Hello world. Extra." with stop "." gives
    "Hello world". *)
Theorem stop_sequence_truncation :
  (forall (hooked : bool) (text : string) (instance : Instance)
          (until : list string) (w : world),
    exists t,
      update_instance_with_result hooked text instance (Some until) w
      = Ok (set_result instance (VStr t),
            add_partial hooked "generate_batch"
                        (set_result instance (VStr t)) (VStr t) w) /\
      truncate until text = Ok t /\
      prefix_of t text /\
      (forall term, In term until -> nonempty term = true ->
                    occurs term t = false) /\
      prefix_of (first_stop_prefix (filter nonempty until) text) t /\
      ((forall term, In term until -> nonempty term = true ->
                     occurs term text = false) -> t = text) /\
      (forall term, until = [term] -> nonempty term = true ->
                    t = first_stop_prefix [term] text)) /\
  truncate ["."] "Hello world. Extra." = Ok "Hello world".
Proof.
  split; [|reflexivity].
  intros hooked text instance until w.
  destruct (truncate_total until text) as [t Ht].
  exists t. split; [|split; [exact Ht|]].
  { unfold update_instance_with_result. rewrite Ht. reflexivity. }
  split; [eapply truncate_prefix; eassumption|].
  split; [intros term; eapply truncate_free; eassumption|].
  split.
  { eapply (truncate_not_before (filter nonempty until) text until text t).
    - intros term Hin Hne. apply filter_In. split; assumption.
    - exists EmptyString. symmetry. apply append_empty_r.
    - clear. induction text as [|c tl IH]; [apply prefix_of_empty|].
      cbn [first_stop_prefix]. destruct (existsb _ _);
        [apply prefix_of_empty|apply prefix_of_cons; exact IH].
    - exact Ht. }
  split.
  { intros Hfree. apply truncate_same in Hfree. congruence. }
  intros term -> Hne. rewrite truncate_step, Hne in Ht. injection Ht as <-.
  symmetry. apply first_stop_prefix_single.
Qed.

(** C6, as stated, fails when stop sequences overlap in the text: with the
    stops "cd" and "bc" the text "abcd" is cut to "ab", while the first
    occurrence of a stop sequence ("bc") starts after "a". *)
Lemma overlapping_stops_cut_late :
  let instance := {| args := [VStr "prompt"]; kwargs := []; result := VNone |} in
  let w := {| dbdict := []; base_kwargs := []; engine_log := [] |} in
  update_instance_with_result false "abcd" instance (Some ["cd"; "bc"]) w
  = Ok (set_result instance (VStr "ab"), w) /\
  first_stop_prefix ["cd"; "bc"] "abcd" = "a".
Proof. split; reflexivity. Qed.

Lemma stop_sequence_truncation_witness :
  exists t,
    truncate ["###"; "."] "One. Two ### three" = Ok t /\
    t = first_stop_prefix ["###"; "."] "One. Two ### three" /\
    t = "One".
Proof.
  destruct stop_sequence_truncation as [Hcut _].
  destruct (Hcut false "One. Two ### three" (request "p" []) ["###"; "."]
                 (demo_world [])) as (t & _ & Ht & _).
  exists t. split; [exact Ht|].
  vm_compute in Ht. injection Ht as <-. split; reflexivity.
Defined.

(* ================================================================== *)
(** * The end-of-text stop *)


Lemma truncate_app : forall a b text,
  truncate (a ++ b) text = (t <- truncate a text ;; truncate b t).
Proof.
  induction a as [|x a IH]; intros b text; [reflexivity|].
  rewrite <- app_comm_cons, !truncate_step. apply IH.
Qed.

Lemma foldM_inv {A S} (f : A -> S -> outcome S) (Inv : S -> Prop) :
  (forall x s s', f x s = Ok s' -> Inv s -> Inv s') ->
  forall l s s', foldM f l s = Ok s' -> Inv s -> Inv s'.
Proof.
  intros Hstep. induction l as [|x l IH]; intros s s' H Hs.
  - injection H as <-. exact Hs.
  - cbn [foldM] in H. destruct (f x s) as [s1|] eqn:E; [|discriminate].
    cbn [bind] in H. eapply IH; [exact H|]. eapply Hstep; eassumption.
Qed.

Lemma update_result hooked s x until wa inst wb :
  update_instance_with_result hooked s x (Some until) wa = Ok (inst, wb) ->
  exists t,
    truncate until s = Ok t /\ inst = set_result x (VStr t) /\
    engine_log wb = engine_log wa /\ base_kwargs wb = base_kwargs wa.
Proof.
  unfold update_instance_with_result.
  destruct (truncate until s) as [t|] eqn:Ht; [|discriminate].
  cbn [bind]. intros H. injection H as <- <-. exists t.
  split; [reflexivity|]. split; [reflexivity|].
  unfold add_partial. destruct hooked; split; reflexivity.
Qed.

(* ================================================================== *)
(** * The cache key *)

Lemma unescape_escape_char (c : ascii) (rest : string) :
  Json.unescape_head (Json.escape_char c ++ rest) = Some (c, rest).
Proof.
  destruct c as [[] [] [] [] [] [] [] []]; vm_compute; reflexivity.
Qed.

Lemma unescape_quote (rest : string) :
  Json.unescape_head (Json.quote ++ rest) = None.
Proof. reflexivity. Qed.

Lemma escape_injective : forall a b x y,
  Json.escape a ++ (Json.quote ++ x) = Json.escape b ++ (Json.quote ++ y) -> a = b.
Proof.
  induction a as [|c a IH]; intros [|d b] x y H.
  - reflexivity.
  - apply (f_equal Json.unescape_head) in H. cbn [Json.escape] in H.
    rewrite append_assoc, unescape_escape_char in H. discriminate.
  - apply (f_equal Json.unescape_head) in H. cbn [Json.escape] in H.
    rewrite append_assoc, unescape_escape_char in H. discriminate.
  - apply (f_equal Json.unescape_head) in H. cbn [Json.escape] in H.
    rewrite !append_assoc, !unescape_escape_char in H.
    injection H as -> H. f_equal. eapply IH. exact H.
Qed.









(* ---------- collisions ---------- *)















(* ================================================================== *)
(** * Log-likelihood truncation *)

Lemma slice_from_nonneg {A} (i : Z) (l : list A) :
  0 <= i -> slice_from i l = skipn (Z.to_nat i) l.
Proof.
  intros Hi. unfold slice_from.
  destruct (i <? 0) eqn:E; [apply Z.ltb_lt in E; lia|].
  destruct (Z.le_gt_cases i (Z.of_nat (List.length l))) as [Hle|Hgt].
  - rewrite Z.min_l by assumption. reflexivity.
  - rewrite Z.min_r by lia. rewrite Nat2Z.id.
    rewrite skipn_all. symmetry. apply skipn_all2. lia.
Qed.

Lemma slice_from_last {A} (n : Z) (l : list A) :
  0 < n ->
  slice_from (- n) l
  = skipn (Z.to_nat (Z.max 0 (Z.of_nat (List.length l) - n))) l.
Proof.
  intros Hn. unfold slice_from. destruct (- n <? 0) eqn:E.
  - reflexivity.
  - apply Z.ltb_ge in E. lia.
Qed.

Section ScoringFacts.

Context {num : Type} (zero : num) (add : num -> num -> num).

(** C5 (amended). When the left truncation leaves at least one context
    token ([ctxlen >= 1], the assumption the source states), the scored
    input is the kept end of the context followed by the whole
    continuation, as many tokens are dropped from the left as the sequence
    exceeds the maximum length, and the log-probabilities summed are those
    of exactly the continuation's tokens. *)
Theorem loglikelihood_truncation (max_length_ : Z)
    (context_enc continuation_enc : list Z)
    (prompt_logprobs : list (option (logprob_dict num))) :
  let inp := loglikelihood_inp max_length_ context_enc continuation_enc in
  let ctxlen := loglikelihood_ctxlen max_length_ context_enc continuation_enc in
  1 <= ctxlen ->
  exists dropped kept,
    context_enc = (dropped ++ kept)%list /\
    inp = (kept ++ continuation_enc)%list /\
    Z.of_nat (List.length kept) = ctxlen /\
    Z.of_nat (List.length dropped)
    = Z.max 0 (Z.of_nat (List.length context_enc)
               + Z.of_nat (List.length continuation_enc) - max_length_) /\
    scored_tokens max_length_ context_enc continuation_enc = continuation_enc /\
    _parse_logprobs num zero add inp prompt_logprobs ctxlen
    = sum_logprobs num add
        (combine continuation_enc
                 (skipn (List.length kept) prompt_logprobs)) zero.
Proof.
  intros inp ctxlen Hctx. unfold loglikelihood_ctxlen in ctxlen.
  set (lc := Z.of_nat (List.length context_enc)) in *.
  set (ln := Z.of_nat (List.length continuation_enc)) in *.
  set (d := Z.max 0 (lc + ln - max_length_)) in *.
  assert (Hd : 0 <= d < lc) by (unfold ctxlen in Hctx; lia).
  assert (Hml : 0 < max_length_) by (unfold d, lc, ln in *; lia).
  exists (firstn (Z.to_nat d) context_enc), (skipn (Z.to_nat d) context_enc).
  assert (Hinp : inp = (skipn (Z.to_nat d) context_enc ++ continuation_enc)%list).
  { unfold inp, loglikelihood_inp. rewrite slice_from_last by assumption.
    rewrite length_app, Nat2Z.inj_add. fold lc ln d.
    rewrite skipn_app.
    replace (Z.to_nat d - List.length context_enc)%nat with 0%nat
      by (unfold lc in Hd; lia).
    reflexivity. }
  assert (Hkept : Z.of_nat (List.length (skipn (Z.to_nat d) context_enc)) = ctxlen).
  { rewrite length_skipn. unfold ctxlen. fold lc. unfold lc in *. lia. }
  assert (Hscored : slice_from ctxlen inp = continuation_enc).
  { rewrite slice_from_nonneg by lia. rewrite Hinp, <- Hkept, Nat2Z.id.
    rewrite skipn_app, skipn_all, Nat.sub_diag. reflexivity. }
  split; [symmetry; apply firstn_skipn|]. split; [exact Hinp|].
  split; [exact Hkept|]. split.
  { rewrite length_firstn. unfold lc in Hd. lia. }
  split; [exact Hscored|].
  unfold _parse_logprobs. rewrite Hscored.
  rewrite (slice_from_nonneg ctxlen prompt_logprobs) by lia.
  rewrite <- Hkept, Nat2Z.id. reflexivity.
Qed.

End ScoringFacts.

Lemma loglikelihood_truncation_witness :
  let context_enc := [1; 2; 3] in
  let continuation_enc := [10; 11; 12; 13] in
  let prompt_logprobs :=
    [None; Some [(10, -1)]; Some [(11, -2)]; Some [(12, -3)];
     Some [(13, -4)]] in
  1 <= loglikelihood_ctxlen 5 context_enc continuation_enc /\
  loglikelihood_inp 5 context_enc continuation_enc = [3; 10; 11; 12; 13] /\
  scored_tokens 5 context_enc continuation_enc = continuation_enc /\
  _parse_logprobs Z 0 Z.add
    (loglikelihood_inp 5 context_enc continuation_enc) prompt_logprobs
    (loglikelihood_ctxlen 5 context_enc continuation_enc) = Ok (-10).
Proof.
  intros context_enc continuation_enc prompt_logprobs.
  assert (H : 1 <= loglikelihood_ctxlen 5 context_enc continuation_enc)
    by (vm_compute; discriminate).
  split; [exact H|].
  destruct (loglikelihood_truncation 0 Z.add 5 context_enc continuation_enc
              prompt_logprobs H)
    as (dropped & kept & _ & Hinp & Hkept & _ & Hscored & Hsum).
  split; [reflexivity|]. split; [exact Hscored|].
  rewrite Hsum.
  replace (List.length kept) with 1%nat
    by (apply Nat2Z.inj; rewrite Hkept; reflexivity).
  reflexivity.
Defined.

(** C5, as stated, fails when the truncation removes the whole context and
    part of the continuation: five continuation tokens remain, [ctxlen] is
    negative, and only the last token is scored. *)
Lemma truncated_context_scores_one_token :
  let context_enc := [1; 2; 3] in
  let continuation_enc := [10; 11; 12; 13; 14; 15] in
  let prompt_logprobs :=
    [None; Some [(12, -2)]; Some [(13, -3)]; Some [(14, -4)]; Some [(15, -5)]] in
  loglikelihood_inp 5 context_enc continuation_enc = [11; 12; 13; 14; 15] /\
  remaining_continuation 5 context_enc continuation_enc = [11; 12; 13; 14; 15] /\
  loglikelihood_ctxlen 5 context_enc continuation_enc = -1 /\
  scored_tokens 5 context_enc continuation_enc = [15] /\
  loglikelihood_one Z 0 Z.add 5 (fun _ => prompt_logprobs)
                    context_enc continuation_enc = Ok (-5).
Proof. repeat split; reflexivity. Qed.

(* ================================================================== *)
(** * The caching dispatcher *)

Lemma is_none_false v : v <> VNone -> is_none v = false.
Proof. destruct v; intros H; try reflexivity. contradiction. Qed.

Lemma is_none_true v : is_none v = true -> v = VNone.
Proof. destruct v; intros H; try discriminate. reflexivity. Qed.

Section Dispatcher.

Variable attr : string.
Variable db : Dict.t value.

Lemma check_cached_run : forall requests res rem,
  Forall (well_formed attr db) requests ->
  check_cached attr db requests res rem
  = Ok ((res ++ map (slot attr db) requests)%list,
        (rem ++ filter (queued attr db) requests)%list).
Proof.
  induction requests as [|req tl IH]; intros res rem Hwf.
  - simpl. rewrite !app_nil_r. reflexivity.
  - inversion Hwf as [|? ? Hreq Htl]; subst.
    cbn [check_cached map filter]. unfold well_formed, slot, queued, cached in *.
    destruct (exempt attr req).
    + rewrite IH by assumption. rewrite <- !app_assoc. reflexivity.
    + destruct (Dict.get db (hash_args attr req)) as [ob|].
      * rewrite is_none_false by congruence.
        rewrite IH by assumption. rewrite <- !app_assoc. reflexivity.
      * rewrite IH by assumption. rewrite <- !app_assoc. reflexivity.
Qed.

Lemma check_cached_raises : forall requests res rem,
  Exists (fun req => cached attr db req = Some VNone) requests ->
  check_cached attr db requests res rem = Raise AssertionError.
Proof.
  induction requests as [|req tl IH]; intros res rem Hex.
  - inversion Hex.
  - cbn [check_cached]. unfold cached in *.
    destruct (exempt attr req) eqn:Ee.
    + apply IH. inversion Hex as [? ? Hreq|? ? Htl]; subst; [|exact Htl].
      rewrite Ee in Hreq. discriminate.
    + destruct (Dict.get db (hash_args attr req)) as [ob|] eqn:Eg.
      * destruct (is_none ob) eqn:En; [reflexivity|].
        apply IH. inversion Hex as [? ? Hreq|? ? Htl]; subst; [|exact Htl].
        rewrite Ee, Eg in Hreq. injection Hreq as ->. discriminate.
      * apply IH. inversion Hex as [? ? Hreq|? ? Htl]; subst; [|exact Htl].
        rewrite Ee, Eg in Hreq. discriminate.
Qed.

Lemma check_cached_ok_wf : forall requests res rem out,
  check_cached attr db requests res rem = Ok out ->
  Forall (well_formed attr db) requests.
Proof.
  intros requests res rem out H.
  apply Forall_forall. intros req Hin Hc.
  rewrite check_cached_raises in H; [discriminate|].
  apply Exists_exists. exists req. split; assumption.
Qed.

End Dispatcher.

(** The [while] loop stops at the first unset slot. *)
Lemma next_unset_first : forall pre post p,
  Forall (fun v => v <> VNone) pre ->
  next_unset (pre ++ VNone :: post) p = Ok (p + List.length pre)%nat.
Proof.
  induction pre as [|v pre IH]; intros post p Hpre.
  - simpl. rewrite Nat.add_0_r. reflexivity.
  - inversion Hpre as [|? ? Hv Hrest]; subst. cbn [app next_unset].
    rewrite is_none_false by assumption. rewrite IH by assumption.
    f_equal. simpl. lia.
Qed.

Lemma split_at_unset : forall rest,
  (0 < count_none rest)%nat ->
  exists pre post, rest = (pre ++ VNone :: post)%list /\
                   Forall (fun v => v <> VNone) pre /\
                   count_none post = (count_none rest - 1)%nat.
Proof.
  induction rest as [|v rest IH]; intros H; [inversion H|].
  unfold count_none in *. cbn [filter] in *.
  destruct (is_none v) eqn:E.
  - apply is_none_true in E. subst v. exists [], rest.
    split; [reflexivity|]. split; [constructor|]. simpl. lia.
  - destruct (IH H) as (pre & post & -> & Hpre & Hc).
    exists (v :: pre), post. split; [reflexivity|]. split; [|exact Hc].
    constructor; [|exact Hpre]. intros ->. discriminate.
Qed.

Lemma set_nth_middle {A} (done pre : list A) (x y : A) (post : list A) :
  set_nth (done ++ pre ++ x :: post) (List.length done + List.length pre) y
  = (done ++ pre ++ y :: post)%list.
Proof.
  rewrite app_assoc, <- length_app.
  rewrite (app_assoc done pre (y :: post)).
  induction (done ++ pre)%list as [|z l IH]; [reflexivity|].
  simpl. rewrite IH. reflexivity.
Qed.

Lemma fill_prefix : forall pre rest new,
  Forall (fun v => v <> VNone) pre ->
  fill (pre ++ rest) new = (pre ++ fill rest new)%list.
Proof.
  induction pre as [|v pre IH]; intros rest new H; [reflexivity|].
  inversion H as [|? ? Hv Hrest]; subst. cbn [app fill].
  rewrite is_none_false by assumption. rewrite IH by assumption. reflexivity.
Qed.

Lemma fill_nil : forall res, fill res [] = res.
Proof.
  induction res as [|v res IH]; [reflexivity|]. simpl.
  destruct (is_none v); [reflexivity|]. rewrite IH. reflexivity.
Qed.

Lemma store_new_fill (attr : string) : forall remaining done rest db,
  Forall (fun r => result r <> VNone) remaining ->
  (List.length remaining <= count_none rest)%nat ->
  store_new attr remaining (done ++ rest) (List.length done) db
  = Ok ((done ++ fill rest (map result remaining))%list,
        store_all attr remaining db).
Proof.
  induction remaining as [|req tl IH]; intros done rest db Hres Hcount.
  - cbn [store_new map]. rewrite fill_nil. reflexivity.
  - inversion Hres as [|? ? Hreq Htl]; subst. cbn [List.length] in Hcount.
    destruct (split_at_unset rest) as (pre & post & -> & Hpre & Hc); [lia|].
    cbn [store_new]. rewrite skipn_app, skipn_all, Nat.sub_diag. cbn [skipn app].
    rewrite next_unset_first by assumption. cbn [bind].
    rewrite set_nth_middle.
    replace (List.length done + List.length pre)%nat
      with (List.length (done ++ pre)) by apply length_app.
    rewrite (app_assoc done pre). rewrite IH; [|assumption|].
    + cbn [map]. rewrite fill_prefix by assumption. cbn [fill is_none].
      rewrite is_none_false by assumption. cbn [fill].
      rewrite <- app_assoc. reflexivity.
    + unfold count_none in *. cbn [filter]. rewrite is_none_false by assumption.
      lia.
Qed.

Section Merge.

Variable attr : string.
Variable db : Dict.t value.

Lemma slot_queued req :
  well_formed attr db req -> is_none (slot attr db req) = queued attr db req.
Proof.
  unfold well_formed, slot, queued.
  destruct (cached attr db req) as [ob|]; [|reflexivity].
  intros H. apply is_none_false. congruence.
Qed.

Lemma count_none_slots : forall requests,
  Forall (well_formed attr db) requests ->
  count_none (map (slot attr db) requests)
  = List.length (filter (queued attr db) requests).
Proof.
  unfold count_none.
  induction 1 as [|req tl Hreq _ IH]; [reflexivity|].
  cbn [map filter]. rewrite slot_queued by assumption.
  destruct (queued attr db req); cbn [List.length]; rewrite IH; reflexivity.
Qed.

Lemma fill_slots : forall requests executed,
  Forall (well_formed attr db) requests ->
  fill (map (slot attr db) requests) executed
  = merge_by_index attr db requests executed.
Proof.
  induction requests as [|req tl IH]; intros executed Hwf; [reflexivity|].
  inversion Hwf as [|? ? Hreq Htl]; subst.
  cbn [map fill merge_by_index]. unfold well_formed in Hreq.
  destruct (cached attr db req) as [ob|] eqn:Ec.
  - replace (slot attr db req) with ob by (unfold slot; rewrite Ec; reflexivity).
    rewrite is_none_false by congruence. rewrite IH by assumption. reflexivity.
  - replace (slot attr db req) with VNone
      by (unfold slot; rewrite Ec; reflexivity).
    cbn [is_none].
    destruct executed as [|v ex]; [|rewrite IH by assumption; reflexivity].
    rewrite <- IH by assumption. rewrite fill_nil. reflexivity.
Qed.

Lemma merge_length : forall requests executed,
  List.length (merge_by_index attr db requests executed)
  = List.length requests.
Proof.
  induction requests as [|req tl IH]; intros executed; [reflexivity|].
  cbn [merge_by_index]. destruct (cached attr db req).
  - simpl. rewrite IH. reflexivity.
  - destruct executed; simpl; rewrite IH; reflexivity.
Qed.

(** Position by position: the stored value, or the executed result whose
    rank is the number of queued requests before the position. *)
Lemma merge_nth : forall requests executed i req,
  nth_error requests i = Some req ->
  (List.length (filter (queued attr db) requests) <= List.length executed)%nat ->
  exists v,
    nth_error (merge_by_index attr db requests executed) i = Some v /\
    match cached attr db req with
    | Some ob => v = ob
    | None =>
        nth_error executed
          (List.length (filter (queued attr db) (firstn i requests)))
        = Some v
    end.
Proof.
  induction requests as [|r tl IH]; intros executed i req Hi Hlen.
  - destruct i; discriminate.
  - cbn [merge_by_index]. cbn [filter] in Hlen.
    assert (Hq : queued attr db r
                 = match cached attr db r with Some _ => false | None => true end)
      by reflexivity.
    destruct i as [|i].
    + injection Hi as ->. destruct (cached attr db req) as [ob|] eqn:Ec.
      * exists ob. split; reflexivity.
      * rewrite Hq in Hlen.
        destruct executed as [|v ex]; [simpl in Hlen; lia|].
        exists v. split; reflexivity.
    + cbn [nth_error firstn filter] in *. rewrite Hq in *.
      destruct (cached attr db r) as [ob|] eqn:Ec.
      * apply IH; assumption.
      * destruct executed as [|v ex]; [simpl in Hlen; lia|].
        cbn [List.length nth_error] in *.
        destruct (IH ex i req Hi) as (x & Hx & Hm); [lia|].
        exists x. split; [exact Hx|exact Hm].
Qed.

Lemma merge_set : forall requests executed,
  Forall (well_formed attr db) requests ->
  Forall (fun v => v <> VNone) executed ->
  (List.length (filter (queued attr db) requests) <= List.length executed)%nat ->
  Forall (fun v => v <> VNone) (merge_by_index attr db requests executed).
Proof.
  induction requests as [|r tl IH]; intros executed Hwf Hex Hlen;
    [constructor|].
  inversion Hwf as [|? ? Hr Htl]; subst.
  cbn [merge_by_index]. cbn [filter] in Hlen.
  assert (Hq : queued attr db r
               = match cached attr db r with Some _ => false | None => true end)
    by reflexivity.
  rewrite Hq in Hlen. unfold well_formed in Hr.
  destruct (cached attr db r) as [ob|] eqn:Ec.
  - constructor; [congruence|]. apply IH; assumption.
  - destruct executed as [|v ex]; [simpl in Hlen; lia|].
    inversion Hex; subst. constructor; [assumption|].
    apply IH; [assumption|assumption|simpl in Hlen; lia].
Qed.

End Merge.

Lemma write_results_length : forall reqs vals,
  List.length (write_results reqs vals) = List.length reqs.
Proof.
  induction reqs as [|r rs IH]; intros [|v vs]; simpl; try reflexivity.
  rewrite IH. reflexivity.
Qed.

Lemma write_results_args : forall reqs vals,
  map args (write_results reqs vals) = map args reqs.
Proof.
  induction reqs as [|r rs IH]; intros [|v vs]; simpl; try reflexivity.
  rewrite IH. reflexivity.
Qed.

Lemma write_results_kwargs : forall reqs vals,
  map kwargs (write_results reqs vals) = map kwargs reqs.
Proof.
  induction reqs as [|r rs IH]; intros [|v vs]; simpl; try reflexivity.
  rewrite IH. reflexivity.
Qed.

Lemma write_results_result : forall reqs vals,
  List.length vals = List.length reqs ->
  map result (write_results reqs vals) = vals.
Proof.
  induction reqs as [|r rs IH]; intros [|v vs] H; simpl in *;
    try reflexivity; try discriminate.
  rewrite IH by lia. reflexivity.
Qed.

(** The run of the dispatcher when no stored value is [None] and the
    generator leaves a result on every queued request. *)
Lemma fn_run (lm_attr : lm_method) attr requests w vals w1 :
  let remaining := filter (queued attr (dbdict w)) requests in
  let remaining' := write_results remaining vals in
  Forall (well_formed attr (dbdict w)) requests ->
  lm_attr remaining w = Ok (vals, w1) ->
  Forall (fun r => result r <> VNone) remaining' ->
  fn lm_attr attr requests w
  = Ok (write_results requests
          (merge_by_index attr (dbdict w) requests (map result remaining')),
        set_dbdict w1 (store_all attr remaining' (dbdict w1))).
Proof.
  intros remaining remaining' Hwf Hlm Hres. unfold fn.
  rewrite check_cached_run by assumption. cbn [bind app].
  fold remaining. rewrite Hlm. cbn [bind]. fold remaining'.
  pose proof (store_new_fill attr remaining' []
                (map (slot attr (dbdict w)) requests) (dbdict w1) Hres) as Hs.
  cbn [app List.length] in Hs. rewrite Hs.
  - cbn [bind]. rewrite fill_slots by assumption. reflexivity.
  - rewrite count_none_slots by assumption. unfold remaining'.
    rewrite write_results_length. reflexivity.
Qed.

Lemma Forall2_write_results (P : Instance -> Instance -> Prop) :
  forall reqs vals,
    List.length vals = List.length reqs ->
    (forall i req v, nth_error reqs i = Some req -> nth_error vals i = Some v ->
                     P req (set_result req v)) ->
    Forall2 P reqs (write_results reqs vals).
Proof.
  induction reqs as [|r rs IH]; intros [|v vs] Hlen HP; simpl in *;
    try discriminate; constructor.
  - apply (HP 0%nat r v); reflexivity.
  - apply IH; [lia|]. intros i req x Hr Hv. apply (HP (S i) req x); assumption.
Qed.

(** C1. When no stored value read is [None] and the generator's call
    leaves a result on every queued request, the dispatch call returns
    with every request's result set, the requests otherwise unchanged and
    in their order: a request resolved from the cache holds the stored
    value, and the k-th queued request holds the k-th executed result. *)
Theorem dispatch_merges_by_index (lm_attr : lm_method) (attr : string)
    (requests : list Instance) (w : world) (vals : list value) (w1 : world) :
  let db := dbdict w in
  let remaining := filter (queued attr db) requests in
  let executed := map result (write_results remaining vals) in
  Forall (well_formed attr db) requests ->
  lm_attr remaining w = Ok (vals, w1) ->
  Forall (fun v => v <> VNone) executed ->
  exists final w',
    fn lm_attr attr requests w = Ok (final, w') /\
    map args final = map args requests /\
    map kwargs final = map kwargs requests /\
    Forall (fun r => result r <> VNone) final /\
    map result final = merge_by_index attr db requests executed /\
    (forall i req, nth_error requests i = Some req ->
       exists r, nth_error final i = Some r /\
         match cached attr db req with
         | Some ob => result r = ob
         | None =>
             nth_error executed
               (List.length (filter (queued attr db) (firstn i requests)))
             = Some (result r)
         end).
Proof.
  intros db remaining executed Hwf Hlm Hex.
  assert (Hlen : List.length executed = List.length remaining).
  { unfold executed. rewrite length_map, write_results_length. reflexivity. }
  assert (Hres : map result
                   (write_results requests
                      (merge_by_index attr db requests executed))
                 = merge_by_index attr db requests executed)
    by (apply write_results_result, merge_length).
  exists (write_results requests (merge_by_index attr db requests executed)),
         (set_dbdict w1 (store_all attr (write_results remaining vals)
                                   (dbdict w1))).
  split.
  { apply fn_run; [exact Hwf|exact Hlm|].
    unfold executed in Hex. rewrite Forall_map in Hex. exact Hex. }
  split; [apply write_results_args|]. split; [apply write_results_kwargs|].
  split.
  { apply (proj1 (Forall_map result (fun v => v <> VNone) _)). rewrite Hres.
    apply merge_set; [exact Hwf|exact Hex|]. fold remaining. lia. }
  split; [exact Hres|].
  intros i req Hi.
  destruct (merge_nth attr db requests executed i req Hi) as (v & Hv & Hm).
  { fold remaining. lia. }
  rewrite <- Hres, nth_error_map in Hv.
  destruct (nth_error (write_results requests _) i) as [r|] eqn:Er;
    [|discriminate].
  injection Hv as <-. exists r. split; [reflexivity|exact Hm].
Qed.

Lemma dispatch_merges_by_index_witness :
  exists final w',
    fn (generate_batch_method (demo_generator true)) "generate_batch"
       demo_requests (demo_world demo_store) = Ok (final, w') /\
    map result final
    = [VStr "Hi!"; VStr "A reply."; VStr "A reply."; VStr "Hi!"].
Proof.
  assert (E : generate_batch_method (demo_generator true)
                (filter (queued "generate_batch"
                                (dbdict (demo_world demo_store)))
                        demo_requests)
                (demo_world demo_store) = demo_outcome)
    by (vm_compute; reflexivity).
  unfold demo_outcome in E.
  match type of E with _ = Ok (?vals, ?w1) =>
    destruct (dispatch_merges_by_index
                (generate_batch_method (demo_generator true)) "generate_batch"
                demo_requests (demo_world demo_store) vals w1)
      as (final & w' & Hfn & _ & _ & _ & Hres & _)
  end.
  - (repeat constructor; unfold well_formed; vm_compute; discriminate).
  - exact E.
  - vm_compute. repeat constructor; discriminate.
  - exists final, w'. split; [exact Hfn|]. rewrite Hres.
    vm_compute. reflexivity.
Defined.

Lemma all_cached_nothing_queued attr db requests :
  Forall (fun req => exists ob, cached attr db req = Some ob /\ ob <> VNone)
         requests ->
  Forall (well_formed attr db) requests /\
  filter (queued attr db) requests = [].
Proof.
  induction 1 as [|req tl (ob & Hc & Hob) _ [IHw IHq]].
  - split; [constructor|reflexivity].
  - split.
    + constructor; [|exact IHw]. unfold well_formed. congruence.
    + cbn [filter]. unfold queued at 1. rewrite Hc. exact IHq.
Qed.

Lemma set_dbdict_same w : set_dbdict w (dbdict w) = w.
Proof. destruct w; reflexivity. Qed.

Lemma generate_batch_nothing g w :
  generate_batch_method g [] w = Ok ([], w).
Proof. reflexivity. Qed.

(** C4. When every request of the call is looked up (none is exempted)
    and has a well-formed stored value, the dispatcher hands the empty list
    to the underlying operation, and every result is the stored value;
    [generate_batch] on the empty list calls no engine and changes
    nothing, so the whole call leaves the world, engine log included, as
    it was. *)
Theorem all_cached_skips_engine (attr : string) (requests : list Instance)
    (w : world) :
  Forall (fun req =>
            exempt attr req = false /\
            exists ob, Dict.get (dbdict w) (hash_args attr req) = Some ob /\
                       ob <> VNone) requests ->
  exists final,
    (forall lm_attr : lm_method,
        fn lm_attr attr requests w
        = ('(_, w1) <- lm_attr [] w ;; Ok (final, w1))) /\
    (forall g, generate_batch_method g [] w = Ok ([], w) /\
               fn (generate_batch_method g) attr requests w = Ok (final, w)) /\
    Forall2 (fun req r =>
               args r = args req /\ kwargs r = kwargs req /\
               Dict.get (dbdict w) (hash_args attr req) = Some (result r))
            requests final.
Proof.
  intros Hall.
  assert (Hc : Forall (fun req => exists ob,
                         cached attr (dbdict w) req = Some ob /\ ob <> VNone)
                      requests).
  { eapply Forall_impl; [|exact Hall]. intros req (He & ob & Hg & Hob).
    exists ob. unfold cached. rewrite He. split; assumption. }
  destruct (all_cached_nothing_queued _ _ _ Hc) as [Hwf Hq].
  set (final := write_results requests (map (slot attr (dbdict w)) requests)).
  assert (Hfn : forall lm_attr : lm_method,
             fn lm_attr attr requests w
             = ('(_, w1) <- lm_attr [] w ;; Ok (final, w1))).
  { intros lm_attr. unfold fn. rewrite check_cached_run by assumption.
    cbn [bind app]. rewrite Hq.
    destruct (lm_attr [] w) as [[[|v vals] w1]|e]; [| |reflexivity];
      cbv beta iota zeta delta [bind store_new write_results];
      rewrite set_dbdict_same; reflexivity. }
  exists final. split; [exact Hfn|]. split.
  - intros g. split; [reflexivity|]. rewrite Hfn. reflexivity.
  - apply Forall2_write_results; [apply length_map|].
    intros i req v Hreq Hv. split; [reflexivity|]. split; [reflexivity|].
    rewrite nth_error_map, Hreq in Hv. injection Hv as <-.
    rewrite Forall_forall in Hall.
    destruct (Hall req (nth_error_In _ _ Hreq)) as (He & ob & Hg & _).
    cbn [result set_result]. unfold slot, cached. rewrite He, Hg. reflexivity.
Qed.

Lemma all_cached_skips_engine_witness :
  exists final,
    fn (generate_batch_method (demo_generator true)) "generate_batch"
       [request "Hello" greedy; request "Hello" greedy]
       (demo_world demo_store)
    = Ok (final, demo_world demo_store) /\
    map result final = [VStr "Hi!"; VStr "Hi!"].
Proof.
  destruct (all_cached_skips_engine "generate_batch"
              [request "Hello" greedy; request "Hello" greedy]
              (demo_world demo_store)) as (final & _ & Hgen & Hres).
  - repeat constructor; try (exists (VStr "Hi!"); split;
      [vm_compute; reflexivity|discriminate]).
  - exists final. split; [apply (Hgen (demo_generator true))|].
    inversion Hres as [|? r1 ? l1 (_ & _ & H1) Hres1]; subst.
    inversion Hres1 as [|? r2 ? l2 (_ & _ & H2) Hres2]; subst.
    inversion Hres2; subst.
    assert (Hget : Dict.get (dbdict (demo_world demo_store))
                     (hash_args "generate_batch" (request "Hello" greedy))
                   = Some (VStr "Hi!")) by (vm_compute; reflexivity).
    rewrite Hget in H1, H2. injection H1 as H1. injection H2 as H2.
    cbn [map]. rewrite <- H1, <- H2. reflexivity.
Defined.


Lemma set_nth_length {A} (x : A) : forall l i,
  List.length (set_nth l i x) = List.length l.
Proof.
  induction l as [|y l IH]; intros [|i]; simpl; try reflexivity.
  rewrite IH. reflexivity.
Qed.

Lemma set_nth_other {A} (x : A) : forall l i j,
  i <> j -> nth_error (set_nth l j x) i = nth_error l i.
Proof.
  induction l as [|y l IH]; intros i j Hij; [reflexivity|].
  destruct j as [|j]; destruct i as [|i]; simpl; try reflexivity;
    try congruence.
  apply IH. congruence.
Qed.




(** C2: the code writes the result of a sampled request into the store.
    Starting from an empty store, one dispatch of a sampled request leaves
    its key in the store, also when the generator has no cache hook (the
    write is the dispatcher's own); the stored value is not read by the
    next dispatch, which runs the request again. *)
Theorem sampled_request_is_written :
  let req := request "Tell a story" sampled in
  let key := hash_args "generate_batch" req in
  exempt "generate_batch" req = true /\
  exists final w',
    fn (generate_batch_method (demo_generator false)) "generate_batch"
       [req] (demo_world []) = Ok (final, w') /\
    map result final = [VStr "A reply."] /\
    dbdict w' = [(key, VStr "A reply.")] /\
    List.length (engine_log w') = 1%nat /\
    exists final2 w2,
      fn (generate_batch_method (demo_generator false)) "generate_batch"
         [req] w' = Ok (final2, w2) /\
      List.length (engine_log w2) = 2%nat.
Proof.
  intros req key. split; [reflexivity|].
  eexists. eexists. split; [vm_compute; reflexivity|].
  split; [vm_compute; reflexivity|]. split; [vm_compute; reflexivity|].
  split; [reflexivity|].
  eexists. eexists. split; [vm_compute; reflexivity|reflexivity].
Qed.

(* ================================================================== *)
(** * More on the caching dispatcher *)

Lemma count_none_cons v l :
  count_none (v :: l) = ((if is_none v then 1 else 0) + count_none l)%nat.
Proof. unfold count_none. cbn [filter]. destruct (is_none v); reflexivity. Qed.

(** The second loop finds an unset slot for every queued request, whatever
    the results are: a [None] result leaves its slot unset for the next. *)
Lemma store_new_returns (attr : string) : forall remaining done rest db,
  (List.length remaining <= count_none rest)%nat ->
  exists res' db',
    store_new attr remaining (done ++ rest) (List.length done) db
    = Ok (res', db').
Proof.
  induction remaining as [|req tl IH]; intros done rest db Hcount.
  - eexists. eexists. reflexivity.
  - cbn [List.length] in Hcount.
    destruct (split_at_unset rest) as (pre & post & -> & Hpre & Hc); [lia|].
    cbn [store_new]. rewrite skipn_app, skipn_all, Nat.sub_diag.
    cbn [skipn app]. rewrite next_unset_first by assumption. cbn [bind].
    rewrite set_nth_middle.
    replace (List.length done + List.length pre)%nat
      with (List.length (done ++ pre)) by apply length_app.
    rewrite (app_assoc done pre). apply IH.
    rewrite count_none_cons. lia.
Qed.

(** X1. The dispatcher adds no failure of its own.  When no stored value
    read is [None], an exception of the underlying method comes out of the
    dispatch call unchanged, and whenever the method returns, whatever
    results it left and however many, the dispatch call returns too, with as
    many requests, their arguments and keyword arguments as they were, and
    the generator's defaults and the engine log as the method left them. *)
Theorem fn_adds_no_failure (lm_attr : lm_method) (attr : string)
    (requests : list Instance) (w : world) :
  let remaining := filter (queued attr (dbdict w)) requests in
  Forall (well_formed attr (dbdict w)) requests ->
  (forall e, lm_attr remaining w = Raise e ->
             fn lm_attr attr requests w = Raise e) /\
  (forall vals w1, lm_attr remaining w = Ok (vals, w1) ->
     exists final w',
       fn lm_attr attr requests w = Ok (final, w') /\
       List.length final = List.length requests /\
       map args final = map args requests /\
       map kwargs final = map kwargs requests /\
       base_kwargs w' = base_kwargs w1 /\
       engine_log w' = engine_log w1).
Proof.
  intros remaining Hwf. split.
  - intros e He. unfold fn. rewrite check_cached_run by assumption.
    cbn [bind app]. fold remaining. rewrite He. reflexivity.
  - intros vals w1 Hlm. unfold fn. rewrite check_cached_run by assumption.
    cbn [bind app]. fold remaining. rewrite Hlm. cbn [bind].
    destruct (store_new_returns attr (write_results remaining vals) []
                (map (slot attr (dbdict w)) requests) (dbdict w1))
      as (res' & db' & Hs).
    { rewrite count_none_slots by assumption. rewrite write_results_length.
      reflexivity. }
    cbn [app List.length] in Hs. rewrite Hs. cbn [bind].
    eexists. eexists. split; [reflexivity|].
    split; [apply write_results_length|].
    split; [apply write_results_args|].
    split; [apply write_results_kwargs|]. split; reflexivity.
Qed.

Lemma fn_adds_no_failure_witness :
  exists final w',
    fn (fun reqs w => Ok ([], w)) "loglikelihood"
       [request "a" []; request "b" []] (demo_world []) = Ok (final, w') /\
    List.length final = 2%nat.
Proof.
  destruct (fn_adds_no_failure (fun reqs w => Ok ([], w)) "loglikelihood"
              [request "a" []; request "b" []] (demo_world []))
    as [_ Hok].
  - repeat constructor; unfold well_formed; vm_compute; discriminate.
  - destruct (Hok [] (demo_world []) eq_refl)
      as (final & w' & Hfn & Hlen & _).
    exists final, w'. split; [exact Hfn|exact Hlen].
Defined.

(* ------------------------------------------------------------------ *)
(** ** The store after a dispatch *)

Lemma hash_args_set_result attr r v :
  hash_args attr (set_result r v) = hash_args attr r.
Proof. reflexivity. Qed.

Lemma store_all_get (attr : string) : forall reqs db k,
  (exists r, In r reqs /\ hash_args attr r = k /\
             Dict.get (store_all attr reqs db) k = Some (result r)) \/
  ((forall r, In r reqs -> hash_args attr r <> k) /\
   Dict.get (store_all attr reqs db) k = Dict.get db k).
Proof.
  induction reqs as [|x tl IH]; intros db k.
  - right. split; [intros r []|reflexivity].
  - unfold store_all. cbn [fold_left].
    destruct (IH (Dict.set db (hash_args attr x) (result x)) k)
      as [(r & Hin & Hk & Hg)|[Hno Hg]].
    + left. exists r. split; [right; exact Hin|]. split; assumption.
    + unfold store_all in Hg. rewrite Hg, get_set.
      destruct (String.eqb (hash_args attr x) k) eqn:E.
      * left. exists x. split; [left; reflexivity|].
        apply String.eqb_eq in E. split; [exact E|reflexivity].
      * right. split; [|reflexivity].
        intros r [<-|Hin]; [apply String.eqb_neq; exact E|apply Hno; exact Hin].
Qed.

Lemma in_write_results : forall reqs vals r',
  In r' (write_results reqs vals) ->
  exists r, In r reqs /\ args r' = args r /\ kwargs r' = kwargs r.
Proof.
  induction reqs as [|x rs IH]; intros [|v vs] r' Hin; simpl in Hin;
    try contradiction.
  - exists r'. split; [exact Hin|split; reflexivity].
  - destruct Hin as [<-|Hin].
    + exists x. split; [left; reflexivity|split; reflexivity].
    + destruct (IH vs r' Hin) as (r & Hr & Ha & Hk).
      exists r. split; [right; exact Hr|split; assumption].
Qed.

Lemma write_results_in : forall reqs vals r,
  In r reqs ->
  exists r', In r' (write_results reqs vals) /\
             args r' = args r /\ kwargs r' = kwargs r.
Proof.
  induction reqs as [|x rs IH]; intros [|v vs] r Hin; simpl in *;
    try contradiction.
  - exists r. split; [exact Hin|split; reflexivity].
  - destruct Hin as [<-|Hin].
    + exists (set_result x v). split; [left; reflexivity|split; reflexivity].
    + destruct (IH vs r Hin) as (r' & Hr & Ha & Hk).
      exists r'. split; [right; exact Hr|split; assumption].
Qed.

Lemma hash_args_ext attr r r' :
  args r' = args r -> kwargs r' = kwargs r ->
  hash_args attr r' = hash_args attr r.
Proof. intros Ha Hk. unfold hash_args, hash_input. rewrite Ha, Hk. reflexivity. Qed.

(** The store after the second loop, key by key. *)
Lemma store_after (attr : string) (remaining : list Instance)
    (vals : list value) (db : Dict.t value) :
  let remaining' := write_results remaining vals in
  let db' := store_all attr remaining' db in
  (forall k, (forall r, In r remaining -> hash_args attr r <> k) ->
             Dict.get db' k = Dict.get db k) /\
  (forall r, In r remaining ->
             exists v, Dict.get db' (hash_args attr r) = Some v /\
                       In v (map result remaining')).
Proof.
  intros remaining' db'. split.
  - intros k Hno.
    destruct (store_all_get attr remaining' db k)
      as [(r' & Hin & Hk & _)|[_ Hg]]; [|exact Hg].
    destruct (in_write_results _ _ _ Hin) as (r & Hr & Ha & Hkw).
    exfalso. apply (Hno r Hr). rewrite <- Hk. symmetry.
    apply hash_args_ext; assumption.
  - intros r Hr.
    destruct (store_all_get attr remaining' db (hash_args attr r))
      as [(r' & Hin & Hk & Hg)|[Hno _]].
    + exists (result r'). split; [exact Hg|]. apply in_map. exact Hin.
    + exfalso. destruct (write_results_in remaining vals r Hr)
        as (r' & Hin & Ha & Hkw).
      apply (Hno r' Hin). apply hash_args_ext; assumption.
Qed.

(** X2. The dispatcher stores what it ran.  After a dispatch in which every
    queued request got a result, the store holds, under the key of every
    queued request, a result of the run that is not [None] (also for the
    requests that ask for sampling, which are never looked up); the keys of
    no queued request are as the method left them. *)
Theorem dispatch_stores_new_results (lm_attr : lm_method) (attr : string)
    (requests : list Instance) (w : world) (vals : list value) (w1 : world) :
  let remaining := filter (queued attr (dbdict w)) requests in
  let executed := map result (write_results remaining vals) in
  Forall (well_formed attr (dbdict w)) requests ->
  lm_attr remaining w = Ok (vals, w1) ->
  Forall (fun v => v <> VNone) executed ->
  exists final w',
    fn lm_attr attr requests w = Ok (final, w') /\
    (forall req, In req requests -> queued attr (dbdict w) req = true ->
       exists v, Dict.get (dbdict w') (hash_args attr req) = Some v /\
                 In v executed /\ v <> VNone) /\
    (forall k,
       (forall req, In req requests -> queued attr (dbdict w) req = true ->
                    hash_args attr req <> k) ->
       Dict.get (dbdict w') k = Dict.get (dbdict w1) k).
Proof.
  intros remaining executed Hwf Hlm Hex.
  eexists. eexists. split.
  { apply fn_run; [exact Hwf|exact Hlm|].
    unfold executed in Hex. rewrite Forall_map in Hex. exact Hex. }
  cbn [dbdict set_dbdict].
  destruct (store_after attr remaining vals (dbdict w1)) as [Hother Hnew].
  split.
  - intros req Hin Hq.
    destruct (Hnew req) as (v & Hv & Hvin).
    { apply filter_In. split; assumption. }
    exists v. split; [exact Hv|]. split; [exact Hvin|].
    rewrite Forall_forall in Hex. apply Hex. exact Hvin.
  - intros k Hno. apply Hother. intros r Hr.
    apply filter_In in Hr. destruct Hr as [Hin Hq]. apply Hno; assumption.
Qed.

Lemma dispatch_stores_new_results_witness :
  exists final w' v,
    fn (generate_batch_method (demo_generator true)) "generate_batch"
       demo_requests (demo_world demo_store) = Ok (final, w') /\
    Dict.get (dbdict w')
      (hash_args "generate_batch" (request "Name a colour" greedy))
    = Some v /\ v <> VNone.
Proof.
  assert (E : generate_batch_method (demo_generator true)
                (filter (queued "generate_batch"
                                (dbdict (demo_world demo_store)))
                        demo_requests)
                (demo_world demo_store) = demo_outcome)
    by (vm_compute; reflexivity).
  unfold demo_outcome in E.
  match type of E with _ = Ok (?vals, ?w1) =>
    destruct (dispatch_stores_new_results
                (generate_batch_method (demo_generator true)) "generate_batch"
                demo_requests (demo_world demo_store) vals w1)
      as (final & w' & Hfn & Hnew & _)
  end.
  - repeat constructor; unfold well_formed; vm_compute; discriminate.
  - exact E.
  - vm_compute. repeat constructor; discriminate.
  - destruct (Hnew (request "Name a colour" greedy)) as (v & Hv & _ & Hne).
    + right. left. reflexivity.
    + vm_compute. reflexivity.
    + exists final, w', v. split; [exact Hfn|]. split; assumption.
Defined.

Lemma queued_unfold attr db req :
  queued attr db req
  = if exempt attr req then true
    else match Dict.get db (hash_args attr req) with
         | Some _ => false
         | None => true
         end.
Proof. unfold queued, cached. destruct (exempt attr req); reflexivity. Qed.

Lemma store_all_present (attr : string) (reqs : list Instance)
    (db : Dict.t value) (k : string) (v : value) :
  Forall (fun r => result r <> VNone) reqs ->
  Dict.get db k = Some v -> v <> VNone ->
  exists v', Dict.get (store_all attr reqs db) k = Some v' /\ v' <> VNone.
Proof.
  intros Hres Hg Hv.
  destruct (store_all_get attr reqs db k) as [(r & Hin & _ & Hr)|[_ Hsame]].
  - exists (result r). split; [exact Hr|].
    rewrite Forall_forall in Hres. apply Hres. exact Hin.
  - exists v. split; [congruence|exact Hv].
Qed.

(** After a dispatch the store holds a value for every request that is
    looked up. *)
Lemma dispatch_caches_looked_up (attr : string) (requests : list Instance)
    (w : world) (vals : list value) (w1 : world) :
  let remaining := filter (queued attr (dbdict w)) requests in
  Forall (well_formed attr (dbdict w)) requests ->
  Forall (fun r => result r <> VNone) (write_results remaining vals) ->
  (forall k v, Dict.get (dbdict w) k = Some v -> v <> VNone ->
               exists v', Dict.get (dbdict w1) k = Some v' /\ v' <> VNone) ->
  forall req, In req requests -> exempt attr req = false ->
    exists v,
      Dict.get (store_all attr (write_results remaining vals) (dbdict w1))
               (hash_args attr req) = Some v /\ v <> VNone.
Proof.
  intros remaining Hwf Hres Hkeep req Hreq He.
  destruct (queued attr (dbdict w) req) eqn:Hq.
  - destruct (store_after attr remaining vals (dbdict w1)) as [_ Hnew].
    destruct (Hnew req) as (v & Hv & Hvin);
      [apply filter_In; split; assumption|].
    exists v. split; [exact Hv|].
    apply in_map_iff in Hvin. destruct Hvin as (r & <- & Hr).
    rewrite Forall_forall in Hres. apply Hres. exact Hr.
  - unfold queued, cached in Hq. rewrite He in Hq.
    destruct (Dict.get (dbdict w) (hash_args attr req)) as [ob|] eqn:Hg;
      [|discriminate].
    rewrite Forall_forall in Hwf. pose proof (Hwf req Hreq) as Hob.
    unfold well_formed, cached in Hob. rewrite He, Hg in Hob.
    destruct (Hkeep _ ob Hg) as (v' & Hv' & Hne); [congruence|].
    apply (store_all_present attr _ _ _ v'); assumption.
Qed.

(** A store with a value for every request looked up queues the exempted
    requests only. *)
Lemma only_exempt_queued (attr : string) (db : Dict.t value)
    (requests : list Instance) :
  (forall req, In req requests -> exempt attr req = false ->
     exists v, Dict.get db (hash_args attr req) = Some v /\ v <> VNone) ->
  Forall (well_formed attr db) requests /\
  filter (queued attr db) requests = filter (exempt attr) requests.
Proof.
  intros Hin. split.
  - apply Forall_forall. intros req Hreq. unfold well_formed, cached.
    destruct (exempt attr req) eqn:He; [discriminate|].
    destruct (Hin req Hreq He) as (v & Hv & Hne). rewrite Hv. congruence.
  - apply filter_ext_in. intros req Hreq. rewrite queued_unfold.
    destruct (exempt attr req) eqn:He; [reflexivity|].
    destruct (Hin req Hreq He) as (v & Hv & _). rewrite Hv. reflexivity.
Qed.

(** X3. Nothing is run twice but sampling.  After a dispatch in which every
    queued request got a result, by a method that keeps the stored values it
    finds, every stored value that a second dispatch of the same requests
    reads is well formed, and that dispatch queues exactly the requests that
    are exempted from the cache. *)
Theorem second_dispatch_runs_only_exempt (lm_attr : lm_method)
    (attr : string) (requests : list Instance) (w : world)
    (vals : list value) (w1 : world) :
  let remaining := filter (queued attr (dbdict w)) requests in
  let executed := map result (write_results remaining vals) in
  Forall (well_formed attr (dbdict w)) requests ->
  lm_attr remaining w = Ok (vals, w1) ->
  Forall (fun v => v <> VNone) executed ->
  (forall k v, Dict.get (dbdict w) k = Some v -> v <> VNone ->
               exists v', Dict.get (dbdict w1) k = Some v' /\ v' <> VNone) ->
  exists final w',
    fn lm_attr attr requests w = Ok (final, w') /\
    Forall (well_formed attr (dbdict w')) requests /\
    filter (queued attr (dbdict w')) requests
    = filter (exempt attr) requests.
Proof.
  intros remaining executed Hwf Hlm Hex Hkeep.
  assert (Hres : Forall (fun r => result r <> VNone)
                        (write_results remaining vals))
    by (unfold executed in Hex; rewrite Forall_map in Hex; exact Hex).
  eexists. eexists. split; [apply fn_run; eassumption|].
  cbn [dbdict set_dbdict]. apply only_exempt_queued.
  apply dispatch_caches_looked_up; assumption.
Qed.

(* ================================================================== *)
(** * [generate_batch] and [_model_generate] as a whole *)

(** A chunk that [generate_batch] gets through: what was computed on the
    way. *)
Lemma run_chunk_ok g chunk reqs w0 st' :
  run_chunk g chunk (reqs, w0) = Ok st' ->
  exists first rest until kw v n cont w1,
    chunk = first :: rest /\
    unpack_kwargs (max_gen_toks g) (base_kwargs w0) (kwargs (instance first))
    = Ok (until, kw) /\
    Dict.get kw "max_tokens" = Some v /\ int_of v = Some n /\
    existsb (Dict.contains kw) own_parameters = false /\
    _model_generate g
      (map (fun x => slice_from (- (max_length g - n)) (context_encoding x))
           chunk)
      (add_eos until (eos g)) kw
      (set_base_kwargs w0
         (append_eos_in_place (base_kwargs w0) (kwargs (instance first))
                              (eos g)))
    = Ok (cont, w1) /\
    foldM (fun '(s, x) '(reqs0, w2) =>
             '(inst, w3) <-
                update_instance_with_result (cache_hook_set g) s
                  (instance x) (Some (add_eos until (eos g))) w2 ;;
             Ok (set_nth reqs0 (position x) inst, w3))
          (combine cont chunk) (reqs, w1) = Ok st'.
Proof.
  unfold run_chunk. destruct chunk as [|first rest] eqn:Echunk; [discriminate|].
  rewrite <- Echunk.
  destruct (unpack_kwargs _ _ _) as [[until kw]|] eqn:Eu; [|discriminate].
  cbn [bind].
  destruct (Dict.get kw "max_tokens") as [v|] eqn:Emax; [|discriminate].
  destruct (int_of v) as [n|] eqn:En; [|discriminate].
  cbn [bind].
  destruct (existsb (Dict.contains kw) own_parameters) eqn:Eown;
    [discriminate|].
  cbn [bind].
  destruct (_model_generate _ _ _ _ _) as [[cont w1]|] eqn:Eg; [|discriminate].
  cbn [bind]. intros H.
  exists first, rest, until, kw, v, n, cont, w1. subst chunk.
  repeat split; assumption.
Qed.

Lemma foldM_track {A S} (f : A -> S -> outcome S) (P : list A -> S -> Prop)
    (l : list A) :
  (forall done x s s', In x l -> P done s -> f x s = Ok s' ->
                       P (done ++ [x])%list s') ->
  forall s s', P [] s -> foldM f l s = Ok s' -> P l s'.
Proof.
  intros Hstep.
  assert (H : forall rest done s s',
             l = (done ++ rest)%list -> P done s ->
             foldM f rest s = Ok s' -> P l s').
  { induction rest as [|x rest IH]; intros done s s' Hl HP Hf.
    - injection Hf as <-. rewrite app_nil_r in Hl. subst l. exact HP.
    - cbn [foldM] in Hf. destruct (f x s) as [s1|] eqn:E; [|discriminate].
      cbn [bind] in Hf. apply (IH (done ++ [x])%list s1 s').
      + rewrite <- app_assoc. exact Hl.
      + apply (Hstep done x s s1); [|exact HP|exact E].
        subst l. apply in_or_app. right. left. reflexivity.
      + exact Hf. }
  intros s s'. apply (H l []). reflexivity.
Qed.

Lemma items_of_ok g : forall cs rs p x,
  In x (items_of g p cs rs) ->
  exists i, position x = (p + i)%nat /\ nth_error rs i = Some (instance x).
Proof.
  induction cs as [|c cs IH]; intros [|r rs] p x Hin; simpl in Hin;
    try contradiction.
  destruct Hin as [<-|Hin].
  - exists 0%nat. split; [simpl; lia|reflexivity].
  - destruct (IH rs (S p) x Hin) as (i & Hp & Hn).
    exists (S i). split; [lia|exact Hn].
Qed.

Lemma items_of_cover g : forall cs rs p i,
  List.length cs = List.length rs -> (i < List.length rs)%nat ->
  exists x, In x (items_of g p cs rs) /\ position x = (p + i)%nat.
Proof.
  induction cs as [|c cs IH]; intros [|r rs] p i Hlen Hi; simpl in *;
    try lia.
  destruct i as [|i].
  - eexists. split; [left; reflexivity|]. simpl. lia.
  - destruct (IH rs (S p) i) as (x & Hx & Hp); [lia|lia|].
    exists x. split; [right; exact Hx|lia].
Qed.

Lemma contexts_length : forall requests cs,
  contexts requests = Ok cs -> List.length cs = List.length requests.
Proof.
  induction requests as [|r rs IH]; intros cs H.
  - injection H as <-. reflexivity.
  - cbn [contexts] in H. destruct (args r) as [|[] ?]; try discriminate.
    destruct (contexts rs) as [rest|]; [|discriminate].
    cbn [bind] in H. injection H as <-. simpl. rewrite (IH rest eq_refl).
    reflexivity.
Qed.

Lemma add_to_group_items x : forall groups y,
  In y (all_items (add_to_group x groups)) <-> y = x \/ In y (all_items groups).
Proof.
  unfold all_items.
  induction groups as [|[k xs] tl IH]; intros y; cbn [add_to_group].
  - simpl. intuition congruence.
  - destruct (value_eqb _ _).
    + cbn [map List.concat snd]. rewrite !in_app_iff. simpl. intuition congruence.
    + cbn [map List.concat snd]. rewrite !in_app_iff, IH. intuition.
Qed.

Lemma get_grouped_items l : forall y,
  In y (all_items (get_grouped l)) <-> In y l.
Proof.
  unfold get_grouped.
  assert (H : forall l groups y,
             In y (all_items (fold_left (fun gs x => add_to_group x gs)
                                        l groups))
             <-> In y l \/ In y (all_items groups)).
  { clear. induction l as [|x l IH]; intros groups y; cbn [fold_left].
    - simpl. intuition.
    - rewrite IH, add_to_group_items. simpl. intuition congruence. }
  intros y. rewrite H. simpl. intuition.
Qed.

Lemma chunks_of_concat {A} (n : nat) : forall fuel (l : list A),
  (0 < n)%nat -> (List.length l <= fuel)%nat ->
  List.concat (chunks_of fuel n l) = l.
Proof.
  induction fuel as [|fuel IH]; intros l Hn Hlen.
  - destruct l; [reflexivity|simpl in Hlen; lia].
  - destruct l as [|x l]; [reflexivity|].
    cbn [chunks_of List.concat]. rewrite IH; [apply firstn_skipn|exact Hn|].
    rewrite length_skipn. cbn [List.length] in *. lia.
Qed.

Lemma chunks_concat {A} (l : list A) (n : Z) : List.concat (chunks l n) = l.
Proof.
  unfold chunks. destruct (n <=? 0) eqn:E.
  - simpl. apply app_nil_r.
  - apply chunks_of_concat; [apply Z.leb_gt in E; lia|lia].
Qed.

Lemma in_all_items groups k grp x :
  In (k, grp) groups -> In x grp -> In x (all_items groups).
Proof.
  intros Hg Hx. unfold all_items. apply in_concat. exists grp.
  split; [|exact Hx]. change grp with (snd (k, grp)). apply in_map. exact Hg.
Qed.

(* ------------------------------------------------------------------ *)
(** ** [_model_generate] in its two branches *)

(** The round trip of [distribute] and [undistribute], on the children. *)
Lemma undistribute_children {A} (k : nat) (items : list A) :
  (0 < k)%nat ->
  undistribute (map (fun index => islice items index k) (seq 0 k)) = items.
Proof.
  intros Hk.
  set (parts := map (fun index => islice items index k) (seq 0 k)).
  set (rounds := Nat.max (list_max (map (@List.length A) parts))
                         (List.length items)).
  rewrite (undistribute_rounds parts rounds) by (unfold rounds; lia).
  rewrite (flat_map_ext _ (fun round => firstn k (skipn (round * k) items)))
    by (intros r; apply round_of_children; assumption).
  rewrite rounds_firstn. apply firstn_all2. unfold rounds. nia.
Qed.

Lemma same_shape_units {A B} : forall (a : list (list A)) (b : list (list B)),
  Forall2 (fun x y => List.length y = List.length x) a b ->
  map (map (fun _ => tt)) b = map (map (fun _ => tt)) a.
Proof.
  induction 1 as [|x y a b Hxy _ IH]; [reflexivity|].
  cbn [map]. rewrite IH. f_equal.
  clear -Hxy. revert y Hxy.
  induction x as [|? x IHx]; intros [|? y] H; simpl in *; try lia;
    [reflexivity|]. rewrite (IHx y) by lia. reflexivity.
Qed.

Lemma undistribute_same_length {A B} (a : list (list A)) (b : list (list B)) :
  Forall2 (fun x y => List.length y = List.length x) a b ->
  List.length (undistribute b) = List.length (undistribute a).
Proof.
  intros H. apply same_shape_units in H.
  rewrite <- (length_map (fun _ => tt) (undistribute b)).
  rewrite <- (length_map (fun _ => tt) (undistribute a)).
  rewrite <- !undistribute_map, H. reflexivity.
Qed.

Section ModelGenerate.

Variable g : vLLMGenerator.
Variable stops : list string.
Variable kw : Dict.t value.

(** The workers of the data-parallel branch, one engine call each. *)
Lemma workers_run : forall parts acc wa,
  exists results w',
    fold_left (fun '(acc, w0) part =>
                 ((acc ++ [llm_generate g (engine_log w0) (call_of stops kw part)])%list,
                  log_call w0 (call_of stops kw part)))
              parts (acc, wa) = ((acc ++ results)%list, w') /\
    Forall2 (fun part r => exists log, r = llm_generate g log (call_of stops kw part))
            parts results /\
    engine_log w' = (engine_log wa ++ map (call_of stops kw) parts)%list /\
    dbdict w' = dbdict wa /\ base_kwargs w' = base_kwargs wa.
Proof.
  induction parts as [|p parts IH]; intros acc wa.
  - exists [], wa. rewrite !app_nil_r. repeat split. constructor.
  - cbn [fold_left].
    destruct (IH (acc ++ [llm_generate g (engine_log wa) (call_of stops kw p)])%list
                 (log_call wa (call_of stops kw p)))
      as (results & w' & Hf & Hres & Hlog & Hdb & Hbase).
    exists (llm_generate g (engine_log wa) (call_of stops kw p) :: results), w'.
    split; [rewrite Hf, <- app_assoc; reflexivity|].
    split; [constructor; [eexists; reflexivity|exact Hres]|].
    split; [rewrite Hlog; cbn [engine_log log_call map];
            rewrite <- app_assoc; reflexivity|].
    split; assumption.
Qed.

(** What [_model_generate] does, in its two branches. *)
Lemma model_generate_run requests w0 cont w1 :
  _model_generate g requests stops kw w0 = Ok (cont, w1) ->
  dbdict w1 = dbdict w0 /\ base_kwargs w1 = base_kwargs w0 /\
  ((1 <? data_parallel_size g) = false /\
   cont = llm_generate g (engine_log w0) (call_of stops kw requests) /\
   engine_log w1 = (engine_log w0 ++ [call_of stops kw requests])%list
   \/
   (1 <? data_parallel_size g) = true /\
   exists parts results,
     parts = map (fun index => islice requests index
                                      (Z.to_nat (data_parallel_size g)))
                 (seq 0 (Z.to_nat (data_parallel_size g))) /\
     Forall2 (fun part r => exists log, r = llm_generate g log (call_of stops kw part))
             parts results /\
     cont = undistribute results /\
     engine_log w1 = (engine_log w0 ++ map (call_of stops kw) parts)%list).
Proof.
  unfold _model_generate.
  change (fun reqs => {| prompt_token_ids := reqs; stop := stops;
                         sampling_kwargs := modify_gen_kwargs kw |})
    with (call_of stops kw).
  destruct (1 <? data_parallel_size g) eqn:Edp.
  - unfold distribute.
    destruct (data_parallel_size g <? 1) eqn:E1;
      [apply Z.ltb_lt in E1; apply Z.ltb_lt in Edp; lia|].
    cbn [bind].
    set (parts := map _ (seq 0 _)).
    destruct (workers_run parts [] w0)
      as (results & w' & Hf & Hres & Hlog & Hdb & Hbase).
    destruct (fold_left _ parts ([], w0)) as [res wx] eqn:E.
    injection Hf as -> ->. cbn [app].
    intros H. injection H as <- <-.
    split; [exact Hdb|]. split; [exact Hbase|]. right.
    split; [reflexivity|]. exists parts, results. repeat split; assumption.
  - intros H. injection H as <- <-. split; [reflexivity|].
    split; [reflexivity|]. left. repeat split.
Qed.

Lemma model_generate_length requests w0 cont w1 :
  engine_answers g ->
  _model_generate g requests stops kw w0 = Ok (cont, w1) ->
  List.length cont = List.length requests.
Proof.
  intros Hans H. apply model_generate_run in H.
  destruct H as (_ & _ & [(_ & -> & _)|(Edp & parts & results & Hp & Hres & -> & _)]).
  - apply Hans.
  - rewrite (undistribute_same_length parts results).
    + subst parts. rewrite undistribute_children; [reflexivity|].
      apply Z.ltb_lt in Edp. lia.
    + eapply Forall2_impl; [|exact Hres].
      intros part r [log ->]. apply Hans.
Qed.

End ModelGenerate.

Lemma model_generate_total g requests stops kw w0 :
  exists cont w1, _model_generate g requests stops kw w0 = Ok (cont, w1).
Proof.
  unfold _model_generate. destruct (1 <? data_parallel_size g) eqn:Edp.
  - unfold distribute.
    destruct (data_parallel_size g <? 1) eqn:E1;
      [apply Z.ltb_lt in E1; apply Z.ltb_lt in Edp; lia|].
    cbn [bind]. destruct (fold_left _ _ _) as [res wx].
    eexists. eexists. reflexivity.
  - eexists. eexists. reflexivity.
Qed.

Lemma Forall2_map_eq {A B} (h : A -> B) : forall l l',
  Forall2 (fun a b => b = h a) l l' -> l' = map h l.
Proof. induction 1 as [|a b l l' -> _ IH]; [reflexivity|]. simpl. rewrite IH. reflexivity. Qed.

(** X10. Data-parallel generation gives what one engine call gives.
    [_model_generate] always returns; when the engine answers each prompt by
    itself, the texts are those of the prompts in their order, with one
    worker or with several; it makes one engine call, or one per worker on
    partitions that interleave to the prompts, each with the stop list and
    the sampling parameters of the chunk, and it leaves the store alone. *)
Theorem data_parallel_same_outputs (g : vLLMGenerator) (f : list Z -> string)
    (requests : list (list Z)) (stops : list string) (kw : Dict.t value)
    (w : world) :
  engine_pointwise g f ->
  exists w' calls,
    _model_generate g requests stops kw w = Ok (map f requests, w') /\
    dbdict w' = dbdict w /\
    engine_log w' = (engine_log w ++ calls)%list /\
    List.length calls
    = (if 1 <? data_parallel_size g
       then Z.to_nat (data_parallel_size g) else 1%nat) /\
    Forall (fun c => stop c = stops /\
                     sampling_kwargs c = modify_gen_kwargs kw) calls /\
    (if 1 <? data_parallel_size g
     then undistribute (map prompt_token_ids calls) = requests
     else map prompt_token_ids calls = [requests]).
Proof.
  intros Hpt.
  destruct (model_generate_total g requests stops kw w) as (cont & w1 & H).
  rewrite H. destruct (model_generate_run g stops kw requests w cont w1 H)
    as (Hdb & _ & [(Edp & -> & Hlog)|
                   (Edp & parts & results & Hp & Hres & -> & Hlog)]).
  - exists w1. eexists. rewrite Hpt. split; [reflexivity|].
    split; [exact Hdb|]. split; [exact Hlog|]. rewrite Edp.
    split; [reflexivity|]. split; [|reflexivity].
    constructor; [split; reflexivity|constructor].
  - assert (Hk : (0 < Z.to_nat (data_parallel_size g))%nat)
      by (apply Z.ltb_lt in Edp; lia).
    assert (Hresults : results = map (map f) parts).
    { apply Forall2_map_eq. eapply Forall2_impl; [|exact Hres].
      intros part r [log ->]. apply Hpt. }
    exists w1. eexists. subst results.
    rewrite undistribute_map. subst parts.
    rewrite undistribute_children by assumption.
    split; [reflexivity|]. split; [exact Hdb|]. split; [exact Hlog|].
    rewrite Edp. split; [rewrite !length_map, length_seq; reflexivity|].
    split.
    + apply Forall_forall. intros c Hc. apply in_map_iff in Hc.
      destruct Hc as (part & <- & _). split; reflexivity.
    + rewrite map_map. cbn [prompt_token_ids]. rewrite map_id.
      apply undistribute_children. assumption.
Qed.

(* ------------------------------------------------------------------ *)
(** ** [generate_batch]: what stays *)

Lemma map_set_nth {A B} (h : A -> B) (x : A) : forall l i,
  map h (set_nth l i x) = set_nth (map h l) i (h x).
Proof.
  induction l as [|y l IH]; intros [|i]; simpl; try reflexivity.
  rewrite IH. reflexivity.
Qed.

Lemma set_nth_same {A} (x : A) : forall l i,
  nth_error l i = Some x -> set_nth l i x = l.
Proof.
  induction l as [|y l IH]; intros [|i] H; simpl in *; try discriminate.
  - congruence.
  - rewrite IH by assumption. reflexivity.
Qed.

Lemma set_nth_map_same {A B} (h : A -> B) (l ref : list A) i x y :
  map h l = map h ref -> nth_error ref i = Some y -> h x = h y ->
  map h (set_nth l i x) = map h ref.
Proof.
  intros Hl Hi Hxy. rewrite map_set_nth, Hl. apply set_nth_same.
  rewrite nth_error_map, Hi, Hxy. reflexivity.
Qed.

Lemma get_append_eos base gk e k :
  String.eqb "stop_sequences" k = false ->
  Dict.get (append_eos_in_place base gk e) k = Dict.get base k.
Proof.
  intros Hk. unfold append_eos_in_place.
  destruct (Dict.contains gk "stop_sequences"); [reflexivity|].
  destruct (Dict.get base "stop_sequences") as [[| | | | |[|x l]|]|];
    try reflexivity.
  rewrite get_set, Hk. reflexivity.
Qed.

Section Frame.

Variable g : vLLMGenerator.
Variable requests : list Instance.
Variable w : world.

Lemma update_frame s x until reqs0 w0 inst w1 :
  item_ok requests x ->
  update_instance_with_result (cache_hook_set g) s (instance x) until w0
  = Ok (inst, w1) ->
  frame_inv g requests w (reqs0, w0) ->
  frame_inv g requests w (set_nth reqs0 (position x) inst, w1).
Proof.
  intros Hx Hup (Ha & Hk & Hdb & Hno & Hbase).
  unfold update_instance_with_result in Hup.
  destruct (match until with Some terms => truncate terms s | None => Ok s end)
    as [t|]; [|discriminate].
  cbn [bind] in Hup. injection Hup as <- <-. unfold frame_inv.
  cbn [fst snd] in *. split; [|split; [|split; [|split]]].
  - eapply set_nth_map_same; [exact Ha|exact Hx|reflexivity].
  - eapply set_nth_map_same; [exact Hk|exact Hx|reflexivity].
  - intros k Hkey. unfold add_partial.
    destruct (cache_hook_set g); [|apply Hdb; exact Hkey].
    unfold set_dbdict. cbn [dbdict]. rewrite get_set.
    destruct (String.eqb _ k) eqn:E; [|apply Hdb; exact Hkey].
    apply String.eqb_eq in E. exfalso.
    apply (Hkey (instance x)); [|exact E].
    eapply nth_error_In. exact Hx.
  - intros Hh. unfold add_partial. rewrite Hh. apply Hno. exact Hh.
  - intros k Hkey. unfold add_partial.
    destruct (cache_hook_set g); unfold set_dbdict; cbn [base_kwargs];
      apply Hbase; exact Hkey.
Qed.

Lemma run_chunk_frame chunk st st' :
  Forall (item_ok requests) chunk ->
  run_chunk g chunk st = Ok st' ->
  frame_inv g requests w st -> frame_inv g requests w st'.
Proof.
  intros Hok. destruct st as [reqs w0]. intros H Hinv.
  apply run_chunk_ok in H.
  destruct H as (first & rest & until & kw & v & n & cont & w1 & Echunk & Eu
                 & Emax & En & Eown & Eg & H).
  apply model_generate_run in Eg. destruct Eg as (Hdb1 & Hb1 & _).
  cbn [dbdict base_kwargs set_base_kwargs] in Hdb1, Hb1.
  refine (foldM_track _ (fun _ s => frame_inv g requests w s) _ _ _ _ _ H).
  - intros _ [s x] [reqs0 wa] s' Hin Hs Hf.
    destruct (update_instance_with_result _ _ _ _ _) as [[inst wb]|] eqn:Eup;
      [|discriminate].
    cbn [bind] in Hf. injection Hf as <-.
    eapply update_frame; [|exact Eup|exact Hs].
    apply in_combine_r in Hin. rewrite Forall_forall in Hok. apply Hok, Hin.
  - destruct Hinv as (Ha & Hk & Hdb & Hno & Hbase). unfold frame_inv.
    cbn [fst snd] in *. split; [exact Ha|]. split; [exact Hk|]. split; [|split].
    + intros k Hkey. rewrite Hdb1. apply Hdb, Hkey.
    + intros Hh. rewrite Hdb1. apply Hno, Hh.
    + intros k Hkey. rewrite Hb1, get_append_eos by exact Hkey.
      apply Hbase, Hkey.
Qed.

Lemma request_list_ok cs x :
  In x (items_of g 0 cs requests) -> item_ok requests x.
Proof.
  intros Hin. destruct (items_of_ok g cs requests 0 x Hin) as (i & Hp & Hn).
  unfold item_ok. rewrite Hp. exact Hn.
Qed.

Lemma chunk_items cs key group chunk n x :
  In (key, group) (get_grouped (items_of g 0 cs requests)) ->
  In chunk (chunks group n) -> In x chunk ->
  In x (items_of g 0 cs requests).
Proof.
  intros Hg Hc Hx. apply get_grouped_items.
  apply (in_all_items _ key group); [exact Hg|].
  rewrite <- (chunks_concat group n). apply in_concat. eauto.
Qed.

Lemma generate_batch_frame reqs' w' :
  generate_batch g requests w = Ok (reqs', w') ->
  frame_inv g requests w (reqs', w').
Proof.
  unfold generate_batch.
  destruct (contexts requests) as [cs|]; [|discriminate]. cbn [bind].
  intros H.
  refine (foldM_track _ (fun _ s => frame_inv g requests w s) _ _ _ _ _ H).
  - intros _ [key group] st st' Hin Hs Hg.
    refine (foldM_track _ (fun _ s => frame_inv g requests w s) _ _ _ _ Hs Hg).
    intros _ chunk s1 s2 Hc Hs1. intros Hrun.
    eapply run_chunk_frame; [|exact Hrun|exact Hs1].
    apply Forall_forall. intros x Hx. apply (request_list_ok cs).
    eapply chunk_items; eassumption.
  - repeat split; reflexivity.
Qed.

End Frame.

(** X7. [generate_batch] only writes results.  The request objects keep
    their arguments and keyword arguments; the store changes at most under
    the keys of the requests of the batch, and not at all without a cache
    hook; of the generator's default parameters only the stop list can
    change. *)
Theorem generate_batch_only_writes_results (g : vLLMGenerator)
    (requests : list Instance) (w : world) (reqs' : list Instance)
    (w' : world) :
  generate_batch g requests w = Ok (reqs', w') ->
  List.length reqs' = List.length requests /\
  map args reqs' = map args requests /\
  map kwargs reqs' = map kwargs requests /\
  (forall k, (forall r, In r requests -> hash_args "generate_batch" r <> k) ->
             Dict.get (dbdict w') k = Dict.get (dbdict w) k) /\
  (cache_hook_set g = false -> dbdict w' = dbdict w) /\
  (forall k, k <> "stop_sequences" ->
             Dict.get (base_kwargs w') k = Dict.get (base_kwargs w) k).
Proof.
  intros H. apply generate_batch_frame in H.
  destruct H as (Ha & Hk & Hdb & Hno & Hbase). cbn [fst snd] in *.
  split.
  { rewrite <- (length_map args reqs'), Ha. apply length_map. }
  split; [exact Ha|]. split; [exact Hk|]. split; [exact Hdb|].
  split; [exact Hno|].
  intros k Hk'. apply Hbase. apply String.eqb_neq. congruence.
Qed.

(* ------------------------------------------------------------------ *)
(** ** [generate_batch]: what is written *)

Lemma foldM_cover {A S} (f : A -> S -> outcome S) (R : S -> S -> Prop)
    (Post : A -> S -> Prop) (l : list A) :
  (forall s, R s s) ->
  (forall a b c, R a b -> R b c -> R a c) ->
  (forall x s s', In x l -> f x s = Ok s' -> R s s' /\ Post x s') ->
  (forall x s s', Post x s -> R s s' -> Post x s') ->
  forall s s', foldM f l s = Ok s' ->
               R s s' /\ forall x, In x l -> Post x s'.
Proof.
  intros Hrefl Htrans Hstep Hkeep.
  assert (H : forall l', incl l' l -> forall s s', foldM f l' s = Ok s' ->
                         R s s' /\ forall x, In x l' -> Post x s').
  { induction l' as [|y l' IH]; intros Hincl s s' Hf.
    - injection Hf as <-. split; [apply Hrefl|]. intros x [].
    - cbn [foldM] in Hf. destruct (f y s) as [s1|] eqn:E; [|discriminate].
      cbn [bind] in Hf.
      destruct (Hstep y s s1) as [HR HP]; [apply Hincl; left; reflexivity|
                                           exact E|].
      destruct (IH (fun z Hz => Hincl z (or_intror Hz)) s1 s' Hf)
        as [HR' HP'].
      split; [eapply Htrans; eassumption|].
      intros x [<-|Hx]; [eapply Hkeep; eassumption|apply HP', Hx]. }
  apply H. apply incl_refl.
Qed.

Lemma grows_refl st : grows st st.
Proof. repeat split; eauto. Qed.

Lemma grows_trans a b c : grows a b -> grows b c -> grows a c.
Proof.
  intros (L1 & T1 & S1 & K1) (L2 & T2 & S2 & K2). split; [congruence|].
  split; [auto|]. split; [auto|]. intros k v Hv Hne.
  destruct (K1 k v Hv Hne) as (v1 & Hv1 & Hne1). eauto.
Qed.

Lemma served_grows g x st st' : served g x st -> grows st st' -> served g x st'.
Proof.
  intros [Ht Hs] (L & T & S & _). split.
  - intros Hp. apply T, Ht. rewrite <- L. exact Hp.
  - intros Hh. apply S, Hs, Hh.
Qed.

Lemma nth_error_set_nth {A} (x : A) : forall l i,
  (i < List.length l)%nat -> nth_error (set_nth l i x) i = Some x.
Proof.
  induction l as [|y l IH]; intros [|i] H; simpl in *; try lia.
  - reflexivity.
  - apply IH. lia.
Qed.

Lemma in_combine_cover {A B} : forall (a : list A) (b : list B) y,
  List.length a = List.length b -> In y b -> exists x, In (x, y) (combine a b).
Proof.
  induction a as [|x a IH]; intros [|z b] y Hlen Hy; simpl in *;
    try contradiction; try discriminate.
  destruct Hy as [<-|Hy].
  - exists x. left. reflexivity.
  - destruct (IH b y) as [x' Hx']; [lia|exact Hy|]. exists x'. right. exact Hx'.
Qed.

Section Cover.

Variable g : vLLMGenerator.
Hypothesis Hanswers : engine_answers g.

Lemma update_serves s x until reqs0 w0 inst w1 :
  update_instance_with_result (cache_hook_set g) s (instance x) until w0
  = Ok (inst, w1) ->
  grows (reqs0, w0) (set_nth reqs0 (position x) inst, w1) /\
  served g x (set_nth reqs0 (position x) inst, w1).
Proof.
  clear Hanswers.
  intros Hup. unfold update_instance_with_result in Hup.
  destruct (match until with Some terms => truncate terms s | None => Ok s end)
    as [t|]; [|discriminate].
  cbn [bind] in Hup. injection Hup as <- <-.
  unfold grows, served. cbn [fst snd]. repeat split.
  - apply set_nth_length.
  - intros p (r & t' & Hr & Ht').
    destruct (Nat.eq_dec p (position x)) as [->|Hne].
    + eexists. exists t. split;
        [apply nth_error_set_nth; apply nth_error_Some; congruence|reflexivity].
    + exists r, t'. split; [|exact Ht']. rewrite set_nth_other; assumption.
  - intros k [t' Hk]. unfold add_partial, text_stored.
    destruct (cache_hook_set g); [|eauto].
    unfold set_dbdict. cbn [dbdict]. rewrite get_set.
    destruct (String.eqb _ k); eauto.
  - intros k v Hv Hne. unfold add_partial.
    destruct (cache_hook_set g); [|eauto].
    unfold set_dbdict. cbn [dbdict]. rewrite get_set.
    destruct (String.eqb _ k); [|eauto].
    eexists. split; [reflexivity|discriminate].
  - intros Hp. rewrite set_nth_length in Hp. eexists. exists t.
    split; [apply nth_error_set_nth; exact Hp|reflexivity].
  - intros Hh. unfold add_partial, text_stored. rewrite Hh.
    unfold set_dbdict. cbn [dbdict]. rewrite get_set.
    rewrite hash_args_set_result, String.eqb_refl. eauto.
Qed.

Lemma run_chunk_serves chunk st st' :
  run_chunk g chunk st = Ok st' ->
  grows st st' /\ forall x, In x chunk -> served g x st'.
Proof.
  destruct st as [reqs w0]. intros H. apply run_chunk_ok in H.
  destruct H as (first & rest & until & kw & v & n & cont & w1 & Echunk & Eu
                 & Emax & En & Eown & Eg & H).
  pose proof (model_generate_length g _ _ _ _ _ _ Hanswers Eg) as Hlen.
  rewrite length_map in Hlen.
  apply model_generate_run in Eg. destruct Eg as (Hdb1 & _ & _).
  cbn [dbdict set_base_kwargs] in Hdb1.
  assert (Hc : grows (reqs, w1) st' /\
               forall sx, In sx (combine cont chunk) -> served g (snd sx) st').
  { refine (foldM_cover _ grows (fun sx s => served g (snd sx) s) _
              grows_refl grows_trans _ _ _ _ H).
    - intros [s x] [reqs0 wa] s' _ Hf.
      destruct (update_instance_with_result _ _ _ _ _) as [[inst wb]|] eqn:Eup;
        [|discriminate].
      cbn [bind] in Hf. injection Hf as <-. cbn [snd].
      eapply update_serves. exact Eup.
    - intros sx s s'. apply served_grows. }
  destruct Hc as [Hgrow Hserved]. split.
  - eapply grows_trans; [|exact Hgrow]. unfold grows. cbn [fst snd].
    rewrite Hdb1. repeat split; eauto.
  - intros x Hx. destruct (in_combine_cover cont chunk x Hlen Hx) as [s Hs].
    apply (Hserved (s, x) Hs).
Qed.

Lemma generate_batch_serves requests w reqs' w' :
  generate_batch g requests w = Ok (reqs', w') ->
  grows (requests, w) (reqs', w') /\
  exists cs, List.length cs = List.length requests /\
             forall x, In x (items_of g 0 cs requests) -> served g x (reqs', w').
Proof.
  unfold generate_batch.
  destruct (contexts requests) as [cs|] eqn:Ec; [|discriminate]. cbn [bind].
  intros H.
  cut (grows (requests, w) (reqs', w') /\
       forall x, In x (items_of g 0 cs requests) -> served g x (reqs', w')).
  { intros [Hg Hs]. split; [exact Hg|]. exists cs.
    split; [apply contexts_length; exact Ec|exact Hs]. }
  set (n := match batch_size g with Some b => b | None => 0 end) in *.
  assert (Hc : grows (requests, w) (reqs', w') /\
               forall kg, In kg (get_grouped (items_of g 0 cs requests)) ->
                          forall x, In x (snd kg) -> served g x (reqs', w')).
  { refine (foldM_cover _ grows
              (fun kg s => forall x, In x (snd kg) -> served g x s) _
              grows_refl grows_trans _ _ _ _ H).
    - intros [key group] st st' _ Hg. cbn [snd].
      assert (Hc : grows st st' /\
                   forall chunk, In chunk (chunks group n) ->
                                 forall x, In x chunk -> served g x st').
      { refine (foldM_cover _ grows
                  (fun chunk s => forall x, In x chunk -> served g x s) _
                  grows_refl grows_trans _ _ _ _ Hg).
        - intros chunk s1 s2 _. apply run_chunk_serves.
        - intros chunk s1 s2 Hc Hgr x Hx. eapply served_grows; eauto. }
      destruct Hc as [Hgrow Hs]. split; [exact Hgrow|]. intros x Hx.
      rewrite <- (chunks_concat group n) in Hx.
      apply in_concat in Hx. destruct Hx as (chunk & Hc & Hx).
      apply (Hs chunk Hc x Hx).
    - intros kg s1 s2 Hc Hgr x Hx. eapply served_grows; eauto. }
  destruct Hc as [Hgrow Hserved]. split; [exact Hgrow|].
  intros x Hx. apply get_grouped_items in Hx. unfold all_items in Hx.
  apply in_concat in Hx. destruct Hx as (grp & Hg & Hx).
  apply in_map_iff in Hg. destruct Hg as ([key grp'] & <- & Hg).
  apply (Hserved (key, grp') Hg x Hx).
Qed.

End Cover.

Lemma generate_batch_length g requests w reqs' w' :
  generate_batch g requests w = Ok (reqs', w') ->
  List.length reqs' = List.length requests.
Proof.
  intros H. apply generate_batch_frame in H. destruct H as (Ha & _).
  cbn [fst] in Ha. rewrite <- (length_map args reqs'), Ha. apply length_map.
Qed.

Lemma generate_batch_texts g requests w reqs' w' :
  engine_answers g ->
  generate_batch g requests w = Ok (reqs', w') ->
  Forall has_text reqs'.
Proof.
  intros Hans H. pose proof (generate_batch_length _ _ _ _ _ H) as Hlen.
  destruct (generate_batch_serves g Hans requests w reqs' w' H)
    as (_ & cs & Hcs & Hserved).
  apply Forall_forall. intros r Hr. apply In_nth_error in Hr.
  destruct Hr as [i Hi].
  assert (Hlt : (i < List.length requests)%nat).
  { rewrite <- Hlen. apply nth_error_Some. congruence. }
  destruct (items_of_cover g cs requests 0 i Hcs Hlt) as (x & Hx & Hp).
  destruct (Hserved x Hx) as [Ht _]. cbn [fst] in Ht. simpl in Hp.
  rewrite Hp in Ht. destruct Ht as (r' & t & Hr' & Ht); [lia|].
  exists t. congruence.
Qed.

(** X8. When the engine answers every prompt, a [generate_batch] that
    returns has written a text into the result of every request; with a
    cache hook the store then holds a text under the key of every request. *)
Theorem generate_batch_answers_every_request (g : vLLMGenerator)
    (requests : list Instance) (w : world) (reqs' : list Instance)
    (w' : world) :
  engine_answers g ->
  generate_batch g requests w = Ok (reqs', w') ->
  Forall has_text reqs' /\
  (cache_hook_set g = true ->
   forall r, In r requests ->
     exists t, Dict.get (dbdict w') (hash_args "generate_batch" r)
               = Some (VStr t)).
Proof.
  intros Hans H. split; [eapply generate_batch_texts; eassumption|].
  destruct (generate_batch_serves g Hans requests w reqs' w' H)
    as (_ & cs & Hcs & Hserved).
  intros Hh r Hr. apply In_nth_error in Hr. destruct Hr as [i Hi].
  assert (Hlt : (i < List.length requests)%nat).
  { apply nth_error_Some. congruence. }
  destruct (items_of_cover g cs requests 0 i Hcs Hlt) as (x & Hx & Hp).
  destruct (Hserved x Hx) as [_ Hs]. cbn [snd] in Hs.
  destruct (items_of_ok g cs requests 0 x Hx) as (j & Hj & Hn).
  assert (instance x = r) by (simpl in Hp, Hj; congruence).
  subst r. apply Hs, Hh.
Qed.

(** [generate_batch] as the dispatcher sees it. *)
Lemma generate_batch_method_run g reqs w vals w1 :
  engine_answers g ->
  generate_batch_method g reqs w = Ok (vals, w1) ->
  List.length vals = List.length reqs /\
  Forall (fun v => v <> VNone) vals /\
  (forall k v, Dict.get (dbdict w) k = Some v -> v <> VNone ->
     exists v', Dict.get (dbdict w1) k = Some v' /\ v' <> VNone).
Proof.
  intros Hans H. unfold generate_batch_method in H.
  destruct (generate_batch g reqs w) as [[reqs' w']|] eqn:E; [|discriminate].
  cbn [bind] in H. injection H as <- <-.
  split; [rewrite length_map; eapply generate_batch_length; exact E|].
  split.
  - apply Forall_map. eapply Forall_impl;
      [|eapply generate_batch_texts; eassumption].
    intros r [t Ht]. rewrite Ht. discriminate.
  - destruct (generate_batch_serves g Hans reqs w reqs' w' E)
      as ((_ & _ & _ & K) & _). exact K.
Qed.

(* ------------------------------------------------------------------ *)
(** ** [generate_batch]: the end-of-text stop *)












Section Answers.

Variable g : vLLMGenerator.
Variable stops : list string.
Variable kw : Dict.t value.



End Answers.






Section EosStop.

Variable g : vLLMGenerator.
Variable requests : list Instance.
Variable w : world.








End EosStop.



(* ------------------------------------------------------------------ *)
(** ** [generate_batch]: the prompts sent *)

Lemma In_islice {A} (p : A) : forall l c n, In p (islice l c n) -> In p l.
Proof.
  induction l as [|x l IH]; intros c n H; [contradiction|].
  destruct c as [|c]; cbn [islice] in H.
  - destruct H as [<-|H]; [left; reflexivity|right; eapply IH; exact H].
  - right. eapply IH. exact H.
Qed.

Lemma items_of_context g : forall requests cs p x,
  contexts requests = Ok cs -> In x (items_of g p cs requests) ->
  context_encoding x = tokenize g (context x) /\
  In (instance x) requests /\
  exists rest, args (instance x) = VStr (context x) :: rest.
Proof.
  induction requests as [|r rs IH]; intros cs p x Hc Hx.
  - injection Hc as <-. contradiction.
  - cbn [contexts] in Hc. destruct (args r) as [|[| | | |c| |] rest] eqn:Ea;
      try discriminate.
    destruct (contexts rs) as [cs'|] eqn:Ecs; [|discriminate].
    cbn [bind] in Hc. injection Hc as <-. cbn [items_of] in Hx.
    destruct Hx as [<-|Hx].
    + cbn [context_encoding context instance]. split; [reflexivity|].
      split; [left; reflexivity|]. exists rest. exact Ea.
    + destruct (IH cs' (S p) x eq_refl Hx) as (He & Hin & Hrest).
      split; [exact He|]. split; [right; exact Hin|exact Hrest].
Qed.

Lemma run_chunk_calls g ok w chunk st st' :
  (forall x, In x chunk -> ok x) ->
  run_chunk g chunk st = Ok st' ->
  calls_inv g ok w st -> calls_inv g ok w st'.
Proof.
  intros Hok. destruct st as [reqs w0]. intros H (calls0 & Hlog0 & Hcalls0).
  cbn [snd] in Hlog0. apply run_chunk_ok in H.
  destruct H as (first & rest & until & kw & v & max_tokens & cont & w1
                 & Echunk & Eu & Emax & En & Eown & Eg & H).
  set (encs := map (fun x => slice_from (- (max_length g - max_tokens))
                                        (context_encoding x)) chunk) in *.
  assert (Hnew : exists calls,
             engine_log w1 = (engine_log w0 ++ calls)%list /\
             Forall (call_of_items g ok) calls).
  { assert (Hp : forall part, (forall p, In p part -> In p encs) ->
               call_of_items g ok
                 {| prompt_token_ids := part;
                    stop := add_eos until (eos g);
                    sampling_kwargs := modify_gen_kwargs kw |}).
    { intros part Hpart. exists v, max_tokens. cbn [sampling_kwargs].
      split; [rewrite get_modify_other by reflexivity; exact Emax|].
      split; [exact En|].
      cbn [prompt_token_ids]. apply Forall_forall. intros p Hin.
      apply Hpart in Hin. unfold encs in Hin. apply in_map_iff in Hin.
      destruct Hin as (x & <- & Hx). exists x.
      split; [apply Hok; exact Hx|].
      reflexivity. }
    apply model_generate_run in Eg.
    destruct Eg as (_ & _ & [(_ & _ & Hlog)|
                             (_ & parts & results & -> & _ & _ & Hlog)]);
      cbn [engine_log set_base_kwargs] in Hlog.
    - eexists. split; [exact Hlog|]. constructor; [|constructor].
      apply Hp. auto.
    - eexists. split; [exact Hlog|]. apply Forall_forall. intros c Hc.
      apply in_map_iff in Hc. destruct Hc as (part & <- & Hpart).
      apply Hp. apply in_map_iff in Hpart. destruct Hpart as (i & <- & _).
      intros p. apply In_islice. }
  destruct Hnew as (calls1 & Hlog1 & Hcalls1).
  refine (foldM_inv _ (calls_inv g ok w) _ _ _ _ H _).
  - intros [s x] [reqs0 wa] s' Hf Hinv.
    destruct (update_instance_with_result _ _ _ _ _) as [[inst wb]|] eqn:Eup;
      [|discriminate].
    cbn [bind] in Hf. injection Hf as <-.
    apply update_result in Eup. destruct Eup as (t & _ & _ & Hlogb & _).
    unfold calls_inv in *. cbn [snd] in *. rewrite Hlogb. exact Hinv.
  - exists (calls0 ++ calls1)%list. cbn [snd]. split.
    + rewrite Hlog1, Hlog0, app_assoc. reflexivity.
    + apply Forall_app. split; assumption.
Qed.

(** X9. The prompts that [generate_batch] sends leave room for the answer.
    Every engine call of the batch carries its [max_tokens], an integer (a
    [bool] counts, as 0 or 1), and each of its prompts is the tokenized
    context of a request of the batch cut from the left by
    [x[-(max_length - max_tokens):]]: at most [max_length - max_tokens]
    tokens when that is positive, and the whole context when it is zero. *)
Theorem prompts_leave_room_for_the_answer (g : vLLMGenerator)
    (requests : list Instance) (w : world) (reqs' : list Instance)
    (w' : world) :
  generate_batch g requests w = Ok (reqs', w') ->
  exists calls,
    engine_log w' = (engine_log w ++ calls)%list /\
    Forall (fun c =>
      exists v n,
        Dict.get (sampling_kwargs c) "max_tokens" = Some v /\
        int_of v = Some n /\
        Forall (fun p =>
          exists r text rest,
            In r requests /\ args r = VStr text :: rest /\
            p = slice_from (- (max_length g - n)) (tokenize g text) /\
            (n < max_length g ->
             Z.of_nat (List.length p) <= max_length g - n) /\
            (n = max_length g -> p = tokenize g text))
          (prompt_token_ids c)) calls.
Proof.
  unfold generate_batch.
  destruct (contexts requests) as [cs|] eqn:Ec; [|discriminate]. cbn [bind].
  intros H.
  set (ok := fun x => In x (items_of g 0 cs requests)).
  assert (Hinv : calls_inv g ok w (reqs', w')).
  { refine (foldM_track _ (fun _ s => calls_inv g ok w s) _ _ _ _ _ H).
    - intros _ [key group] st st' Hin Hs Hg.
      refine (foldM_track _ (fun _ s => calls_inv g ok w s) _ _ _ _ Hs Hg).
      intros _ chunk s1 s2 Hc Hs1 Hrun.
      eapply run_chunk_calls; [|exact Hrun|exact Hs1].
      intros x Hx. unfold ok. eapply chunk_items; eassumption.
    - exists []. split; [cbn [snd]; rewrite app_nil_r; reflexivity|constructor]. }
  destruct Hinv as (calls & Hlog & Hcalls). exists calls.
  split; [exact Hlog|]. eapply Forall_impl; [|exact Hcalls].
  intros c (v & n & Hv & Hn & Hps). exists v, n. split; [exact Hv|].
  split; [exact Hn|]. eapply Forall_impl; [|exact Hps].
  intros p (x & Hx & ->).
  destruct (items_of_context g requests cs 0 x Ec Hx) as (-> & Hin & rest & Ha).
  exists (instance x), (context x), rest.
  split; [exact Hin|]. split; [exact Ha|]. split; [reflexivity|]. split.
  - intros Hlt. rewrite slice_from_last by lia. rewrite length_skipn. lia.
  - intros ->. rewrite Z.sub_diag. change (- 0) with 0.
    rewrite slice_from_nonneg by lia. reflexivity.
Qed.

(* ================================================================== *)
(** * The cache and the generator together; single steps *)

(* ------------------------------------------------------------------ *)
(** ** The cache in front of the vLLM generator *)

Lemma exempt_ext attr r r' :
  kwargs r' = kwargs r -> exempt attr r' = exempt attr r.
Proof. intros Hk. unfold exempt. rewrite Hk. reflexivity. Qed.

(** The dispatcher's run, read back from its result. *)
Lemma fn_inversion (lm_attr : lm_method) attr requests w final w' :
  fn lm_attr attr requests w = Ok (final, w') ->
  Forall (well_formed attr (dbdict w)) requests /\
  exists vals w1,
    lm_attr (filter (queued attr (dbdict w)) requests) w = Ok (vals, w1) /\
    exists res,
      final = write_results requests res /\
      (Forall (fun r => result r <> VNone)
              (write_results (filter (queued attr (dbdict w)) requests) vals) ->
       w' = set_dbdict w1
              (store_all attr
                 (write_results (filter (queued attr (dbdict w)) requests)
                                vals)
                 (dbdict w1))).
Proof.
  intros H.
  assert (Hwf : Forall (well_formed attr (dbdict w)) requests).
  { unfold fn in H.
    destruct (check_cached attr (dbdict w) requests [] []) as [out|] eqn:E;
      [|discriminate].
    eapply check_cached_ok_wf. exact E. }
  split; [exact Hwf|].
  destruct (lm_attr (filter (queued attr (dbdict w)) requests) w)
    as [[vals w1]|] eqn:Elm.
  - exists vals, w1. split; [reflexivity|].
    pose proof H as H0. unfold fn in H0.
    rewrite check_cached_run in H0 by assumption. cbn [bind app] in H0.
    rewrite Elm in H0. cbn [bind] in H0.
    destruct (store_new _ _ _ _ _) as [[res' db']|]; [|discriminate].
    cbn [bind] in H0. injection H0 as <- <-. exists res'.
    split; [reflexivity|]. intros Hres.
    rewrite (fn_run lm_attr attr requests w vals w1 Hwf Elm Hres) in H.
    injection H as _ <-. reflexivity.
  - unfold fn in H. rewrite check_cached_run in H by assumption.
    cbn [bind app] in H. rewrite Elm in H. discriminate.
Qed.

(** X5. A batch that went through the cache on top of the vLLM generator is
    served from the store the next time: when the engine answers every
    prompt, after a dispatch of [generate_batch] every request that is
    looked up has a stored value, only the requests that ask for sampling
    are queued again, and when there are none the second dispatch leaves the
    engine and the store alone. *)
Theorem batch_is_cached_for_next_time (g : vLLMGenerator)
    (requests : list Instance) (w : world) (final : list Instance)
    (w' : world) :
  engine_answers g ->
  fn (generate_batch_method g) "generate_batch" requests w = Ok (final, w') ->
  Forall (well_formed "generate_batch" (dbdict w')) final /\
  filter (queued "generate_batch" (dbdict w')) final
  = filter (exempt "generate_batch") final /\
  (filter (exempt "generate_batch") final = [] ->
   exists final2,
     fn (generate_batch_method g) "generate_batch" final w'
     = Ok (final2, w') /\
     Forall (fun r => result r <> VNone) final2).
Proof.
  intros Hans H.
  destruct (fn_inversion _ _ _ _ _ _ H)
    as (Hwf & vals & w1 & Hlm & res & -> & Hw').
  destruct (generate_batch_method_run g _ w vals w1 Hans Hlm)
    as (Hlen & Hvals & Hkeep).
  assert (Hres : Forall (fun r => result r <> VNone)
            (write_results
               (filter (queued "generate_batch" (dbdict w)) requests) vals)).
  { apply (proj1 (Forall_map result (fun v => v <> VNone) _)).
    rewrite write_results_result by exact Hlen. exact Hvals. }
  specialize (Hw' Hres).
  set (db' := store_all _ _ _) in Hw'.
  assert (Hdb' : dbdict w' = db') by (subst w'; reflexivity).
  clear Hw'. rewrite Hdb'.
  assert (Hq : Forall (well_formed "generate_batch" db')
                      (write_results requests res) /\
               filter (queued "generate_batch" db')
                      (write_results requests res)
               = filter (exempt "generate_batch")
                        (write_results requests res)).
  { apply only_exempt_queued. intros r' Hr' He.
    destruct (in_write_results requests res r' Hr') as (r & Hr & Ha & Hk).
    rewrite (hash_args_ext "generate_batch" r r' Ha Hk).
    rewrite (exempt_ext "generate_batch" r r' Hk) in He.
    apply dispatch_caches_looked_up; assumption. }
  destruct Hq as [Hwf' Hq]. split; [exact Hwf'|]. split; [exact Hq|].
  intros Hnone. rewrite Hnone in Hq.
  eexists. split.
  - unfold fn. rewrite Hdb', check_cached_run by exact Hwf'.
    cbn [bind app]. rewrite Hq, generate_batch_nothing. cbn [bind].
    cbn [write_results store_new bind].
    rewrite set_dbdict_same. reflexivity.
  - apply (proj1 (Forall_map result (fun v => v <> VNone) _)).
    rewrite write_results_result by (rewrite length_map; reflexivity).
    apply Forall_forall. intros v Hv. apply in_map_iff in Hv.
    destruct Hv as (r & <- & Hr). unfold slot.
    rewrite Forall_forall in Hwf'. pose proof (Hwf' r Hr) as Hw.
    unfold well_formed in Hw.
    assert (Hqr : queued "generate_batch" db' r = false).
    { destruct (queued "generate_batch" db' r) eqn:E; [|reflexivity].
      assert (Hin : In r (filter (queued "generate_batch" db')
                                 (write_results requests res)))
        by (apply filter_In; split; assumption).
      rewrite Hq in Hin. contradiction. }
    unfold queued in Hqr.
    destruct (cached "generate_batch" db' r) as [ob|]; [congruence|discriminate].
Qed.

(* ------------------------------------------------------------------ *)
(** ** Stop sequences, again *)

(** X12. Cutting is idempotent, and stops that are repeated change nothing:
    a text that [update_instance_with_result] has cut stays as it is when it
    is cut again with the same stop sequences, and a stop list that is
    followed by stops it already holds (the end-of-text string appended once
    more) cuts every text as the list itself does. *)
Theorem truncation_is_idempotent (until : list string) (text : string) :
  exists t,
    truncate until text = Ok t /\
    truncate until t = Ok t /\
    (forall more,
        (forall term, In term more -> nonempty term = true -> In term until) ->
        truncate (until ++ more) text = Ok t) /\
    (forall hooked instance w,
        update_instance_with_result hooked t instance (Some until) w
        = update_instance_with_result hooked text instance (Some until) w).
Proof.
  destruct (truncate_total until text) as [t Ht]. exists t.
  assert (Hfree : forall term, In term until -> nonempty term = true ->
                               occurs term t = false)
    by (intros term Hin Hne; eapply truncate_free; eassumption).
  assert (Hidem : truncate until t = Ok t) by (apply truncate_same, Hfree).
  split; [exact Ht|]. split; [exact Hidem|]. split.
  - intros more Hmore. rewrite truncate_app, Ht. cbn [bind].
    apply truncate_same. intros term Hin Hne. apply Hfree; auto.
  - intros hooked instance w. unfold update_instance_with_result.
    rewrite Ht, Hidem. reflexivity.
Qed.

(* ------------------------------------------------------------------ *)
(** ** The keys of the engine parameters *)

Lemma unpack_stops base gk max_gen until kw :
  unpack_kwargs max_gen base gk = Ok (until, kw) ->
  exists k1,
    (forall k, Dict.get k1 k
               = if String.eqb "stop_sequences" k then None
                 else Dict.get (Dict.update base gk) k) /\
    kw = move_key
           (move_key
              (move_key (Dict.set k1 "max_tokens" (VInt max_gen))
                        "max_new_tokens" "max_tokens" (fun v => v))
              "min_new_tokens" "min_tokens" (fun v => v))
           "decoding_method" "do_sample"
           (fun v => VBool (value_eqb v (VStr "sample"))).
Proof.
  unfold unpack_kwargs. set (merged := Dict.update base gk).
  destruct (Dict.get merged "stop_sequences") as [u|] eqn:Es.
  - destruct (stop_list u) as [l|]; [|discriminate]. cbn [bind].
    intros H. injection H as _ <-. eexists. split; [|reflexivity].
    intros k. apply get_remove.
  - cbn [bind]. intros H. injection H as _ <-. eexists.
    split; [|reflexivity].
    intros k. destruct (String.eqb "stop_sequences" k) eqn:E; [|reflexivity].
    apply String.eqb_eq in E. subst k. exact Es.
Qed.

(** X11. The engine never sees the generator's own option names.  Whatever
    the defaults and the request hold, the parameters of an engine call have
    no [stop_sequences], [max_new_tokens], [min_new_tokens],
    [decoding_method] or [do_sample]; they always have [max_tokens],
    [temperature], [skip_special_tokens] and
    [spaces_between_special_tokens]; every other key but [min_tokens] is
    passed on as the merged keyword arguments have it. *)
Theorem engine_parameters_keys (max_gen : Z) (base gk : Dict.t value)
    (until : option (list string)) (kw : Dict.t value) :
  unpack_kwargs max_gen base gk = Ok (until, kw) ->
  let params := modify_gen_kwargs kw in
  (forall k, In k ["stop_sequences"; "max_new_tokens"; "min_new_tokens";
                   "decoding_method"; "do_sample"] ->
             Dict.get params k = None) /\
  (forall k, In k ["max_tokens"; "temperature"; "skip_special_tokens";
                   "spaces_between_special_tokens"] ->
             Dict.contains params k = true) /\
  (forall k, ~ In k ["stop_sequences"; "max_new_tokens"; "min_new_tokens";
                     "decoding_method"; "do_sample"; "max_tokens";
                     "temperature"; "skip_special_tokens";
                     "spaces_between_special_tokens"; "min_tokens"] ->
             Dict.get params k = Dict.get (Dict.update base gk) k).
Proof.
  intros H params. apply unpack_stops in H. destruct H as (k1 & Hk1 & ->).
  set (merged := Dict.update base gk) in *.
  split; [|split].
  - intros k Hk. cbn [In] in Hk.
    destruct Hk as [<-|[<-|[<-|[<-|[<-|[]]]]]]; unfold params.
    + rewrite get_modify_other by reflexivity. dict_simpl. rewrite !Hk1.
      cbn [String.eqb Ascii.eqb Bool.eqb].
      destruct (Dict.get merged "decoding_method"),
        (Dict.get merged "min_new_tokens"),
        (Dict.get merged "max_new_tokens");
        cbn [String.eqb Ascii.eqb Bool.eqb]; rewrite ?Hk1; reflexivity.
    + rewrite get_modify_other by reflexivity. dict_simpl. rewrite !Hk1.
      cbn [String.eqb Ascii.eqb Bool.eqb].
      destruct (Dict.get merged "decoding_method"),
        (Dict.get merged "min_new_tokens"),
        (Dict.get merged "max_new_tokens");
        cbn [String.eqb Ascii.eqb Bool.eqb]; rewrite ?Hk1; reflexivity.
    + rewrite get_modify_other by reflexivity. dict_simpl. rewrite !Hk1.
      cbn [String.eqb Ascii.eqb Bool.eqb].
      destruct (Dict.get merged "decoding_method"),
        (Dict.get merged "min_new_tokens"),
        (Dict.get merged "max_new_tokens");
        cbn [String.eqb Ascii.eqb Bool.eqb]; rewrite ?Hk1; reflexivity.
    + rewrite get_modify_other by reflexivity. dict_simpl. rewrite !Hk1.
      cbn [String.eqb Ascii.eqb Bool.eqb].
      destruct (Dict.get merged "decoding_method"),
        (Dict.get merged "min_new_tokens"),
        (Dict.get merged "max_new_tokens");
        cbn [String.eqb Ascii.eqb Bool.eqb]; rewrite ?Hk1; reflexivity.
    + unfold modify_gen_kwargs. rewrite !get_set.
      cbn [String.eqb Ascii.eqb Bool.eqb].
      destruct (_ || _); rewrite ?get_set, get_remove; reflexivity.
  - intros k Hk. cbn [In] in Hk. unfold Dict.contains.
    destruct Hk as [<-|[<-|[<-|[<-|[]]]]]; unfold params.
    + rewrite get_modify_other by reflexivity. dict_simpl. rewrite !Hk1.
      cbn [String.eqb Ascii.eqb Bool.eqb].
      destruct (Dict.get merged "decoding_method"),
        (Dict.get merged "min_new_tokens"),
        (Dict.get merged "max_new_tokens");
        cbn [String.eqb Ascii.eqb Bool.eqb]; reflexivity.
    + rewrite get_modify_temperature.
      destruct (_ || _) eqn:E; [reflexivity|].
      apply orb_false_iff in E. destruct E as [_ E].
      apply negb_false_iff in E. unfold Dict.contains in E.
      destruct (Dict.get _ "temperature"); [reflexivity|discriminate].
    + unfold modify_gen_kwargs. rewrite !get_set.
      cbn [String.eqb Ascii.eqb Bool.eqb]. reflexivity.
    + unfold modify_gen_kwargs. rewrite !get_set.
      cbn [String.eqb Ascii.eqb Bool.eqb]. reflexivity.
  - intros k Hk. cbn [In] in Hk.
    assert (Hne : forall s, In s ["stop_sequences"; "max_new_tokens";
                     "min_new_tokens"; "decoding_method"; "do_sample";
                     "max_tokens"; "temperature"; "skip_special_tokens";
                     "spaces_between_special_tokens"; "min_tokens"] ->
                   String.eqb s k = false).
    { intros s Hs. apply String.eqb_neq. intros <-. apply Hk. exact Hs. }
    unfold params.
    rewrite get_modify_other by (apply Hne; cbn [In]; tauto).
    assert (Hkk : Dict.get k1 k = Dict.get merged k)
      by (rewrite Hk1, Hne by (cbn [In]; tauto); reflexivity).
    rewrite !get_move_key, !get_set.
    repeat rewrite (Hne "max_new_tokens") by (cbn [In]; tauto).
    repeat rewrite (Hne "min_new_tokens") by (cbn [In]; tauto).
    repeat rewrite (Hne "decoding_method") by (cbn [In]; tauto).
    repeat rewrite (Hne "do_sample") by (cbn [In]; tauto).
    repeat rewrite (Hne "max_tokens") by (cbn [In]; tauto).
    repeat rewrite (Hne "min_tokens") by (cbn [In]; tauto).
    rewrite !Hkk. cbn [String.eqb Ascii.eqb Bool.eqb].
    destruct (Dict.get k1 "max_new_tokens"), (Dict.get k1 "min_new_tokens"),
      (Dict.get k1 "decoding_method"); reflexivity.
Qed.

(* ------------------------------------------------------------------ *)
(** ** Scoring with no context token left *)

Section ScoringEdge.

Context {num : Type} (zero : num) (add : num -> num -> num).

(** X13. The source assumes [ctxlen >= 1].  When the continuation fills the
    window exactly, or the encoded context is empty and the continuation
    fits, [ctxlen] is 0, the scored input is the continuation alone, and,
    the first entry of [prompt_logprobs] being [None], the sum raises
    [AttributeError]. *)
Theorem no_context_token_raises (max_length_ : Z)
    (engine_logprobs : list Z -> list (option (logprob_dict num)))
    (context_enc continuation_enc : list Z) :
  continuation_enc <> [] ->
  (context_enc = [] /\
   Z.of_nat (List.length continuation_enc) <= max_length_) \/
  Z.of_nat (List.length continuation_enc) = max_length_ ->
  (exists rest, engine_logprobs continuation_enc = None :: rest) ->
  loglikelihood_ctxlen max_length_ context_enc continuation_enc = 0 /\
  loglikelihood_inp max_length_ context_enc continuation_enc
  = continuation_enc /\
  loglikelihood_one num zero add max_length_ engine_logprobs
                    context_enc continuation_enc
  = Raise AttributeError.
Proof.
  intros Hne Hcase [rest Hrest].
  assert (Hpos : (0 < List.length continuation_enc)%nat)
    by (destruct continuation_enc; [contradiction|simpl; lia]).
  assert (Hctx : loglikelihood_ctxlen max_length_ context_enc continuation_enc
                 = 0).
  { unfold loglikelihood_ctxlen.
    destruct Hcase as [[-> Hle]|Heq]; simpl List.length; lia. }
  assert (Hinp : loglikelihood_inp max_length_ context_enc continuation_enc
                 = continuation_enc).
  { unfold loglikelihood_inp. rewrite slice_from_last by lia.
    rewrite length_app, Nat2Z.inj_add.
    destruct Hcase as [[-> Hle]|Heq].
    - cbn [List.length app]. rewrite Z.max_l by lia. reflexivity.
    - rewrite <- Heq.
      replace (Z.to_nat (Z.max 0 _)) with (List.length context_enc) by lia.
      rewrite skipn_app, skipn_all, Nat.sub_diag. reflexivity. }
  split; [exact Hctx|]. split; [exact Hinp|].
  unfold loglikelihood_one, _parse_logprobs. rewrite Hctx, Hinp, Hrest.
  rewrite !slice_from_nonneg by lia. cbn [Z.to_nat skipn].
  destruct continuation_enc as [|c cs]; [contradiction|]. reflexivity.
Qed.

End ScoringEdge.

Lemma no_context_token_raises_witness :
  loglikelihood_ctxlen 3 [1; 2] [10; 11; 12] = 0 /\
  loglikelihood_one Z 0 Z.add 3
    (fun inp => None :: map (fun t => Some [(t, -1)]) (tl inp))
    [1; 2] [10; 11; 12]
  = Raise AttributeError.
Proof.
  destruct (no_context_token_raises 0 Z.add 3
              (fun inp => None :: map (fun t => Some [(t, -1)]) (tl inp))
              [1; 2] [10; 11; 12])
    as (Hctx & _ & Hraise).
  - discriminate.
  - right. reflexivity.
  - eexists. reflexivity.
  - split; [exact Hctx|exact Hraise].
Defined.

(* ------------------------------------------------------------------ *)
(** ** Encoding a context and its continuation *)

Lemma rstrip_split : forall s,
  exists sfx, s = rstrip s ++ sfx /\ all_space sfx = true /\
              (rstrip s = EmptyString -> sfx = s).
Proof.
  induction s as [|c tl (sfx & Hs & Ha & He)].
  - exists EmptyString. repeat split.
  - cbn [rstrip]. destruct (rstrip tl) as [|c' r'] eqn:Er.
    + destruct (is_space c) eqn:Ec.
      * exists (String c tl). split; [reflexivity|].
        split; [|reflexivity]. cbn [all_space]. rewrite Ec.
        rewrite (He eq_refl) in Ha. exact Ha.
      * exists sfx. split; [|split; [exact Ha|discriminate]].
        cbn [append]. f_equal. exact Hs.
    + exists sfx. split; [|split; [exact Ha|discriminate]].
      cbn [append]. f_equal. exact Hs.
Qed.

Lemma substring_whole : forall s, substring 0 (String.length s) s = s.
Proof. induction s as [|c s IH]; simpl; [reflexivity|]. rewrite IH. reflexivity. Qed.

Lemma substring_head : forall a b,
  substring 0 (String.length a) (a ++ b) = a.
Proof.
  induction a as [|c a IH]; intros b; simpl.
  - destruct b; reflexivity.
  - rewrite IH. reflexivity.
Qed.

Lemma substring_tail : forall a b,
  substring (String.length a) (String.length b) (a ++ b) = b.
Proof.
  induction a as [|c a IH]; intros b; simpl; [apply substring_whole|apply IH].
Qed.

Lemma rstrip_stable : forall s, rstrip (rstrip s) = rstrip s.
Proof.
  induction s as [|c tl IH]; [reflexivity|].
  cbn [rstrip]. destruct (rstrip tl) as [|c' r'] eqn:Er.
  - destruct (is_space c) eqn:Ec; [reflexivity|].
    cbn [rstrip]. rewrite Ec. reflexivity.
  - cbn [rstrip]. cbn [rstrip] in IH. rewrite IH. reflexivity.
Qed.

Lemma move_trailing_spaces_split context_ continuation :
  exists sfx,
    context_ = rstrip context_ ++ sfx /\ all_space sfx = true /\
    move_trailing_spaces context_ continuation
    = (rstrip context_, sfx ++ continuation).
Proof.
  destruct (rstrip_split context_) as (sfx & Hs & Ha & _).
  exists sfx. split; [exact Hs|]. split; [exact Ha|].
  unfold move_trailing_spaces. set (r := rstrip context_) in *.
  assert (Hlen : String.length context_
                 = (String.length r + String.length sfx)%nat)
    by (rewrite Hs at 1; apply length_append).
  rewrite Hlen.
  replace (String.length r + String.length sfx - String.length r)%nat
    with (String.length sfx) by lia.
  destruct (0 <? String.length sfx)%nat eqn:E.
  - unfold drop_last, take_last. rewrite Hlen.
    replace (String.length r + String.length sfx - String.length sfx)%nat
      with (String.length r) by lia.
    clearbody r. subst context_.
    rewrite substring_head, substring_tail. reflexivity.
  - apply Nat.ltb_ge in E. destruct sfx; [|simpl in E; lia].
    rewrite append_empty_r in Hs. rewrite <- Hs. reflexivity.
Qed.

(** X14. [_encode_pair] moves the trailing whitespace of the context to the
    continuation and never loses text.  The context that is encoded is
    [context.rstrip()]; for a decoder-only model the whole encoding is that
    of the unchanged text [context + continuation], the continuation tokens
    are what follows the first [len(context_enc)] of it, and the two parts
    give back the whole encoding whenever the encoding of the stripped
    context is a prefix of it.  For a sequence-to-sequence model the
    continuation is encoded by itself, with the special tokens that
    [add_bos_token] asks for although [add_special_tokens=False] is passed. *)
Theorem encode_pair_keeps_the_text (s : LMScorer)
    (context_ continuation : string) :
  let whole := encode s (context_ ++ continuation) (add_bos_token s) false in
  let context_enc := fst (_encode_pair s context_ continuation) in
  let continuation_enc := snd (_encode_pair s context_ continuation) in
  context_enc = encode s (rstrip context_) (add_bos_token s) false /\
  (seq2seq s = false ->
   continuation_enc = skipn (List.length context_enc) whole /\
   ((exists rest, whole = (context_enc ++ rest)%list) ->
    (context_enc ++ continuation_enc)%list = whole)) /\
  (seq2seq s = true ->
   exists sfx,
     context_ = rstrip context_ ++ sfx /\ all_space sfx = true /\
     continuation_enc
     = encode s (sfx ++ continuation) (add_bos_token s) false).
Proof.
  intros whole context_enc continuation_enc.
  destruct (move_trailing_spaces_split context_ continuation)
    as (sfx & Hs & Ha & Hm).
  unfold context_enc, continuation_enc, _encode_pair. rewrite Hm.
  assert (Hw : tok_encode s (rstrip context_ ++ sfx ++ continuation)
                          None None false = whole).
  { unfold tok_encode, whole. rewrite <- append_assoc, <- Hs. reflexivity. }
  destruct (seq2seq s) eqn:E; cbn [fst snd].
  - split; [reflexivity|]. split; [discriminate|]. intros _.
    exists sfx. split; [exact Hs|]. split; [exact Ha|]. reflexivity.
  - split; [reflexivity|]. split; [|discriminate]. intros _.
    rewrite Hw. rewrite slice_from_nonneg by lia. rewrite Nat2Z.id.
    split; [reflexivity|]. intros [rest Hrest].
    unfold tok_encode at 1 2. cbn [orb].
    unfold tok_encode in Hrest. cbn [orb] in Hrest.
    rewrite Hrest at 1. rewrite skipn_app, skipn_all, Nat.sub_diag.
    cbn [skipn app]. symmetry. exact Hrest.
Qed.

(** X15. In [loglikelihood] an empty context is replaced by the prefix
    token, but a context of whitespace only is not: its whitespace moves to
    the continuation and the empty string is encoded as the context. *)
Theorem blank_context_is_not_the_empty_context (s : LMScorer)
    (req : Instance) (context_ continuation : string) :
  args req = [VStr context_; VStr continuation] ->
  all_space context_ = true ->
  exists continuation_enc,
    encode_request s req
    = Ok (match context_ with
          | EmptyString => [prefix_token_id s]
          | String _ _ => encode s EmptyString (add_bos_token s) false
          end, continuation_enc, req) /\
    (seq2seq s = true \/ context_ = EmptyString ->
     continuation_enc
     = encode s (context_ ++ continuation) (add_bos_token s) false).
Proof.
  intros Hargs Hblank. unfold encode_request. rewrite Hargs.
  destruct context_ as [|c tl] eqn:Ec.
  - eexists. split; [reflexivity|]. intros _. reflexivity.
  - rewrite <- Ec in *.
    assert (Hr : rstrip context_ = EmptyString).
    { clear -Hblank. induction context_ as [|a tl IH]; [reflexivity|].
      cbn [all_space] in Hblank. apply andb_true_iff in Hblank.
      destruct Hblank as [Ha Htl]. cbn [rstrip]. rewrite (IH Htl), Ha.
      reflexivity. }
    destruct (move_trailing_spaces_split context_ continuation)
      as (sfx & Hs & _ & Hm).
    rewrite Hr in Hs, Hm. cbn [append] in Hs. subst sfx.
    unfold _encode_pair. rewrite Hm.
    destruct (seq2seq s) eqn:E.
    + eexists. split; [reflexivity|]. intros _. reflexivity.
    + eexists. split; [reflexivity|]. intros [H|H]; congruence.
Qed.

(* ------------------------------------------------------------------ *)
(** ** When [generate_batch] returns *)

Lemma foldM_total {A S} (f : A -> S -> outcome S) (Inv : S -> Prop)
    (l : list A) :
  (forall x s, In x l -> Inv s -> exists s', f x s = Ok s' /\ Inv s') ->
  forall s, Inv s -> exists s', foldM f l s = Ok s' /\ Inv s'.
Proof.
  induction l as [|x l IH]; intros Hstep s Hs.
  - exists s. split; [reflexivity|exact Hs].
  - destruct (Hstep x s (or_introl eq_refl) Hs) as (s1 & E & Hs1).
    destruct (IH (fun y t Hy => Hstep y t (or_intror Hy)) s1 Hs1)
      as (s' & E' & Hs').
    exists s'. split; [|exact Hs']. cbn [foldM]. rewrite E. exact E'.
Qed.

Lemma strings_of_app : forall l l1 e,
  strings_of l = Ok l1 ->
  strings_of (l ++ [VStr e]) = Ok (l1 ++ [e])%list.
Proof.
  induction l as [|v l IH]; intros l1 e H.
  - injection H as <-. reflexivity.
  - cbn [strings_of app] in *. destruct v; try discriminate.
    destruct (strings_of l) as [rest|]; [|discriminate].
    cbn [bind] in H. injection H as <-.
    rewrite (IH rest e eq_refl). reflexivity.
Qed.

Lemma append_eos_ok base gk e :
  kwargs_ok base -> kwargs_ok (append_eos_in_place base gk e).
Proof.
  intros (Hs & Hm & Hown). split; [|split].
  - unfold append_eos_in_place.
    destruct (Dict.contains gk "stop_sequences"); [exact Hs|].
    destruct (Dict.get base "stop_sequences") as [[| | | | |[|x l]|]|] eqn:E;
      try (intros u Hu; rewrite ?E in Hu; apply Hs; exact Hu).
    intros u Hu. rewrite get_set in Hu.
    rewrite String.eqb_refl in Hu. injection Hu as <-.
    destruct (Hs _ eq_refl) as [l1 Hl1]. cbn [stop_list] in *.
    change (x :: l ++ [VStr e])%list with ((x :: l) ++ [VStr e])%list.
    rewrite (strings_of_app _ _ e Hl1). eauto.
  - intros v. rewrite get_append_eos by reflexivity. apply Hm.
  - intros k Hk. rewrite <- (Hown k Hk). unfold own_parameters in Hk.
    cbn [In] in Hk.
    destruct Hk as [<-|[<-|[<-|[<-|[]]]]]; apply get_append_eos; reflexivity.
Qed.

Lemma unpack_total max_gen base gk :
  Dict.wf gk -> kwargs_ok base -> kwargs_ok gk ->
  exists until kw v n,
    unpack_kwargs max_gen base gk = Ok (until, kw) /\
    Dict.get kw "max_tokens" = Some v /\ int_of v = Some n /\
    existsb (Dict.contains kw) own_parameters = false.
Proof.
  intros Hwf (Hbs & Hbm & Hbo) (Hgs & Hgm & Hgo).
  set (merged := Dict.update base gk).
  assert (Hmo : forall k, In k own_parameters -> Dict.get merged k = None).
  { intros k Hk. unfold merged. rewrite get_update by assumption.
    rewrite (Hgo k Hk). apply Hbo. exact Hk. }
  assert (Hms : forall u, Dict.get merged "stop_sequences" = Some u ->
                          exists l, stop_list u = Ok l).
  { intros u. unfold merged. rewrite get_update by assumption.
    destruct (Dict.get gk "stop_sequences") as [u'|] eqn:E.
    - intros H. injection H as <-. apply Hgs. reflexivity.
    - apply Hbs. }
  assert (Hmm : forall v, Dict.get merged "max_new_tokens" = Some v ->
                          exists n, int_of v = Some n).
  { intros v. unfold merged. rewrite get_update by assumption.
    destruct (Dict.get gk "max_new_tokens") as [v'|] eqn:E.
    - intros H. injection H as <-. apply Hgm. reflexivity.
    - apply Hbm. }
  assert (Hun : exists until kw, unpack_kwargs max_gen base gk = Ok (until, kw)).
  { unfold unpack_kwargs. fold merged.
    destruct (Dict.get merged "stop_sequences") as [u|].
    - destruct (Hms u eq_refl) as [l ->]. cbn [bind]. eauto.
    - cbn [bind]. eauto. }
  destruct Hun as (until & kw & Hun). exists until, kw.
  destruct (unpack_stops _ _ _ _ _ Hun) as (k1 & Hk1 & Hkw).
  assert (Hmax : Dict.get kw "max_tokens"
                 = Some (get_default merged "max_new_tokens" (VInt max_gen))).
  { rewrite Hkw. dict_simpl. rewrite !Hk1. fold merged.
    cbn [String.eqb Ascii.eqb Bool.eqb]. unfold get_default.
    destruct (Dict.get merged "decoding_method"),
      (Dict.get merged "min_new_tokens"),
      (Dict.get merged "max_new_tokens");
      cbn [String.eqb Ascii.eqb Bool.eqb]; rewrite ?get_set; reflexivity. }
  assert (Hown : existsb (Dict.contains kw) own_parameters = false).
  { assert (H : forall k, In k own_parameters -> Dict.get kw k = None).
    { intros k Hk. rewrite <- (Hmo k Hk). unfold own_parameters in Hk.
      cbn [In] in Hk.
      destruct Hk as [<-|[<-|[<-|[<-|[]]]]]; rewrite Hkw; dict_simpl;
        rewrite !Hk1; fold merged; cbn [String.eqb Ascii.eqb Bool.eqb];
        destruct (Dict.get merged "decoding_method"),
          (Dict.get merged "min_new_tokens"),
          (Dict.get merged "max_new_tokens");
        cbn [String.eqb Ascii.eqb Bool.eqb]; rewrite ?Hk1; reflexivity. }
    unfold own_parameters in *. cbn [existsb]. unfold Dict.contains.
    rewrite !H by (cbn [In]; tauto). reflexivity. }
  unfold get_default in Hmax.
  destruct (Dict.get merged "max_new_tokens") as [v|] eqn:E.
  - destruct (Hmm v eq_refl) as [n Hn]. exists v, n. repeat split; assumption.
  - exists (VInt max_gen), max_gen. repeat split; try assumption.
Qed.

Lemma updates_total g until : forall pairs reqs w,
  exists st',
    foldM (fun '(s, x) '(reqs0, w0) =>
             '(inst, w1) <-
                update_instance_with_result (cache_hook_set g) s
                  (instance x) (Some until) w0 ;;
             Ok (set_nth reqs0 (position x) inst, w1))
          pairs (reqs, w) = Ok st' /\
    base_kwargs (snd st') = base_kwargs w.
Proof.
  induction pairs as [|[s x] pairs IH]; intros reqs w.
  - eexists. split; reflexivity.
  - cbn [foldM]. unfold update_instance_with_result at 1.
    destruct (truncate_total until s) as [t ->]. cbn [bind].
    match goal with |- context [foldM _ pairs (?r, ?w1)] =>
      destruct (IH r w1) as (st' & E & Hb) end.
    exists st'. split; [exact E|]. rewrite Hb.
    unfold add_partial. destruct (cache_hook_set g); reflexivity.
Qed.

Lemma run_chunk_total g chunk reqs w :
  (exists first rest, chunk = first :: rest /\
                      Dict.wf (kwargs (instance first)) /\
                      kwargs_ok (kwargs (instance first))) ->
  kwargs_ok (base_kwargs w) ->
  exists st', run_chunk g chunk (reqs, w) = Ok st' /\
              kwargs_ok (base_kwargs (snd st')).
Proof.
  intros (first & rest & -> & Hwf & Hok) Hbase. unfold run_chunk.
  destruct (unpack_total (max_gen_toks g) (base_kwargs w)
              (kwargs (instance first)) Hwf Hbase Hok)
    as (until & kw & v & n & -> & Hmax & Hn & Hown).
  cbn [bind]. rewrite Hmax, Hn. cbn [bind]. rewrite Hown. cbn [bind].
  match goal with |- context [_model_generate g ?e ?u ?k ?w0] =>
    destruct (model_generate_total g e u k w0) as (cont & w1 & Eg);
    rewrite Eg; apply model_generate_run in Eg;
    destruct Eg as (_ & Hb1 & _) end.
  cbn [bind].
  match goal with |- context [foldM _ ?pairs (reqs, w1)] =>
    destruct (updates_total g (add_eos until (eos g)) pairs reqs w1)
      as (st' & E & Hb) end.
  exists st'. split; [exact E|]. rewrite Hb, Hb1.
  cbn [base_kwargs set_base_kwargs]. apply append_eos_ok. exact Hbase.
Qed.

Lemma chunks_of_nonempty {A} (n : nat) : forall fuel (l : list A) c,
  (0 < n)%nat -> In c (chunks_of fuel n l) -> c <> [].
Proof.
  induction fuel as [|fuel IH]; intros l c Hn Hin; [contradiction|].
  destruct l as [|x l]; [contradiction|]. cbn [chunks_of] in Hin.
  destruct Hin as [<-|Hin]; [|eapply IH; eassumption].
  destruct n; [lia|]. discriminate.
Qed.

Lemma chunks_nonempty {A} (l : list A) (n : Z) c :
  l <> [] -> In c (chunks l n) -> c <> [].
Proof.
  intros Hl. unfold chunks. destruct (n <=? 0) eqn:E.
  - intros [<-|[]]. exact Hl.
  - apply chunks_of_nonempty. apply Z.leb_gt in E. lia.
Qed.

Lemma add_to_group_nonempty x : forall groups,
  Forall (fun kg => snd kg <> []) groups ->
  Forall (fun kg => snd kg <> []) (add_to_group x groups).
Proof.
  induction groups as [|[k xs] tl IH]; intros H; cbn [add_to_group].
  - constructor; [discriminate|constructor].
  - inversion H as [|? ? Hk Htl]; subst. destruct (value_eqb _ _).
    + constructor; [|exact Htl]. cbn [snd]. destruct xs; discriminate.
    + constructor; [exact Hk|apply IH; exact Htl].
Qed.

Lemma get_grouped_nonempty l :
  Forall (fun kg => snd kg <> []) (get_grouped l).
Proof.
  unfold get_grouped.
  assert (H : forall l groups, Forall (fun kg => snd kg <> []) groups ->
            Forall (fun kg : Dict.t value * list item => snd kg <> [])
                   (fold_left (fun gs x => add_to_group x gs) l groups)).
  { clear. induction l as [|x l IH]; intros groups Hg; [exact Hg|].
    cbn [fold_left]. apply IH. apply add_to_group_nonempty. exact Hg. }
  apply H. constructor.
Qed.

(** X6. [generate_batch] returns whenever every request has a string as its
    first argument and keyword arguments that the chunk accepts, and the
    generator's defaults are accepted too: stop sequences that are a string
    or a list of strings, a [max_new_tokens] that is an integer (a [bool]
    counts), and no key named [self], [requests], [generate] or [stop],
    which the call of [_model_generate] would get a second time. *)
Theorem generate_batch_returns (g : vLLMGenerator)
    (requests : list Instance) (w : world) :
  Forall servable requests ->
  kwargs_ok (base_kwargs w) ->
  exists reqs' w', generate_batch g requests w = Ok (reqs', w').
Proof.
  intros Hreqs Hbase. unfold generate_batch.
  assert (Hcs : exists cs, contexts requests = Ok cs).
  { clear -Hreqs. induction Hreqs as [|r rs ((c & rest & Ha) & _) _ [cs IH]].
    - exists []. reflexivity.
    - exists (c :: cs). cbn [contexts]. rewrite Ha, IH. reflexivity. }
  destruct Hcs as [cs Hcs]. rewrite Hcs. cbn [bind].
  set (n := match batch_size g with Some b => b | None => 0 end).
  destruct (foldM_total
              (fun '(_, c_ce_reqs) st => foldM (run_chunk g)
                                               (chunks c_ce_reqs n) st)
              (fun st => kwargs_ok (base_kwargs (snd st)))
              (get_grouped (items_of g 0 cs requests)))
    with (s := (requests, w)) as ([reqs' w'] & E & _).
  - intros [key group] st Hg Hst.
    apply (foldM_total (run_chunk g)
             (fun st => kwargs_ok (base_kwargs (snd st)))); [|exact Hst].
    intros chunk [reqs0 w0] Hc Hs0. apply run_chunk_total; [|exact Hs0].
    assert (Hne : chunk <> []).
    { apply (chunks_nonempty group n); [|exact Hc].
      pose proof (get_grouped_nonempty (items_of g 0 cs requests)) as Hall.
      rewrite Forall_forall in Hall. apply (Hall (key, group) Hg). }
    destruct chunk as [|first rest]; [contradiction|].
    exists first, rest. split; [reflexivity|].
    assert (Hin : In first (items_of g 0 cs requests)).
    { eapply chunk_items; [exact Hg|exact Hc|left; reflexivity]. }
    apply (request_list_ok g requests cs) in Hin.
    apply nth_error_In in Hin. rewrite Forall_forall in Hreqs.
    destruct (Hreqs _ Hin) as (_ & Hwf & Hok). split; assumption.
  - exact Hbase.
  - exists reqs', w'. exact E.
Qed.

(* ------------------------------------------------------------------ *)
(** ** Results that are not written *)

Lemma store_new_db (attr : string) : forall remaining res p db res' db',
  store_new attr remaining res p db = Ok (res', db') ->
  db' = store_all attr remaining db.
Proof.
  induction remaining as [|req tl IH]; intros res p db res' db' H.
  - injection H as _ <-. reflexivity.
  - cbn [store_new] in H.
    destruct (next_unset (skipn p res) p) as [p'|]; [|discriminate].
    cbn [bind] in H. apply IH in H. exact H.
Qed.

(** X4. A method that returns with nothing written on the queued requests
    makes the dispatcher store [None]: the call returns and every queued
    request then has [None] under its key.  When one of the queued requests
    is looked up in the cache (it is not exempt as a sampled
    [generate_batch] request is), the next dispatch of these requests
    raises [AssertionError] before anything runs. *)
Theorem unset_results_poison_the_store (lm_attr : lm_method) (attr : string)
    (requests : list Instance) (w w1 : world) :
  let remaining := filter (queued attr (dbdict w)) requests in
  Forall (well_formed attr (dbdict w)) requests ->
  lm_attr remaining w = Ok (map (fun _ => VNone) remaining, w1) ->
  exists final w',
    fn lm_attr attr requests w = Ok (final, w') /\
    (forall r, In r remaining ->
               Dict.get (dbdict w') (hash_args attr r) = Some VNone) /\
    ((exists r, In r remaining /\ exempt attr r = false) ->
     forall lm2, fn lm2 attr final w' = Raise AssertionError).
Proof.
  intros remaining Hwf Hlm.
  set (vals := map (fun _ : Instance => VNone) remaining) in *.
  destruct (store_new_returns attr (write_results remaining vals) []
              (map (slot attr (dbdict w)) requests) (dbdict w1))
    as (res' & db' & Hs).
  { rewrite count_none_slots by assumption. rewrite write_results_length.
    reflexivity. }
  cbn [app List.length] in Hs.
  pose proof (store_new_db _ _ _ _ _ _ _ Hs) as Hdb.
  assert (Hfn : fn lm_attr attr requests w
                = Ok (write_results requests res', set_dbdict w1 db')).
  { unfold fn. rewrite check_cached_run by assumption. cbn [bind app].
    fold remaining. rewrite Hlm. cbn [bind]. rewrite Hs. reflexivity. }
  assert (Hstored : forall r, In r remaining ->
                      Dict.get db' (hash_args attr r) = Some VNone).
  { intros r Hr. destruct (store_after attr remaining vals (dbdict w1))
      as [_ Hnew].
    destruct (Hnew r Hr) as (v & Hv & Hin). rewrite Hdb, Hv.
    rewrite write_results_result in Hin
      by (unfold vals; rewrite length_map; reflexivity).
    unfold vals in Hin. apply in_map_iff in Hin. destruct Hin as (_ & <- & _).
    reflexivity. }
  exists (write_results requests res'), (set_dbdict w1 db').
  split; [exact Hfn|]. split; [exact Hstored|].
  intros (r & Hr & He) lm2. unfold fn. cbn [dbdict set_dbdict].
  rewrite check_cached_raises; [reflexivity|].
  pose proof Hr as Hrem. apply filter_In in Hr. destruct Hr as [Hin _].
  destruct (write_results_in requests res' r Hin) as (r' & Hr' & Ha & Hk).
  apply Exists_exists. exists r'. split; [exact Hr'|].
  unfold cached. rewrite (exempt_ext attr r r' Hk), He.
  rewrite (hash_args_ext attr r r' Ha Hk). apply Hstored. exact Hrem.
Qed.

Lemma unset_results_poison_the_store_witness :
  exists final w',
    fn (generate_batch_method silent_generator) "generate_batch"
       [request "Hello" greedy] (demo_world []) = Ok (final, w') /\
    fn (generate_batch_method silent_generator) "generate_batch" final w'
    = Raise AssertionError.
Proof.
  destruct (unset_results_poison_the_store
              (generate_batch_method silent_generator) "generate_batch"
              [request "Hello" greedy] (demo_world []) silent_world)
    as (final & w' & Hfn & _ & Hnext).
  - repeat constructor. unfold well_formed. discriminate.
  - vm_compute. reflexivity.
  - exists final, w'. split; [exact Hfn|]. apply Hnext.
    exists (request "Hello" greedy).
    split; [left; reflexivity|reflexivity].
Defined.

(* ------------------------------------------------------------------ *)
(** ** The text that is hashed *)

(** X17. Requests with different prompts are told apart before hashing: the
    JSON text that [hash_args] hashes for a request whose [args] is one
    string determines that string, whatever the keyword arguments are. *)
Theorem prompts_are_told_apart (attr : string) (r1 r2 : Instance)
    (p1 p2 : string) :
  args r1 = [VStr p1] -> args r2 = [VStr p2] ->
  hash_input attr r1 = hash_input attr r2 -> p1 = p2.
Proof.
  intros H1 H2 H. unfold hash_input in H. rewrite H1, H2 in H.
  cbn [Json.dumps map Json.join] in H.
  injection H as H. rewrite !append_assoc in H.
  apply append_cancel_l in H. cbn [append] in H.
  injection H as H. rewrite !append_assoc in H.
  match type of H with
  | Json.escape _ ++ (String _ ?a ++ ?b) = Json.escape _ ++ (String _ ?c ++ ?d) =>
      apply (escape_injective p1 p2 (a ++ b) (c ++ d)); exact H
  end.
Qed.

Lemma prompts_are_told_apart_witness :
  args (request "Hello" greedy) = [VStr "Hello"] /\
  args (request "Hello!" sampled) = [VStr "Hello!"] /\
  hash_input "generate_batch" (request "Hello" greedy)
  <> hash_input "generate_batch" (request "Hello!" sampled).
Proof.
  split; [reflexivity|]. split; [reflexivity|]. intros H.
  assert (E : "Hello" = "Hello!")
    by (apply (prompts_are_told_apart "generate_batch"
                 (request "Hello" greedy) (request "Hello!" sampled)
                 "Hello" "Hello!" eq_refl eq_refl H)).
  discriminate E.
Defined.

(* ------------------------------------------------------------------ *)
(** ** [tok_encode] *)

Lemma slice_from_suffix {A} (i : Z) (l : list A) :
  exists dropped, l = (dropped ++ slice_from i l)%list.
Proof.
  unfold slice_from. eexists. symmetry. apply firstn_skipn.
Qed.

(** X16. [tok_encode] keeps the end of the tokenizer's encoding.  The result
    is a suffix of [tokenizer.encode(string)]; with a positive
    [left_truncate_len] it has that many tokens, or all of them when there
    are fewer; [left_truncate_len=0] truncates nothing, like [None]; and
    special tokens are asked for when [add_bos_token] is set, also when
    [add_special_tokens=False] is passed. *)
Theorem tok_encode_keeps_the_end (s : LMScorer) (string_ : string)
    (left_truncate_len : option Z) (add_special_tokens : option bool)
    (truncation : bool) :
  let special := match add_special_tokens with
                 | Some true => true
                 | _ => add_bos_token s
                 end in
  let encoding := encode s string_ special truncation in
  let out := tok_encode s string_ left_truncate_len add_special_tokens
                        truncation in
  (exists dropped, encoding = (dropped ++ out)%list) /\
  (forall n, left_truncate_len = Some n -> 0 < n ->
             Z.of_nat (List.length out)
             = Z.min n (Z.of_nat (List.length encoding))) /\
  (left_truncate_len = None \/ left_truncate_len = Some 0 ->
   out = encoding).
Proof.
  intros special encoding out.
  assert (Hout : out = match left_truncate_len with
                       | Some n => if n =? 0 then encoding
                                   else slice_from (- n) encoding
                       | None => encoding
                       end).
  { unfold out, tok_encode, encoding, special.
    destruct add_special_tokens as [[]|]; reflexivity. }
  rewrite Hout. split; [|split].
  - destruct left_truncate_len as [n|]; [destruct (n =? 0)|];
      try (exists []; reflexivity). apply slice_from_suffix.
  - intros n -> Hn. destruct (n =? 0) eqn:E; [apply Z.eqb_eq in E; lia|].
    rewrite slice_from_last by assumption. rewrite length_skipn. lia.
  - intros [->| ->]; reflexivity.
Qed.

Lemma tok_encode_keeps_the_end_witness :
  tok_encode demo_scorer "hello" (Some 2) None false = [108; 111] /\
  tok_encode demo_scorer "hello" (Some 0) None false
  = [104; 101; 108; 108; 111].
Proof.
  destruct (tok_encode_keeps_the_end demo_scorer "hello" (Some 0) None false)
    as (_ & _ & Hzero).
  split; [reflexivity|]. rewrite Hzero by (right; reflexivity). reflexivity.
Defined.

(* ================================================================== *)
(** * The properties on the worked examples *)

Lemma demo_engine_answers hooked : engine_answers (demo_generator hooked).
Proof. intros log call. apply length_map. Qed.

Lemma echo_engine_answers workers : engine_answers (echo_generator workers).
Proof. intros log call. apply length_map. Qed.

Lemma demo_requests_well_formed :
  Forall (well_formed "generate_batch" (dbdict (demo_world demo_store)))
         demo_requests.
Proof. repeat constructor; unfold well_formed; vm_compute; discriminate. Qed.

Lemma demo_outcome_run :
  generate_batch_method (demo_generator true)
    (filter (queued "generate_batch" (dbdict (demo_world demo_store)))
            demo_requests)
    (demo_world demo_store) = demo_outcome.
Proof. vm_compute. reflexivity. Qed.

Lemma second_dispatch_runs_only_exempt_witness :
  exists final w',
    fn (generate_batch_method (demo_generator true)) "generate_batch"
       demo_requests (demo_world demo_store) = Ok (final, w') /\
    filter (queued "generate_batch" (dbdict w')) demo_requests
    = [request "Tell a story" sampled].
Proof.
  pose proof demo_outcome_run as E. unfold demo_outcome in E.
  match type of E with _ = Ok (?vals, ?w1) =>
    destruct (second_dispatch_runs_only_exempt
                (generate_batch_method (demo_generator true)) "generate_batch"
                demo_requests (demo_world demo_store) vals w1)
      as (final & w' & Hfn & _ & Hq)
  end.
  - exact demo_requests_well_formed.
  - exact E.
  - vm_compute. repeat constructor; discriminate.
  - apply (generate_batch_method_run _ _ _ _ _ (demo_engine_answers true) E).
  - exists final, w'. split; [exact Hfn|]. rewrite Hq. reflexivity.
Defined.

Lemma data_parallel_same_outputs_witness :
  exists w' calls,
    _model_generate (echo_generator 2) [[104]; [105]; [106]] ["."] []
                    (demo_world [])
    = Ok (["h"; "i"; "j"], w') /\
    engine_log w' = calls /\ List.length calls = 2%nat /\
    undistribute (map prompt_token_ids calls) = [[104]; [105]; [106]].
Proof.
  destruct (data_parallel_same_outputs (echo_generator 2) detokenize
              [[104]; [105]; [106]] ["."] [] (demo_world []))
    as (w' & calls & H & _ & Hlog & Hlen & _ & Hparts).
  - intros log call. reflexivity.
  - exists w', calls. split; [exact H|]. split; [exact Hlog|].
    split; [exact Hlen|exact Hparts].
Defined.

Lemma echo_outcome_run :
  generate_batch (echo_generator 2) echo_batch (demo_world []) = echo_outcome.
Proof. vm_compute. reflexivity. Qed.

Lemma generate_batch_only_writes_results_witness :
  exists reqs' w',
    generate_batch (echo_generator 2) echo_batch (demo_world [])
    = Ok (reqs', w') /\
    map result reqs' = [VStr "efgh"; VStr "xy"; VStr "ello"] /\
    map args reqs' = map args echo_batch /\
    map kwargs reqs' = map kwargs echo_batch /\
    dbdict w' = [].
Proof.
  pose proof echo_outcome_run as E. unfold echo_outcome in E.
  match type of E with _ = Ok (?r, ?w1) =>
    exists r, w1;
    destruct (generate_batch_only_writes_results _ _ _ r w1 E)
      as (_ & Ha & Hk & _ & Hno & _)
  end.
  split; [exact E|]. split; [reflexivity|]. split; [exact Ha|].
  split; [exact Hk|]. apply Hno. reflexivity.
Defined.

Lemma demo_hooked_outcome_run :
  generate_batch (demo_generator true) demo_batch (demo_world [])
  = demo_hooked_outcome.
Proof. vm_compute. reflexivity. Qed.

Lemma generate_batch_answers_every_request_witness :
  exists reqs' w',
    generate_batch (demo_generator true) demo_batch (demo_world [])
    = Ok (reqs', w') /\
    Forall has_text reqs' /\
    exists t,
      Dict.get (dbdict w')
               (hash_args "generate_batch" (request "Hello" greedy))
      = Some (VStr t).
Proof.
  pose proof demo_hooked_outcome_run as E. unfold demo_hooked_outcome in E.
  match type of E with _ = Ok (?r, ?w1) =>
    exists r, w1;
    destruct (generate_batch_answers_every_request _ _ _ r w1
                (demo_engine_answers true) E) as (Ht & Hs)
  end.
  split; [exact E|]. split; [exact Ht|].
  apply Hs; [reflexivity|left; reflexivity].
Defined.

Lemma prompts_leave_room_for_the_answer_witness :
  exists reqs' w',
    generate_batch (echo_generator 2) echo_batch (demo_world [])
    = Ok (reqs', w') /\
    Forall (fun c =>
              exists v n,
                Dict.get (sampling_kwargs c) "max_tokens" = Some v /\
                int_of v = Some n /\
                Forall (fun p => n < 8 -> Z.of_nat (List.length p) <= 8 - n)
                       (prompt_token_ids c))
           (engine_log w').
Proof.
  pose proof echo_outcome_run as E. unfold echo_outcome in E.
  match type of E with _ = Ok (?r, ?w1) =>
    exists r, w1;
    destruct (prompts_leave_room_for_the_answer _ _ _ r w1 E)
      as (calls & Hlog & Hcalls)
  end.
  split; [exact E|]. rewrite Hlog. cbn [engine_log demo_world app].
  eapply Forall_impl; [|exact Hcalls].
  intros c (v & n & Hv & Hn & Hps). exists v, n. split; [exact Hv|].
  split; [exact Hn|]. eapply Forall_impl; [|exact Hps].
  intros p (r & text & rest & _ & _ & _ & Hfit & _). exact Hfit.
Defined.

Lemma demo_dispatch_outcome_run :
  fn (generate_batch_method (demo_generator true)) "generate_batch"
     demo_requests (demo_world demo_store) = demo_dispatch_outcome.
Proof. vm_compute. reflexivity. Qed.

Lemma batch_is_cached_for_next_time_witness :
  exists final w',
    fn (generate_batch_method (demo_generator true)) "generate_batch"
       demo_requests (demo_world demo_store) = Ok (final, w') /\
    filter (queued "generate_batch" (dbdict w')) final
    = filter (exempt "generate_batch") final.
Proof.
  pose proof demo_dispatch_outcome_run as E. unfold demo_dispatch_outcome in E.
  match type of E with _ = Ok (?r, ?w1) =>
    exists r, w1;
    destruct (batch_is_cached_for_next_time _ _ _ r w1
                (demo_engine_answers true) E) as (_ & Hq & _)
  end.
  split; [exact E|exact Hq].
Defined.

Lemma engine_parameters_keys_witness :
  let gk := [("stop_sequences", VStr "."); ("max_new_tokens", VInt 20);
             ("top_k", VInt 5)] in
  exists until kw,
    unpack_kwargs 256 (init_base_kwargs []) gk = Ok (until, kw) /\
    Dict.get (modify_gen_kwargs kw) "stop_sequences" = None /\
    Dict.get (modify_gen_kwargs kw) "decoding_method" = None /\
    Dict.contains (modify_gen_kwargs kw) "max_tokens" = true /\
    Dict.get (modify_gen_kwargs kw) "top_k" = Some (VInt 5).
Proof.
  intros gk. eexists. eexists. split; [reflexivity|].
  match goal with |- Dict.get (modify_gen_kwargs ?kw) _ = _ /\ _ =>
    destruct (engine_parameters_keys 256 (init_base_kwargs []) gk
                (Some ["."]) kw eq_refl) as (Hnone & Hsome & Hother)
  end.
  split; [apply Hnone; cbn [In]; tauto|].
  split; [apply Hnone; cbn [In]; tauto|].
  split; [apply Hsome; cbn [In]; tauto|].
  rewrite Hother; [reflexivity|].
  cbn [In]. intros H. repeat destruct H as [H|H]; try discriminate H.
  exact H.
Defined.

Lemma blank_context_is_not_the_empty_context_witness :
  exists continuation_enc,
    encode_request demo_scorer
      {| args := [VStr "  "; VStr "a"]; kwargs := []; result := VNone |}
    = Ok ([], continuation_enc,
          {| args := [VStr "  "; VStr "a"]; kwargs := []; result := VNone |})
    /\
    encode_request demo_scorer
      {| args := [VStr EmptyString; VStr "a"]; kwargs := []; result := VNone |}
    = Ok ([1], [97],
          {| args := [VStr EmptyString; VStr "a"]; kwargs := [];
             result := VNone |}).
Proof.
  destruct (blank_context_is_not_the_empty_context demo_scorer
              {| args := [VStr "  "; VStr "a"]; kwargs := [];
                 result := VNone |} "  " "a" eq_refl eq_refl)
    as (ke & H & _).
  exists ke. split; [exact H|reflexivity].
Defined.

Lemma generate_batch_returns_witness :
  exists reqs' w',
    generate_batch (echo_generator 2) echo_batch (demo_world [])
    = Ok (reqs', w').
Proof.
  apply generate_batch_returns.
  - repeat constructor;
      try (eexists; eexists; reflexivity);
      try (cbn; intuition discriminate);
      try (intros v H; cbn in H; discriminate H);
      try (intros k [<-|[<-|[<-|[<-|[]]]]]; reflexivity).
  - repeat split; try (intros v H; cbn in H; discriminate H).
    intros k [<-|[<-|[<-|[<-|[]]]]]; reflexivity.
Defined.
